(** * y-mongodb-provider: the storage/log engine of [src/utils.js] and the
    transaction serializer of the persistence class, embedded and verified.

    JavaScript numbers that hold integers are modelled as [Z]; byte arrays
    ([Uint8Array], [Buffer]) as [list byte]; thrown errors as the [Err] case of
    [result]; the MongoDB collection as the list of its records. *)

From Equations Require Import Equations.
From Stdlib Require Import ZArith List String Ascii Bool Lia DecimalString.
From Stdlib.Strings Require Import Byte.
Import ListNotations.
Local Open Scope Z_scope.

(** ** Errors and fallible results *)

(** The errors the modelled code can raise, by the class or message that the
    source (or the library it calls) throws. *)
Inductive error : Type :=
  | CorruptChunkSequence      (* 'Couldnt merge updates together because a part is missing!' *)
  | UnexpectedEndOfArray      (* lib0/decoding: errorUnexpectedEndOfArray *)
  | IntegerOutOfRange         (* lib0/decoding: errorIntegerOutOfRange *)
  | MongoNetworkError
  | MongoNetworkTimeoutError
  | MongoBulkWriteError
  | OtherError (msg : string).

Inductive result (A : Type) : Type :=
  | Ok (a : A)
  | Err (e : error).
Arguments Ok {A} a.
Arguments Err {A} e.

Definition bind {A B} (r : result A) (k : A -> result B) : result B :=
  match r with
  | Ok a => k a
  | Err e => Err e
  end.

Notation "'do' x <- r ; k" := (bind r (fun x => k))
  (at level 10, x pattern, r at level 100, k at level 200).

Definition bytes := list byte.

(** ** lib0 constants ([lib0/binary], [lib0/number]) *)

Definition BIT8 : Z := 128.
Definition BITS7 : Z := 127.
Definition BITS32 : Z := 4294967295.            (* 0xFFFFFFFF *)
Definition MAX_SAFE_INTEGER : Z := 9007199254740991. (* 2^53 - 1 *)

(** ** utils.js constants *)

Definition PREFERRED_TRIM_SIZE : Z := 400.
Definition MAX_DOCUMENT_SIZE : Z := 15000000.

(** ** Bytes *)

Definition byte_val (b : byte) : Z := Z.of_N (Byte.to_N b).

(** Storing a number into a [Uint8Array] keeps it modulo 256. *)
Definition byte_of_Z (z : Z) : byte :=
  match Byte.of_N (Z.to_N (z mod 256)) with
  | Some b => b
  | None => x00
  end.

Definition byteLength (b : bytes) : Z := Z.of_nat (List.length b).

(** [arr.subarray(start, end)] for [0 <= start <= end]. *)
Definition subarray (arr : bytes) (start end_ : Z) : bytes :=
  firstn (Z.to_nat (end_ - start)) (skipn (Z.to_nat start) arr).

(** ** lib0/encoding and lib0/decoding (external library, version ^0.2.89)

    An encoder is the list of bytes written so far; each writer below returns
    the bytes it appends.  A decoder is the list of bytes not yet read. *)

(** [writeVarUint]:
<<
  while (num > BITS7) { write(BIT8 | (BITS7 & num)); num = floor(num / 128) }
  write(BITS7 & num)
>> *)
Equations? writeVarUint (num : Z) : bytes by wf (Z.to_nat num) lt :=
  writeVarUint num with Z_lt_dec BITS7 num := {
    | left _ => byte_of_Z (Z.lor BIT8 (Z.land BITS7 num)) :: writeVarUint (num / 128)
    | right _ => [byte_of_Z (Z.land BITS7 num)]
  }.
Proof.
  unfold BITS7 in *.
  assert (num / 128 < num) by (apply Z.div_lt; lia).
  assert (0 <= num / 128) by (apply Z.div_pos; lia).
  lia.
Qed.

Definition writeUint8Array (arr : bytes) : bytes := arr.

(** [writeVarUint8Array]: the byte length as a var-uint, then the bytes. *)
Definition writeVarUint8Array (arr : bytes) : bytes :=
  writeVarUint (byteLength arr) ++ writeUint8Array arr.

(** [readVarUint]:
<<
  let num = 0, mult = 1
  while (pos < len) {
    const r = arr[pos++]
    num = num + (r & BITS7) * mult;  mult *= 128
    if (r < BIT8) return num
    if (num > MAX_SAFE_INTEGER) throw errorIntegerOutOfRange
  }
  throw errorUnexpectedEndOfArray
>> *)
Fixpoint readVarUint_loop (num mult : Z) (dec : bytes) : result (Z * bytes) :=
  match dec with
  | [] => Err UnexpectedEndOfArray
  | r :: dec' =>
      let num' := num + Z.land (byte_val r) BITS7 * mult in
      let mult' := mult * 128 in
      if byte_val r <? BIT8 then Ok (num', dec')
      else if MAX_SAFE_INTEGER <? num' then Err IntegerOutOfRange
      else readVarUint_loop num' mult' dec'
  end.

Definition readVarUint (dec : bytes) : result (Z * bytes) :=
  readVarUint_loop 0 1 dec.

(** [readUint8Array(decoder, len)]: a view of the next [len] bytes; creating
    the view fails when fewer bytes are left.  This is the decoder over an
    array that ends where its buffer ends; [readUint8Array_in], further down,
    is the decoder over an array cut from a longer buffer, and the two agree
    whenever [len] bytes are left. *)
Definition readUint8Array (dec : bytes) (len : Z) : result (bytes * bytes) :=
  if Z.of_nat (List.length dec) <? len then Err (OtherError "RangeError")
  else Ok (firstn (Z.to_nat len) dec, skipn (Z.to_nat len) dec).

Definition readVarUint8Array (dec : bytes) : result (bytes * bytes) :=
  do (len, dec') <- readVarUint dec;
  readUint8Array dec' len.

(** ** State Vector Cache codec (utils.js) *)

(** [encodeStateVector], lines 226-231 (and the same three lines inlined in
    [writeStateVector], lines 170-172). *)
Definition encodeStateVector (clock : Z) (sv : bytes) : bytes :=
  writeVarUint clock ++ writeVarUint8Array sv.

(** [decodeMongodbStateVector], lines 438-450.  The stored value is always a
    binary buffer in this model, so the 'No buffer provided' branch has no
    input here. *)
Definition decodeMongodbStateVector (buf : bytes) : result (bytes * Z) :=
  do (clock, dec) <- readVarUint buf;
  do (sv, _) <- readVarUint8Array dec;
  Ok (sv, clock).

(** ** Data model: the records of the collection

    The three kinds of record the code writes (spec, section 3).  An update
    record has version ['v1'], action ['update'], a clock and, when it is one
    part of a split update, a 1-based part number.  A state-vector record has
    version ['v1_sv'] and neither action nor clock.  A meta record has
    version ['v1'] and a meta key. *)

Inductive mongoDoc : Type :=
  | UpdateDoc (name : string) (clock : Z) (part : option Z) (value : bytes)
  | StateVectorDoc (name : string) (value : bytes)
  | MetaDoc (name : string) (metaKey : string) (value : bytes).

(** The fields of a record, as a filter sees them. *)
Definition version (d : mongoDoc) : string :=
  match d with
  | UpdateDoc _ _ _ _ => "v1"
  | StateVectorDoc _ _ => "v1_sv"
  | MetaDoc _ _ _ => "v1"
  end.

Definition action (d : mongoDoc) : option string :=
  match d with
  | UpdateDoc _ _ _ _ => Some "update"%string
  | _ => None
  end.

Definition docName (d : mongoDoc) : string :=
  match d with
  | UpdateDoc n _ _ _ => n
  | StateVectorDoc n _ => n
  | MetaDoc n _ _ => n
  end.

Definition clock (d : mongoDoc) : option Z :=
  match d with
  | UpdateDoc _ c _ _ => Some c
  | _ => None
  end.

Definition part (d : mongoDoc) : option Z :=
  match d with
  | UpdateDoc _ _ p _ => p
  | _ => None
  end.

Definition value (d : mongoDoc) : bytes :=
  match d with
  | UpdateDoc _ _ _ v => v
  | StateVectorDoc _ v => v
  | MetaDoc _ _ v => v
  end.

(** A MongoDB filter over these fields: a field left out does not constrain
    the record; [clock] is compared either to a number or to a
    [{$gte, $lt}] range. *)
Inductive clockFilter : Type :=
  | ClockIs (c : Z)
  | ClockRange (gte lt : Z).

Record query : Type := mkQuery {
  q_version : option string;
  q_action : option string;
  q_docName : option string;
  q_clock : option clockFilter;
  q_part : option Z
}.

(** [createDocumentUpdateKey], lines 35-50. *)
Definition createDocumentUpdateKey (docName : string) (clock : option Z) : query :=
  match clock with
  | Some c =>
      {| q_version := Some "v1"%string; q_action := Some "update"%string;
         q_docName := Some docName; q_clock := Some (ClockIs c); q_part := None |}
  | None =>
      {| q_version := Some "v1"%string; q_action := Some "update"%string;
         q_docName := Some docName; q_clock := None; q_part := None |}
  end.

(** [createDocumentStateVectorKey], lines 57-60. *)
Definition createDocumentStateVectorKey (docName : string) : query :=
  {| q_version := Some "v1_sv"%string; q_action := None;
     q_docName := Some docName; q_clock := None; q_part := None |}.

(** [{ ...key, part }]: the key of one part of a split update. *)
Definition with_part (q : query) (p : Z) : query :=
  {| q_version := q_version q; q_action := q_action q; q_docName := q_docName q;
     q_clock := q_clock q; q_part := Some p |}.

(** [{ ...key, clock: { $gte, $lt } }]. *)
Definition with_clock_range (q : query) (gte lt : Z) : query :=
  {| q_version := q_version q; q_action := q_action q; q_docName := q_docName q;
     q_clock := Some (ClockRange gte lt); q_part := q_part q |}.

(** ** Store Adapter *)

Definition DB := list mongoDoc.

Definition string_field_matches (q : option string) (f : option string) : bool :=
  match q, f with
  | None, _ => true
  | Some x, Some y => String.eqb x y
  | Some _, None => false
  end.

Definition clock_matches (q : option clockFilter) (f : option Z) : bool :=
  match q, f with
  | None, _ => true
  | Some (ClockIs c), Some c' => c =? c'
  | Some (ClockRange gte lt), Some c' => (gte <=? c') && (c' <? lt)
  | Some _, None => false
  end.

Definition part_matches (q : option Z) (f : option Z) : bool :=
  match q, f with
  | None, _ => true
  | Some p, Some p' => p =? p'
  | Some _, None => false
  end.

(** Modelled from the spec: the store adapter (mongo-adapter.js) is not among
    the sources; its filter semantics is MongoDB's: every field named by the
    filter must be present in the record and equal (or in range). *)
Definition matches (q : query) (d : mongoDoc) : bool :=
  string_field_matches (q_version q) (Some (version d))
  && string_field_matches (q_action q) (action d)
  && string_field_matches (q_docName q) (Some (docName d))
  && clock_matches (q_clock q) (clock d)
  && part_matches (q_part q) (part d).

(** Order of an optional number in a sort: a missing field sorts first. *)
Definition opt_ltb (a b : option Z) : bool :=
  match a, b with
  | None, None => false
  | None, Some _ => true
  | Some _, None => false
  | Some x, Some y => x <? y
  end.

Definition opt_eqb (a b : option Z) : bool :=
  match a, b with
  | None, None => true
  | Some x, Some y => x =? y
  | _, _ => false
  end.

(** [(clock, part)] order of two records. *)
Definition doc_leb (d1 d2 : mongoDoc) : bool :=
  opt_ltb (clock d1) (clock d2)
  || (opt_eqb (clock d1) (clock d2) && negb (opt_ltb (part d2) (part d1))).

Fixpoint insert_sorted (d : mongoDoc) (l : list mongoDoc) : list mongoDoc :=
  match l with
  | [] => [d]
  | x :: r => if doc_leb d x then d :: l else x :: insert_sorted d r
  end.

Definition sort_docs (l : list mongoDoc) : list mongoDoc :=
  fold_right insert_sorted [] l.

(** Modelled from the spec: [find(filter) -> records], the adapter's range
    query; the records come ordered by [(clock, part)]. *)
Definition db_find (q : query) (db : DB) : list mongoDoc :=
  sort_docs (filter (matches q) db).

(** Modelled from the spec: [findOne(filter, {reverse?}) -> record|absent];
    with [reverse] the record of greatest clock is the one found. *)
Definition db_findOne (q : query) (reverse : bool) (db : DB) : option mongoDoc :=
  if reverse then last (map Some (sort_docs (filter (matches q) db))) None
  else head (filter (matches q) db).

(** The record an upsert inserts, made of the locator's equality fields and
    the value: an update record for an update key, a state-vector record for
    a state-vector key (any other locator gives a meta record). *)
Definition doc_of_query (q : query) (v : bytes) : mongoDoc :=
  let name := match q_docName q with Some s => s | None => EmptyString end in
  match q_action q, q_clock q with
  | Some _, Some (ClockIs c) => UpdateDoc name c (q_part q) v
  | _, _ =>
      match q_version q with
      | Some ver => if String.eqb ver "v1_sv" then StateVectorDoc name v
                    else MetaDoc name EmptyString v
      | None => MetaDoc name EmptyString v
      end
  end.

Definition set_value (d : mongoDoc) (v : bytes) : mongoDoc :=
  match d with
  | UpdateDoc n c p _ => UpdateDoc n c p v
  | StateVectorDoc n _ => StateVectorDoc n v
  | MetaDoc n k _ => MetaDoc n k v
  end.

Fixpoint update_first (q : query) (v : bytes) (db : DB) : option DB :=
  match db with
  | [] => None
  | d :: db' =>
      if matches q d then Some (set_value d v :: db')
      else option_map (cons d) (update_first q v db')
  end.

(** Modelled from the spec: [put(locator, value)], an upsert: the first record
    that matches the locator gets the value, and a new record is inserted when
    none matches. *)
Definition db_put (q : query) (v : bytes) (db : DB) : DB :=
  match update_first q v db with
  | Some db' => db'
  | None => db ++ [doc_of_query q v]
  end.

(** Modelled from the spec: [delete(filter)], removes every matching record. *)
Definition db_delete (q : query) (db : DB) : DB :=
  filter (fun d => negb (matches q d)) db.

(** Modelled from the spec: [bulkPut(map)], upsert semantics for every
    [(locator, value)] entry of the map, in the order of its entries. *)
Definition db_bulkPut (entries : list (string * (query * bytes))) (db : DB) : DB :=
  fold_left (fun acc e => db_put (fst (snd e)) (snd (snd e)) acc) entries db.

(** Modelled from the spec: [bulkInsert(map)], insert-only semantics: every
    entry becomes a new record. *)
Definition db_bulkInsert (entries : list (string * (query * bytes))) (db : DB) : DB :=
  fold_left (fun acc e => acc ++ [doc_of_query (fst (snd e)) (snd (snd e))]) entries db.

(** ** Update Log (utils.js) *)

(** [clearUpdatesRange], lines 20-27: the filter names only [docName] and the
    clock range. *)
Definition clearUpdatesRange (docName : string) (from to : Z) (db : DB) : DB :=
  db_delete {| q_version := None; q_action := None; q_docName := Some docName;
               q_clock := Some (ClockRange from to); q_part := None |} db.

(** JavaScript truthiness of [doc.part]: a missing part and part 0 are falsy. *)
Definition part_truthy (p : option Z) : bool :=
  match p with
  | None => false
  | Some n => negb (n =? 0)
  end.

(** The inner loop of [convertMongoUpdates], lines 103-114: from the record
    after a part 1, absorb the records that carry a part number and the same
    clock, checking that every part number is the previous one plus one.
    Returns the buffers absorbed ([parts] without its first element); their
    number is how far [j] moved. *)
Fixpoint absorb_parts (clock0 : option Z) (currentPartId : Z) (docs : list mongoDoc)
  : result (list bytes) :=
  match docs with
  | [] => Ok []
  | p :: rest =>
      if part_truthy (part p) && opt_eqb (clock p) clock0 then
        match part p with
        | Some n =>
            if negb (currentPartId =? n - 1) then Err CorruptChunkSequence
            else do more <- absorb_parts clock0 n rest; Ok (value p :: more)
        | None => Ok []
        end
      else Ok []
  end.

(** The outer loop of [convertMongoUpdates], lines 94-119.  [skip] is the
    number of records the index still has to step over after [i = j - 1]. *)
Fixpoint convert_loop (skip : nat) (docs : list mongoDoc) : result (list bytes) :=
  match docs with
  | [] => Ok []
  | doc :: rest =>
      match skip with
      | S k => convert_loop k rest
      | O =>
          if negb (part_truthy (part doc)) then
            do updates <- convert_loop O rest; Ok (value doc :: updates)
          else if opt_eqb (part doc) (Some 1) then
            do more <- absorb_parts (clock doc) 1 rest;
            do updates <- convert_loop (List.length more) rest;
            Ok (List.concat (value doc :: more) :: updates)
          else convert_loop O rest
      end
  end.

(** [convertMongoUpdates], lines 89-121. *)
Definition convertMongoUpdates (docs : list mongoDoc) : result (list bytes) :=
  convert_loop O docs.

(** [getMongoUpdates], lines 130-135. *)
Definition getMongoUpdates (docName : string) (db : DB) : result (list bytes) :=
  convertMongoUpdates (db_find (createDocumentUpdateKey docName None) db).

(** [getCurrentUpdateClock], lines 142-160. *)
Definition getCurrentUpdateClock (docName : string) (db : DB) : Z :=
  match db_findOne
          (with_clock_range (createDocumentUpdateKey docName (Some 0)) 0 BITS32)
          true db with
  | None => -1
  | Some update => match clock update with Some c => c | None => -1 end
  end.

(** [writeStateVector], lines 169-176. *)
Definition writeStateVector (docName : string) (sv : bytes) (clock : Z) (db : DB) : DB :=
  db_put (createDocumentStateVectorKey docName)
         (writeVarUint clock ++ writeVarUint8Array sv) db.

(** The collaboration engine (Yjs), an external capability: documents, applying
    an update to a document, and the two encodings of a document.  Update
    payloads are opaque to the storage engine; applying one is taken to be
    total. *)
Class Engine : Type := {
  ydoc : Type;
  Y_Doc : ydoc;                                   (* new Y.Doc() *)
  Y_applyUpdate : ydoc -> bytes -> ydoc;
  Y_encodeStateAsUpdate : ydoc -> bytes;
  Y_encodeStateVector : ydoc -> bytes
}.

(** [Math.ceil(update.length / maxSize)]. *)
Definition totalChunks (maxSize : Z) (update : bytes) : Z :=
  (byteLength update + maxSize - 1) / maxSize.

(** The indices [0 .. total-1] of a counting loop. *)
Definition indices (total : Z) : list Z :=
  map Z.of_nat (seq 0 (Z.to_nat total)).

(** The chunk cut for index [i], lines 205-207 (and 301-303, 394-396). *)
Definition chunk_at (maxSize : Z) (update : bytes) (i : Z) : bytes :=
  let start := i * maxSize in
  let end_ := Z.min (start + maxSize) (byteLength update) in
  subarray update start end_.

(** The [(locator, value)] pairs that [storeUpdate] puts for an update,
    lines 196-212: one record when the update fits, else one per chunk with
    parts numbered from 1. *)
Definition update_puts (docName : string) (clock : Z) (update : bytes)
  : list (query * bytes) :=
  if byteLength update <=? MAX_DOCUMENT_SIZE then
    [(createDocumentUpdateKey docName (Some clock), update)]
  else
    map (fun i => (with_part (createDocumentUpdateKey docName (Some clock)) (i + 1),
                   chunk_at MAX_DOCUMENT_SIZE update i))
        (indices (totalChunks MAX_DOCUMENT_SIZE update)).

Section WithEngine.
Context {Y : Engine}.

(** The initial state vector of lines 188-190 (and 277-279, 370-372). *)
Definition initialStateVector (update : bytes) : bytes :=
    Y_encodeStateVector (Y_applyUpdate Y_Doc update).

(** [storeUpdate], lines 184-218.  The puts of the parts are issued in the
    order of the loop and awaited together. *)
Definition storeUpdate (docName : string) (update : bytes) (db : DB) : DB * Z :=
    let clock := getCurrentUpdateClock docName db in
    let db1 :=
      if clock =? -1 then writeStateVector docName (initialStateVector update) 0 db
      else db in
    let db2 :=
      fold_left (fun acc p => db_put (fst p) (snd p) acc)
                (update_puts docName (clock + 1) update) db1 in
    (db2, clock + 1).

(** [mergeUpdates], lines 424-432. *)
Definition mergeUpdates (updates : list bytes) : bytes * bytes :=
    let ydoc := fold_left Y_applyUpdate updates Y_Doc in
    (Y_encodeStateAsUpdate ydoc, Y_encodeStateVector ydoc).

(** [readStateVector], lines 456-463; [sv: null] is [None]. *)
Definition readStateVector (docName : string) (db : DB) : result (option bytes * Z) :=
    match db_findOne (createDocumentStateVectorKey docName) false db with
    | None => Ok (None, -1)
    | Some doc =>
        do (sv, clock) <- decodeMongodbStateVector (value doc);
        Ok (Some sv, clock)
    end.

(** [flushDocument], lines 479-484. *)
Definition flushDocument (docName : string) (stateAsUpdate stateVector : bytes) (db : DB)
    : DB * Z :=
    let (db1, clock) := storeUpdate docName stateAsUpdate db in
    let db2 := writeStateVector docName stateVector clock db1 in
    let db3 := clearUpdatesRange docName 0 clock db2 in
    (db3, clock).

End WithEngine.

(** ** Effects outside the store: timers and the console *)

Inductive event : Type :=
  | Delay (ms : Z)              (* a setTimeout wait *)
  | ConsoleWarn (e : error)
  | ConsoleError (e : error).

(** ** Bulk Writer (utils.js) *)

(** [error instanceof MongoNetworkError || error instanceof
    MongoNetworkTimeoutError || error instanceof MongoBulkWriteError],
    line 243. *)
Definition retryable (e : error) : bool :=
  match e with
  | MongoNetworkError | MongoNetworkTimeoutError | MongoBulkWriteError => true
  | _ => false
  end.

Section Retry.
(** The state a task runs in (store, network, console, clock), with the way
      timer waits and console lines are recorded in it. *)
Context {St A : Type}.
Variable emit : event -> St -> St.

(** The loop of [retryMongoOperation], lines 239-256, with [remaining] the
      number of attempts still allowed ([retries - attempt + 1]). *)
Fixpoint retry_loop (task : St -> St * result A) (delay : Z) (remaining : nat)
      (lastError : option error) (s : St) : St * result A :=
    match remaining with
    | O =>
        (s, Err (match lastError with
                 | Some e => e
                 | None => OtherError "undefined"
                 end))
    | S k =>
        let (s1, r) := task s in
        match r with
        | Ok a => (s1, Ok a)
        | Err e =>
            if retryable e then
              let s2 :=
                match k with
                | O => emit (ConsoleError e) s1                 (* final attempt *)
                | _ => emit (Delay delay) (emit (ConsoleWarn e) s1)
                end in
              retry_loop task delay k (Some e) s2
            else (s1, Err e)
        end
    end.

(** [retryMongoOperation], lines 237-257. *)
Definition retryMongoOperation (task : St -> St * result A) (retries delay : Z)
    : St -> St * result A :=
    retry_loop task delay (Z.to_nat retries) None.
End Retry.

(** A JavaScript object used as a map from strings: its entries in insertion
    order; assigning to a key that is present replaces the value in place.
    (The engine's reordering of integer-like keys is not modelled; nothing
    below depends on the order of the entries.) *)
Definition obj (V : Type) : Type := list (string * V).

Fixpoint obj_get {V} (k : string) (o : obj V) : option V :=
  match o with
  | [] => None
  | (k', v) :: o' => if String.eqb k k' then Some v else obj_get k o'
  end.

Fixpoint obj_set {V} (k : string) (v : V) (o : obj V) : obj V :=
  match o with
  | [] => [(k, v)]
  | (k', v') :: o' =>
      if String.eqb k k' then (k, v) :: o' else (k', v') :: obj_set k v o'
  end.

(** Decimal digits of a number inside a template string. *)
Definition string_of_Z (z : Z) : string :=
  DecimalString.NilZero.string_of_int (Z.to_int z).

(** [`${docName}-part${i + 1}`]. *)
Definition part_key (docName : string) (i : Z) : string :=
  (docName ++ "-part" ++ string_of_Z (i + 1))%string.

(** The store and what was observed beside it. *)
Record world : Type := mkWorld {
  w_db : DB;
  w_log : list event
}.

Definition emit_world (e : event) (w : world) : world :=
  {| w_db := w_db w; w_log := w_log w ++ [e] |}.

Definition on_db (f : DB -> DB) (w : world) : world * result unit :=
  ({| w_db := f (w_db w); w_log := w_log w |}, Ok tt).

(** [i = 0; i < length; i += limit]: the start index of every batch. *)
Definition batch_starts (length limit : Z) : list Z :=
  map (fun k => k * limit) (indices ((length + limit - 1) / limit)).

(** [bulkWriteWithConcurrency], lines 317-337.  The state of the loop is the
    world, the number of batch operations pending, and whether one failed.
    (The store operations of this model do not fail, so the failure branch is
    never taken; it only keeps the shape of the source.) *)
Definition bulkWriteWithConcurrency (map_ : obj (query * bytes)) (concurrencyLimit : Z)
    (w : world) : world * result unit :=
  let entries := map_ in
  let step (st : world * Z * result unit) (i : Z) : world * Z * result unit :=
    match st with
    | (w0, pending, Err e) => (w0, pending, Err e)
    | (w0, pending, Ok _) =>
        let chunk :=
          firstn (Z.to_nat concurrencyLimit) (skipn (Z.to_nat i) entries) in
        let (w1, r) :=
          retryMongoOperation emit_world (on_db (db_bulkPut chunk)) 3 1000 w0 in
        match r with
        | Err e => (w1, pending + 1, Err e)
        | Ok _ =>
            if concurrencyLimit <=? pending + 1
            then (emit_world (Delay 100) w1, 0, Ok tt)
            else (w1, pending + 1, Ok tt)
        end
    end in
  let '(w', _, r) :=
    fold_left step (batch_starts (Z.of_nat (List.length entries)) concurrencyLimit)
              (w, 0, Ok tt) in
  (w', r).

Section BulkIngestion.
Context {Y : Engine}.

(** The callback of lines 274-313 (and 367-406) for one entry of
      [updatesMap]: it fills [stateVectorMap] and [updateMap].  [clock] is the
      variable of line 265 (358), which nothing assigns after its
      initialisation to -1. *)
Definition ingest_entry (clock : Z)
      (maps : obj (query * bytes) * obj (query * bytes)) (entry : string * bytes)
    : obj (query * bytes) * obj (query * bytes) :=
    let (stateVectorMap, updateMap) := maps in
    let (docName, update) := entry in
    let stateVectorMap' :=
      if clock =? -1 then
        obj_set docName
          (createDocumentStateVectorKey docName,
           encodeStateVector clock (initialStateVector update))
          stateVectorMap
      else stateVectorMap in
    let updateMap' :=
      if byteLength update <=? MAX_DOCUMENT_SIZE then
        obj_set docName (createDocumentUpdateKey docName (Some (clock + 1)), update)
                updateMap
      else
        fold_left
          (fun m i =>
             obj_set (part_key docName i)
               (with_part (createDocumentUpdateKey docName (Some (clock + 1))) (i + 1),
                chunk_at MAX_DOCUMENT_SIZE update i)
               m)
          (indices (totalChunks MAX_DOCUMENT_SIZE update)) updateMap in
    (stateVectorMap', updateMap').

Definition ingest_maps (clock : Z) (updatesMap : obj bytes)
    : obj (query * bytes) * obj (query * bytes) :=
    fold_left (ingest_entry clock) updatesMap ([], []).

(** [storeUpdates], lines 264-350.  The two bulk writes of line 340 touch
      different records (state-vector keys and update keys); they are run one
      after the other here. *)
Definition storeUpdates (updatesMap : obj bytes) (w : world) : world * result Z :=
    let clock := -1 in
    let (stateVectorMap, updateMap) := ingest_maps clock updatesMap in
    let concurrencyLimit := 50 in
    let (w1, r1) := bulkWriteWithConcurrency stateVectorMap concurrencyLimit w in
    let (w2, r2) := bulkWriteWithConcurrency updateMap concurrencyLimit w1 in
    match r1, r2 with
    | Ok _, Ok _ => (w2, Ok (clock + 1))
    | Err e, _ => (w2, Err e)
    | Ok _, Err e => (w2, Err e)
    end.

(** [insertUpdates], lines 357-415. *)
Definition insertUpdates (updatesMap : obj bytes) (w : world) : world * result Z :=
    let clock := -1 in
    let (stateVectorMap, updateMap) := ingest_maps clock updatesMap in
    let (w1, r1) :=
      retryMongoOperation emit_world (on_db (db_bulkInsert stateVectorMap)) 3 1000 w in
    match r1 with
    | Err e => (w1, Err e)
    | Ok _ =>
        let (w2, r2) :=
          retryMongoOperation emit_world (on_db (db_bulkInsert updateMap)) 3 1000 w1 in
        match r2 with
        | Err e => (w2, Err e)
        | Ok _ => (w2, Ok (clock + 1))
        end
    end.
End BulkIngestion.

(** ** The persistence class: transaction serializer and public operations *)

(** How a promise settled. *)
Inductive settled (A : Type) : Type :=
  | Fulfilled (v : A)
  | Rejected (e : error).
Arguments Fulfilled {A} v.
Arguments Rejected {A} e.

Module MongodbPersistence.

(** The instance: its store, the console, and [this.tr], which maps a
      document name to the tail of its chain.  A promise of the chain is
      represented by how it settles (its value is never read: line 45 only
      awaits it), the operations of one chain running in submission order. *)
Record t : Type := mk {
    db : DB;
    console : list event;
    tr : obj (settled unit)
  }.

(** [_transact], lines 37-56.  The result is the new instance state and the
      settlement of the promise handed to the caller; [null] is [None]. *)
Definition _transact {A} (docName : string) (f : DB -> DB * result A) (this : t)
    : t * settled (option A) :=
    let tr1 :=
      match obj_get docName (tr this) with
      | None => obj_set docName (Fulfilled tt) (tr this)
      | Some _ => tr this
      end in
    match obj_get docName tr1 with
    | Some (Rejected e) =>
        (* [await currTr] throws outside the try block *)
        ({| db := db this; console := console this;
            tr := obj_set docName (Rejected e) tr1 |}, Rejected e)
    | _ =>
        let (db', r) := f (db this) in
        match r with
        | Ok res =>
            ({| db := db'; console := console this;
                tr := obj_set docName (Fulfilled tt) tr1 |}, Fulfilled (Some res))
        | Err err =>
            ({| db := db'; console := console this ++ [ConsoleWarn err];
                tr := obj_set docName (Fulfilled tt) tr1 |}, Fulfilled None)
        end
    end.

Section Operations.
Context {Y : Engine}.

    (** [storeUpdate], lines 88-90. *)
Definition storeUpdate (docName : string) (update : bytes) : t -> t * settled (option Z) :=
      _transact docName
        (fun db => let (db', clock) := storeUpdate docName update db in (db', Ok clock)).

    (** The merge-and-flush of lines 111-113 and 226-228; returns the state
        vector it computed. *)
Definition merge_and_flush (docName : string) (db : DB) : DB * result bytes :=
      match getMongoUpdates docName db with
      | Err e => (db, Err e)
      | Ok updates =>
          let (update, sv) := mergeUpdates updates in
          let (db', _) := flushDocument docName update sv db in
          (db', Ok sv)
      end.

    (** The transaction body of [getStateVector], lines 101-116. *)
Definition getStateVector_body (docName : string) (db : DB) : DB * result bytes :=
      match readStateVector docName db with
      | Err e => (db, Err e)
      | Ok (sv, clock) =>
          let curClock :=
            match sv with
            | Some _ => getCurrentUpdateClock docName db
            | None => -1
            end in
          match sv with
          | Some cached =>
              if clock =? curClock then (db, Ok cached)
              else merge_and_flush docName db
          | None => merge_and_flush docName db
          end
      end.

    (** [getStateVector], lines 100-117. *)
Definition getStateVector (docName : string) : t -> t * settled (option bytes) :=
      _transact docName (getStateVector_body docName).

    (** [flushDocument], lines 224-230 (the body returns nothing). *)
Definition flushDocument (docName : string) : t -> t * settled (option unit) :=
      _transact docName
        (fun db =>
           match merge_and_flush docName db with
           | (db', Ok _) => (db', Ok tt)
           | (db', Err e) => (db', Err e)
           end).
End Operations.

End MongodbPersistence.

(** ** Views used by the statements *)

(** The record a put creates in an empty collection: what [update_puts]
    leaves in the store for a fresh clock. *)
Definition update_records (docName : string) (clock : Z) (update : bytes) : list mongoDoc :=
  map (fun p => doc_of_query (fst p) (snd p)) (update_puts docName clock update).

(** The record that the put of part [i + 1] of a split update creates. *)
Definition part_record (name : string) (c : Z) (m : Z) (u : bytes) (i : Z) : mongoDoc :=
  doc_of_query (with_part (createDocumentUpdateKey name (Some c)) (i + 1)) (chunk_at m u i).

(** An update record of a document: version ['v1'], action ['update']. *)
Definition is_update_of (name : string) (d : mongoDoc) : bool :=
  matches (createDocumentUpdateKey name None) d.

(** The update records of a document, in collection order. *)
Definition updates_of (name : string) (db : DB) : list mongoDoc :=
  filter (is_update_of name) db.

(** A small engine for concrete runs: a document is the concatenation of the
    updates applied to it, its update encoding is that byte string, and its
    state vector is the one byte that counts them modulo 256. *)
Definition countEngine : Engine :=
  {| ydoc := bytes;
     Y_Doc := [];
     Y_applyUpdate := fun d u => d ++ u;
     Y_encodeStateAsUpdate := fun d => d;
     Y_encodeStateVector := fun d => [byte_of_Z (byteLength d)] |}.

(** A payload one byte larger than the maximum record size. *)
Definition oversized_update : bytes :=
  repeat x00 (Z.to_nat (MAX_DOCUMENT_SIZE + 1)).

(** Update records as [convertMongoUpdates] receives them. *)
Definition update_doc (name : string) (c : Z) (p : option Z) (v : bytes) : mongoDoc :=
  UpdateDoc name c p v.

(** The records of parts numbered [start], [start + 1], ... of one clock. *)
Fixpoint numbered_parts (name : string) (c : Z) (start : Z) (vs : list bytes)
  : list mongoDoc :=
  match vs with
  | [] => []
  | v :: vs' => update_doc name c (Some start) v :: numbered_parts name c (start + 1) vs'
  end.

(** ** Runs of the retry wrapper *)

Section RetryRuns.
Context {St A : Type}.
Variable emit : event -> St -> St.
Variable task : St -> St * result A.
Variable delay : Z.

(** [retrying k s s']: started in [s], the task was attempted [k] times, every
    attempt failed with a retryable error, and each failure was followed by a
    console warning and one wait of [delay] ms; [s'] is the state in which
    the next attempt starts. *)
Inductive retrying : nat -> St -> St -> Prop :=
  | retrying_none (s : St) : retrying O s s
  | retrying_again (k : nat) (s sk s1 : St) (e : error) :
      retrying k s sk ->
      task sk = (s1, Err e) ->
      retryable e = true ->
      retrying (S k) s (emit (Delay delay) (emit (ConsoleWarn e) s1)).
End RetryRuns.

(** A task that plays a script: each call consumes the next outcome; the
    state also keeps the events recorded. *)
Definition script (A : Type) : Type := (list (result A) * list event)%type.

Definition scripted_task {A} (s : script A) : script A * result A :=
  match fst s with
  | [] => (s, Err (OtherError "script exhausted"))
  | o :: rest => ((rest, snd s), o)
  end.

Definition emit_script {A} (e : event) (s : script A) : script A :=
  (fst s, snd s ++ [e]).

(** ** Concrete instances for runs of the serializer *)

(** A fresh instance: empty store, silent console, [this.tr = {}]. *)
Definition fresh : MongodbPersistence.t :=
  {| MongodbPersistence.db := [];
     MongodbPersistence.console := [];
     MongodbPersistence.tr := [] |}.

(** An operation whose body throws. *)
Definition failing_operation (db : DB) : DB * result Z :=
  (db, Err (OtherError "boom")).

(** No chain of the instance has a rejected tail. *)
Definition chains_settled_well (this : MongodbPersistence.t) : Prop :=
  forall name e, obj_get name (MongodbPersistence.tr this) <> Some (Rejected e).

(** ** The Update Log, as the specification words it *)

(** The valid clock range of [getCurrentUpdateClock]'s query. *)
Definition valid_clock (c : Z) : bool := (0 <=? c) && (c <? BITS32).

(** The valid clocks among the update records of a document. *)
Definition valid_clocks (name : string) (db : DB) : list Z :=
  flat_map
    (fun d =>
       match d with
       | UpdateDoc n c _ _ => if String.eqb n name && valid_clock c then [c] else []
       | _ => []
       end)
    db.

(** Spec, section 4.1, [currentClock(docName)]: "the maximum clock among stored
    update records for the document, restricted to the valid clock range, or
    -1 if none exist". *)
Definition currentClock (name : string) (db : DB) : Z :=
  fold_right Z.max (-1) (valid_clocks name db).

(** Every update record of the document has its clock in the valid range. *)
Definition log_clocks_valid (name : string) (db : DB) : Prop :=
  forall n c p v, In (UpdateDoc n c p v) db -> n = name -> valid_clock c = true.

(** The state-vector record of a document, as a point lookup finds it. *)
Definition state_vector_record (name : string) (db : DB) : option bytes :=
  option_map value (db_findOne (createDocumentStateVectorKey name) false db).

(** The records of the collection that do not belong to a document. *)
Definition records_of_others (name : string) (db : DB) : list mongoDoc :=
  filter (fun d => negb (String.eqb (docName d) name)) db.

(** The clock of the last record of a list (-1 for none). *)
Definition lastclock (l : list mongoDoc) : Z :=
  match last (map Some l) None with
  | None => -1
  | Some d => match clock d with Some c => c | None => -1 end
  end.

(** The clock of a record as a number (-1 for a record without clock). *)
Definition clockZ (d : mongoDoc) : Z :=
  match clock d with Some c => c | None => -1 end.

(** Whether a record is an update record (of any document). *)
Definition is_update (d : mongoDoc) : bool :=
  match d with
  | UpdateDoc _ _ _ _ => true
  | _ => false
  end.

Section Sequences.
Context {Y : Engine}.

(** Successive [storeUpdate] calls on one document; returns the clocks in the
    order of the calls. *)
Fixpoint append_all (name : string) (updates : list bytes) (db : DB) : DB * list Z :=
  match updates with
  | [] => (db, [])
  | u :: rest =>
      let (db1, c) := storeUpdate name u db in
      let (db2, cs) := append_all name rest db1 in
      (db2, c :: cs)
  end.
End Sequences.

(** A log whose only record sits at the last valid clock, BITS32 - 1. *)
Definition log_at_last_valid_clock : DB :=
  [UpdateDoc "doc1" 4294967294 None [x01]].

(** 4294967295 one-byte updates, to be appended one after the other. *)
Definition many_small_updates : list bytes :=
  repeat [x01] (Z.to_nat BITS32).

(** A log whose only record sits beyond the valid clock range. *)
Definition log_beyond_valid_clocks : DB :=
  [UpdateDoc "doc1" 4294967295 None [x01]].

(** A record that [clearUpdatesRange name from to] deletes. *)
Definition in_cleared_range (name : string) (from to : Z) (d : mongoDoc) : Prop :=
  exists c p v, d = UpdateDoc name c p v /\ from <= c < to.

(** The store of the specification's scenario: the state-vector record written
    with the first update, and the updates A, B, C of "doc1" at the clocks
    0, 1, 2. *)
Definition log_ABC : DB :=
  [StateVectorDoc "doc1" (encodeStateVector 0 [x01]);
   UpdateDoc "doc1" 0 None [x0a]; UpdateDoc "doc1" 1 None [x0b];
   UpdateDoc "doc1" 2 None [x0c]].

(** The cached state vector of a document is current: a state-vector record
    exists, and the clock stored in it is the current clock of the log. *)
Definition cache_is_current (name : string) (db : DB) : Prop :=
  exists cached sv,
    state_vector_record name db = Some cached
    /\ decodeMongodbStateVector cached = Ok (sv, currentClock name db).

(** The engine contract used for compaction: a document rebuilt from its own
    full-state update has the same state vector. *)
Definition state_update_faithful (Y : Engine) : Prop :=
  forall d : ydoc,
    Y_encodeStateVector (Y_applyUpdate Y_Doc (Y_encodeStateAsUpdate d))
    = Y_encodeStateVector d.

(** The store after the flush of the scenario: the cache is current. *)
Definition log_flushed : DB :=
  [StateVectorDoc "doc1" (encodeStateVector 3 [x03]);
   UpdateDoc "doc1" 3 None [x0a; x0b; x0c]].

(** ** Bulk ingestion, as the statements see it *)

(** The entries that the callback of [storeUpdates] / [insertUpdates] adds to
    [updateMap] for one document, when their identifiers are new. *)
Definition update_entries (clock : Z) (docName : string) (update : bytes)
  : obj (query * bytes) :=
  if byteLength update <=? MAX_DOCUMENT_SIZE then
    [(docName, (createDocumentUpdateKey docName (Some (clock + 1)), update))]
  else
    map (fun i =>
           (part_key docName i,
            (with_part (createDocumentUpdateKey docName (Some (clock + 1))) (i + 1),
             chunk_at MAX_DOCUMENT_SIZE update i)))
        (indices (totalChunks MAX_DOCUMENT_SIZE update)).

(** The record identifiers (keys of [updateMap]) a call derives from its
    input. *)
Definition record_identifiers (updatesMap : obj bytes) : list string :=
  flat_map (fun e => map fst (update_entries (-1) (fst e) (snd e))) updatesMap.

(** Two locators that no record matches at once. *)
Definition disjoint_queries (q q' : query) : Prop :=
  forall d, matches q d = true -> matches q' d = false.

(** The world before anything happened. *)
Definition empty_world : world := {| w_db := []; w_log := [] |}.

(** An input map in which the document "a" has an oversized update and
    another document is named like the identifier of its first part.  Both
    payloads start with two zero bytes: the engine reads such bytes as an
    update without structs and without deletions, so the callback of the
    bulk operations runs through for them. *)
Definition colliding_updatesMap : obj bytes :=
  [("a"%string, oversized_update); ("a-part1"%string, [x00; x00])].

(** The entry that the callback adds to [stateVectorMap] for one document. *)
Definition state_vector_entry {Y : Engine} (clock : Z) (e : string * bytes)
  : string * (query * bytes) :=
  (fst e, (createDocumentStateVectorKey (fst e),
           encodeStateVector clock (initialStateVector (snd e)))).

(** The record a bulk insert creates for an entry. *)
Definition doc_of_entry (e : string * (query * bytes)) : mongoDoc :=
  doc_of_query (fst (snd e)) (snd (snd e)).

(** The entries a document contributes to the two maps. *)
Definition entries_of {Y : Engine} (e : string * bytes) : obj (query * bytes) :=
  state_vector_entry (-1) e :: update_entries (-1) (fst e) (snd e).

(** * The remaining operations

    What the sources hold besides the code above: the scan of the
    state-vector records (utils.js) and the operations of the persistence
    class that load a document and list the documents.  (The meta operations,
    [clearDocument], [flushDB] and [getDiff] call adapter or engine entry
    points that neither the sources nor the interface description fix; they
    are left out.) *)

(** [getAllSVDocs], line 469: [db.find({ version: 'v1_sv' })]. *)
Definition getAllSVDocs (db : DB) : list mongoDoc :=
  db_find {| q_version := Some "v1_sv"%string; q_action := None; q_docName := None;
             q_clock := None; q_part := None |} db.

(** Mapping a fallible function over a list: the first failure is the
    outcome ([Array.prototype.map] with a callback that throws). *)
Fixpoint map_result {A B} (f : A -> result B) (l : list A) : result (list B) :=
  match l with
  | [] => Ok []
  | x :: l' => do y <- f x; do ys <- map_result f l'; Ok (y :: ys)
  end.

Module Persistence.

(** The options the constructor keeps, lines 19-20. *)
Record options : Type := mkOptions {
  flushSize : Z;
  multipleCollections : bool
}.

(** [options?.flushSize ?? U.PREFERRED_TRIM_SIZE] and
    [!!options?.multipleCollections] for a missing options object. *)
Definition default_options : options :=
  {| flushSize := PREFERRED_TRIM_SIZE; multipleCollections := false |}.

Section Loading.
Context {Y : Engine}.

(** The transaction body of [getYDoc], lines 66-78. *)
Definition getYDoc_body (opts : options) (docName : string) (db : DB)
  : DB * result ydoc :=
  match getMongoUpdates docName db with
  | Err e => (db, Err e)
  | Ok updates =>
      let ydoc := fold_left Y_applyUpdate updates Y_Doc in
      let db' :=
        if flushSize opts <? Z.of_nat (List.length updates) then
          fst (flushDocument docName (Y_encodeStateAsUpdate ydoc)
                 (Y_encodeStateVector ydoc) db)
        else db in
      (db', Ok ydoc)
  end.

(** [getYDoc], lines 65-79. *)
Definition getYDoc (opts : options) (docName : string)
  : MongodbPersistence.t -> MongodbPersistence.t * settled (option ydoc) :=
  MongodbPersistence._transact docName (getYDoc_body opts docName).

End Loading.

(** The transaction body of [getAllDocNames], lines 188-198;
    [collectionNames] is what the adapter's [getCollectionNames()] answers. *)
Definition getAllDocNames_body (opts : options) (collectionNames : list string)
    (db : DB) : DB * result (list string) :=
  if multipleCollections opts then (db, Ok collectionNames)
  else (db, Ok (map docName (getAllSVDocs db))).

(** [getAllDocNames], lines 187-199. *)
Definition getAllDocNames (opts : options) (collectionNames : list string)
  : MongodbPersistence.t -> MongodbPersistence.t * settled (option (list string)) :=
  MongodbPersistence._transact "global" (getAllDocNames_body opts collectionNames).

(** The transaction body of [getAllDocStateVectors], lines 208-214: one
    [{ name, sv, clock }] per state-vector record. *)
Definition getAllDocStateVectors_body (db : DB)
  : DB * result (list (string * bytes * Z)) :=
  (db, map_result
         (fun doc =>
            do (sv, clock) <- decodeMongodbStateVector (value doc);
            Ok (docName doc, sv, clock))
         (getAllSVDocs db)).

(** [getAllDocStateVectors], lines 207-215. *)
Definition getAllDocStateVectors
  : MongodbPersistence.t
    -> MongodbPersistence.t * settled (option (list (string * bytes * Z))) :=
  MongodbPersistence._transact "global" getAllDocStateVectors_body.

End Persistence.

(** ** Views used in the statements about reading a log *)

(** The records [R] that follow start at a clock other than [c0]. *)
Definition starts_elsewhere (c0 : option Z) (R : list mongoDoc) : Prop :=
  match R with
  | [] => True
  | r :: _ => opt_eqb (clock r) c0 = false
  end.

(** The record [d] sorts before the first record of [R] in the adapter's
    [(clock, part)] order. *)
Definition sorts_before (d : mongoDoc) (R : list mongoDoc) : Prop :=
  match R with
  | [] => True
  | r :: _ => doc_leb d r = true
  end.

(** ** Views used in the statements about the serializer *)

(** Operations submitted one after the other under one document name: they
    form one chain, each body starting when the one before it has settled,
    so they run in the order of submission.  (Chains of different names are
    not ordered with respect to each other; runs that mix names are not
    described here.)  Returns the promises in the order of submission. *)
Fixpoint submit_all {A} (name : string) (ops : list (DB -> DB * result A))
    (this : MongodbPersistence.t) : MongodbPersistence.t * list (settled (option A)) :=
  match ops with
  | [] => (this, [])
  | f :: rest =>
      let (this1, p) := MongodbPersistence._transact name f this in
      let (this2, ps) := submit_all name rest this1 in
      (this2, p :: ps)
  end.

(** The console lines that the failing ones among the bodies [ops], run one
    after the other from the store [db], leave behind. *)
Fixpoint warnings_of {A} (ops : list (DB -> DB * result A)) (db : DB) : list event :=
  match ops with
  | [] => []
  | f :: rest =>
      match f db with
      | (db', Ok _) => warnings_of rest db'
      | (db', Err e) => ConsoleWarn e :: warnings_of rest db'
      end
  end.

(** ** Views used in the statements about bulk inserts *)

Section InsertedRecords.
Context {Y : Engine}.

(** The records a bulk insert adds for its input: the state-vector records of
    the documents, then their update records, in the order of the input. *)
Definition inserted_records (updatesMap : obj bytes) : list mongoDoc :=
  map (fun e => StateVectorDoc (fst e)
                  (encodeStateVector (-1) (initialStateVector (snd e)))) updatesMap
  ++ flat_map (fun e => update_records (fst e) 0 (snd e)) updatesMap.

End InsertedRecords.

(** ** Views used in the frame statements *)

(** A record that the log operations on [name] have no business with: a
    record of another document, or a meta record. *)
Definition foreign (name : string) (d : mongoDoc) : bool :=
  match d with
  | UpdateDoc n _ _ _ => negb (String.eqb n name)
  | StateVectorDoc n _ => negb (String.eqb n name)
  | MetaDoc _ _ _ => true
  end.

(** The document names that the scan of the state-vector records gives. *)
Definition listed_names (db : DB) : list string :=
  map docName (getAllSVDocs db).

(** ** Views used in the statements about failed reads *)

(** A transaction that failed with [e] on the instance [this]: the caller
    gets null, the store is as before, and the console got one warning. *)
Definition failed_quietly {A} (e : error) (this : MongodbPersistence.t)
    (r : MongodbPersistence.t * settled (option A)) : Prop :=
  snd r = Fulfilled None
  /\ MongodbPersistence.db (fst r) = MongodbPersistence.db this
  /\ MongodbPersistence.console (fst r)
     = MongodbPersistence.console this ++ [ConsoleWarn e].

(** A log whose second record is part 3 of an update that has no part 2. *)
Definition log_with_gap : DB :=
  [UpdateDoc "doc1" 0 (Some 1) [x01]; UpdateDoc "doc1" 0 (Some 3) [x03]].

(** ** Views used in the statements about storing and loading *)

Section StoreAll.
Context {Y : Engine}.

(** The instance after [storeUpdate] was called for each update in turn. *)
Definition store_all (name : string) (updates : list bytes)
    (this : MongodbPersistence.t) : MongodbPersistence.t :=
  fold_left (fun t u => fst (MongodbPersistence.storeUpdate name u t)) updates this.

End StoreAll.


(** ** The decoder over an array cut from a longer buffer

    lib0 builds the result of [readUint8Array] as a view on the buffer behind
    the decoder's array,
<<
  new Uint8Array(decoder.arr.buffer, decoder.pos + decoder.arr.byteOffset, len)
>>
    and then advances [pos] by [len].  When the array is itself a view of a
    longer buffer (a Buffer cut from the pool of the runtime, or one handed
    over by the driver), a read of more bytes than the array has left fails
    only when the buffer is too short as well; otherwise it returns bytes
    that lie behind the array.  [beyond] are the bytes of the buffer after
    the end of the array.  [readVarUint] stops at the end of the array
    ([decoder.arr.length]) in either case. *)
Definition readUint8Array_in (beyond dec : bytes) (len : Z) : result (bytes * bytes) :=
  if Z.of_nat (List.length dec + List.length beyond) <? len
  then Err (OtherError "RangeError")
  else Ok (firstn (Z.to_nat len) (dec ++ beyond), skipn (Z.to_nat len) dec).

Definition readVarUint8Array_in (beyond dec : bytes) : result (bytes * bytes) :=
  do (len, dec') <- readVarUint dec;
  readUint8Array_in beyond dec' len.

(** [decodeMongodbStateVector], lines 438-450, on a value whose buffer
    continues with [beyond]. *)
Definition decodeMongodbStateVector_in (beyond buf : bytes) : result (bytes * Z) :=
  do (clock, dec) <- readVarUint buf;
  do (sv, _) <- readVarUint8Array_in beyond dec;
  Ok (sv, clock).

(** ** Views used in the statements about the freshness of the cache *)

Section CacheSoundness.
Context {Y : Engine}.

(** The state-vector record of a document is sound: when it can be read, its
    clock is not ahead of the log, and when its clock is the current clock of
    the log, its vector is the state vector of the document that the whole
    log builds. *)
Definition cache_sound (name : string) (db : DB) : Prop :=
  forall sv stamp,
    readStateVector name db = Ok (Some sv, stamp) ->
    stamp <= currentClock name db
    /\ (stamp = currentClock name db ->
        exists updates,
          getMongoUpdates name db = Ok updates
          /\ sv = snd (mergeUpdates updates)).

(** A document brought in by [insertUpdates] into an empty store, followed by
    one call of [storeUpdate] for each of the updates [rest]. *)
Definition imported_then_appended (name : string) (first : bytes) (rest : list bytes)
    : DB :=
  fst (append_all name rest
         (w_db (fst (insertUpdates [(name, first)] empty_world)))).

End CacheSoundness.

(** A store in which the state-vector record of "doc1" holds one byte with
    the continuation flag set, which is no complete var-uint. *)
Definition log_with_damaged_cache : DB :=
  [StateVectorDoc "doc1" [x80]; UpdateDoc "doc1" 0 None [x00; x00]].

(** 127 updates without structs and without deletions. *)
Definition empty_updates_127 : list bytes := repeat [x00; x00] 127.
(** * Verification *)

(** ** Codec lemmas *)

Lemma byte_val_of_Z (z : Z) : 0 <= z < 256 -> byte_val (byte_of_Z z) = z.
Proof.
  intros Hz. unfold byte_val, byte_of_Z.
  rewrite Z.mod_small by exact Hz.
  destruct (Byte.of_N (Z.to_N z)) as [b|] eqn:E.
  - apply Byte.to_of_N in E. rewrite E. lia.
  - apply Byte.of_N_None_iff in E. lia.
Qed.

Lemma land_BITS7 (n : Z) : Z.land BITS7 n = n mod 128.
Proof.
  unfold BITS7. rewrite Z.land_comm.
  change 127 with (Z.ones 7). rewrite Z.land_ones by lia. reflexivity.
Qed.

Lemma lor_BIT8 (a : Z) : 0 <= a < 128 -> Z.lor BIT8 a = 128 + a.
Proof.
  intros Ha. unfold BIT8.
  change 128 with (1 * 2 ^ 7) at 1. rewrite Z.lor_comm.
  assert (H : Z.lor a (1 * 2 ^ 7) = a + 1 * 2 ^ 7); [| rewrite H; lia ].
  rewrite <- Z.shiftl_mul_pow2 by lia.
  rewrite <- Z.lxor_lor.
  - rewrite <- Z.add_nocarry_lxor; [ reflexivity |].
    apply Z.bits_inj'. intros k Hk. rewrite Z.land_spec, Z.bits_0.
    destruct (Z.ltb_spec k 7).
    + rewrite Z.shiftl_spec_low by lia. apply andb_false_r.
    + assert (Z.testbit a k = false) as ->; [| reflexivity ].
      destruct (Z.eq_dec a 0) as [->|]; [ apply Z.bits_0 |].
      apply Z.bits_above_log2; [ lia |].
      assert (Z.log2 a < 7) by (apply Z.log2_lt_pow2; lia). lia.
  - apply Z.bits_inj'. intros k Hk. rewrite Z.land_spec, Z.bits_0.
    destruct (Z.ltb_spec k 7).
    + rewrite Z.shiftl_spec_low by lia. apply andb_false_r.
    + assert (Z.testbit a k = false) as ->; [| reflexivity ].
      destruct (Z.eq_dec a 0) as [->|]; [ apply Z.bits_0 |].
      apply Z.bits_above_log2; [ lia |].
      assert (Z.log2 a < 7) by (apply Z.log2_lt_pow2; lia). lia.
Qed.

Lemma writeVarUint_small (n : Z) :
  n <= BITS7 -> writeVarUint n = [byte_of_Z (Z.land BITS7 n)].
Proof.
  intros Hn. simp writeVarUint.
  destruct (Z_lt_dec BITS7 n); [ lia | reflexivity ].
Qed.

Lemma writeVarUint_big (n : Z) :
  BITS7 < n ->
  writeVarUint n =
    byte_of_Z (Z.lor BIT8 (Z.land BITS7 n)) :: writeVarUint (n / 128).
Proof.
  intros Hn. rewrite writeVarUint_equation_1.
  destruct (Z_lt_dec BITS7 n); [ reflexivity | lia ].
Qed.

(** Reading back what [writeVarUint] wrote, from any accumulator state of the
    reading loop that stays within the safe integers. *)
Lemma readVarUint_loop_writeVarUint (n : Z) :
  0 <= n ->
  forall num mult rest,
    0 <= num -> 0 < mult -> num + n * mult <= MAX_SAFE_INTEGER ->
    readVarUint_loop num mult (writeVarUint n ++ rest) = Ok (num + n * mult, rest).
Proof.
  induction n as [n IH] using (well_founded_induction (Z.lt_wf 0)).
  intros Hn num mult rest Hnum Hmult Hsafe.
  pose proof (Z.mod_pos_bound n 128 ltac:(lia)) as Hmod.
  destruct (Z_lt_dec BITS7 n) as [Hbig|Hsmall].
  - rewrite writeVarUint_big by exact Hbig. cbn [app readVarUint_loop].
    rewrite land_BITS7, lor_BIT8 by exact Hmod.
    rewrite byte_val_of_Z by lia.
    assert (Z.land (128 + n mod 128) BITS7 = n mod 128) as ->.
    { rewrite Z.land_comm, land_BITS7.
      rewrite <- Z.add_mod_idemp_l, Z.mod_same, Z.add_0_l, Z.mod_mod by lia.
      reflexivity. }
    unfold BIT8 at 1.
    destruct (Z.ltb_spec (128 + n mod 128) 128); [ lia |].
    pose proof (Z.div_mod n 128 ltac:(lia)) as Hdm.
    unfold BITS7 in Hbig.
    assert (0 < n / 128) by (apply Z.div_str_pos; lia).
    assert (n / 128 < n) by (apply Z.div_lt; lia).
    destruct (Z.ltb_spec MAX_SAFE_INTEGER (num + n mod 128 * mult)); [ nia |].
    rewrite IH; [ f_equal; f_equal; nia | lia | lia | nia | lia | nia ].
  - rewrite writeVarUint_small by lia. cbn [app readVarUint_loop].
    rewrite land_BITS7. unfold BITS7 in Hsmall.
    rewrite (Z.mod_small n 128) by lia.
    rewrite byte_val_of_Z by lia.
    rewrite Z.land_comm, land_BITS7, (Z.mod_small n 128) by lia.
    unfold BIT8. destruct (Z.ltb_spec n 128); [ reflexivity | lia ].
Qed.

Lemma readVarUint_writeVarUint (n : Z) (rest : bytes) :
  0 <= n <= MAX_SAFE_INTEGER ->
  readVarUint (writeVarUint n ++ rest) = Ok (n, rest).
Proof.
  intros [Hlo Hhi]. unfold readVarUint.
  rewrite readVarUint_loop_writeVarUint by lia.
  f_equal. f_equal. lia.
Qed.

Lemma readVarUint8Array_writeVarUint8Array (arr rest : bytes) :
  byteLength arr <= MAX_SAFE_INTEGER ->
  readVarUint8Array (writeVarUint8Array arr ++ rest) = Ok (arr, rest).
Proof.
  intros Hlen. unfold readVarUint8Array, writeVarUint8Array, writeUint8Array.
  rewrite <- app_assoc.
  rewrite readVarUint_writeVarUint by (unfold byteLength in *; lia).
  cbn [bind]. unfold readUint8Array, byteLength.
  rewrite length_app.
  destruct (Z.ltb_spec (Z.of_nat (List.length arr + List.length rest))
              (Z.of_nat (List.length arr))); [ lia |].
  rewrite Nat2Z.id, firstn_app, skipn_app, Nat.sub_diag.
  rewrite firstn_all, skipn_all. cbn. rewrite app_nil_r. reflexivity.
Qed.

(** ** Chunk Codec: splitting *)

Lemma firstn_skipn_add {A} (a b : nat) (u : list A) :
  firstn a u ++ firstn b (skipn a u) = firstn (a + b) u.
Proof.
  revert u. induction a as [|a IH]; intros u; [ reflexivity |].
  destruct u as [|x u]; cbn.
  - now rewrite firstn_nil.
  - now rewrite IH.
Qed.

Lemma indices_seq (k : nat) : indices (Z.of_nat k) = map Z.of_nat (seq 0 k).
Proof. unfold indices. now rewrite Nat2Z.id. Qed.

Lemma chunks_prefix (m : Z) (u : bytes) (k : nat) :
  0 < m ->
  List.concat (map (chunk_at m u) (map Z.of_nat (seq 0 k))) =
  firstn (k * Z.to_nat m) u.
Proof.
  intros Hm. induction k as [|k IH]; [ reflexivity |].
  rewrite seq_S, !map_app, concat_app, IH. cbn [map List.concat Nat.add].
  rewrite app_nil_r. unfold chunk_at, subarray, byteLength.
  replace (Z.to_nat (Z.of_nat k * m)) with (k * Z.to_nat m)%nat by nia.
  destruct (Nat.le_gt_cases (List.length u) (k * Z.to_nat m)) as [Hge|Hlt].
  - rewrite skipn_all2 by exact Hge. rewrite firstn_nil, app_nil_r.
    rewrite !firstn_all2 by nia. reflexivity.
  - rewrite firstn_skipn_add.
    destruct (Z.le_gt_cases (Z.of_nat k * m + m) (Z.of_nat (List.length u))) as [Hfit|Hcut].
    + rewrite Z.min_l by exact Hfit. f_equal. nia.
    + rewrite Z.min_r by lia.
      rewrite !firstn_all2 by nia. reflexivity.
Qed.

(** Concatenating the chunks cut by the splitting loop gives the update back. *)
Lemma concat_chunks (m : Z) (u : bytes) :
  0 < m ->
  List.concat (map (chunk_at m u) (indices (totalChunks m u))) = u.
Proof.
  intros Hm. unfold indices. rewrite chunks_prefix by exact Hm.
  apply firstn_all2. unfold totalChunks, byteLength.
  set (len := Z.of_nat (List.length u)).
  assert (Hlen : 0 <= len) by (subst len; lia).
  assert (Hdiv : len <= (len + m - 1) / m * m).
  { pose proof (Z.div_mod (len + m - 1) m ltac:(lia)) as Hdm.
    pose proof (Z.mod_pos_bound (len + m - 1) m Hm). nia. }
  assert (0 <= (len + m - 1) / m) by (apply Z.div_pos; lia).
  subst len. nia.
Qed.

Lemma chunk_at_length (m : Z) (u : bytes) (i : Z) :
  0 < m -> 0 <= i -> byteLength (chunk_at m u i) <= m.
Proof.
  intros Hm Hi. unfold chunk_at, subarray, byteLength.
  rewrite length_firstn. lia.
Qed.

Lemma totalChunks_ge_2 (m : Z) (u : bytes) :
  0 < m -> m < byteLength u -> 2 <= totalChunks m u.
Proof.
  intros Hm Hbig. unfold totalChunks.
  replace (byteLength u + m - 1) with ((byteLength u - m - 1) + 2 * m) by lia.
  rewrite Z.div_add by lia.
  assert (0 <= (byteLength u - m - 1) / m) by (apply Z.div_pos; lia). lia.
Qed.

(** ** Chunk Codec: merging *)

Lemma convert_loop_skip (l rest : list mongoDoc) :
  convert_loop (List.length l) (l ++ rest) = convert_loop O rest.
Proof. induction l as [|d l IH]; [ reflexivity | exact IH ]. Qed.

Lemma convert_loop_skip_all (l : list mongoDoc) (n : nat) :
  n = List.length l -> convert_loop n l = Ok [].
Proof.
  intros ->. rewrite <- (app_nil_r l) at 2. apply convert_loop_skip.
Qed.

Lemma part_record_eq (name : string) (c m : Z) (u : bytes) (i : Z) :
  part_record name c m u i = UpdateDoc name c (Some (i + 1)) (chunk_at m u i).
Proof. reflexivity. Qed.

Lemma absorb_parts_contiguous (name : string) (c m : Z) (u : bytes) (k a : nat) :
  absorb_parts (Some c) (Z.of_nat (S a))
    (map (part_record name c m u) (map Z.of_nat (seq (S a) k)))
  = Ok (map (chunk_at m u) (map Z.of_nat (seq (S a) k))).
Proof.
  revert a. induction k as [|k IH]; intros a; [ reflexivity |].
  cbn [seq map]. rewrite part_record_eq.
  cbn [absorb_parts part clock value part_truthy opt_eqb].
  rewrite Z.eqb_refl.
  destruct (Z.eqb_spec (Z.of_nat (S a) + 1) 0) as [E|_]; [ lia |].
  cbn [negb andb].
  destruct (Z.eqb_spec (Z.of_nat (S a)) (Z.of_nat (S a) + 1 - 1)) as [_|N]; [| lia ].
  cbn [negb].
  replace (Z.of_nat (S a) + 1) with (Z.of_nat (S (S a))) by lia.
  rewrite IH. reflexivity.
Qed.

(** Merging the records of the parts [1 .. k] of one update gives the
    concatenation of the chunks, as one logical update. *)
Lemma convert_part_records (name : string) (c m : Z) (u : bytes) (k : nat) :
  convertMongoUpdates (map (part_record name c m u) (map Z.of_nat (seq 0 (S k))))
  = Ok [List.concat (map (chunk_at m u) (map Z.of_nat (seq 0 (S k))))].
Proof.
  unfold convertMongoUpdates.
  cbn [seq map]. rewrite part_record_eq.
  cbn [convert_loop part clock value part_truthy opt_eqb Z.of_nat Z.add Z.eqb negb
       Pos.eqb].
  pose proof (absorb_parts_contiguous name c m u k 0) as Habs.
  change (Z.of_nat 1) with 1 in Habs. rewrite Habs. cbn [bind].
  rewrite convert_loop_skip_all by (now rewrite !length_map).
  reflexivity.
Qed.

Lemma MAX_DOCUMENT_SIZE_pos : 0 < MAX_DOCUMENT_SIZE.
Proof. reflexivity. Qed.

Lemma update_records_small (name : string) (c : Z) (u : bytes) :
  byteLength u <= MAX_DOCUMENT_SIZE ->
  update_records name c u =
  [doc_of_query (createDocumentUpdateKey name (Some c)) u].
Proof.
  intros H. unfold update_records, update_puts.
  destruct (Z.leb_spec (byteLength u) MAX_DOCUMENT_SIZE); [ reflexivity | lia ].
Qed.

Lemma update_records_big (name : string) (c : Z) (u : bytes) :
  MAX_DOCUMENT_SIZE < byteLength u ->
  update_records name c u =
  map (part_record name c MAX_DOCUMENT_SIZE u) (indices (totalChunks MAX_DOCUMENT_SIZE u)).
Proof.
  intros H. unfold update_records, update_puts.
  destruct (Z.leb_spec (byteLength u) MAX_DOCUMENT_SIZE); [ lia |].
  rewrite map_map. reflexivity.
Qed.

(** Whatever its size, the records [storeUpdate] writes for an update merge
    back to exactly that update. *)
Lemma convert_update_records (name : string) (c : Z) (u : bytes) :
  convertMongoUpdates (update_records name c u) = Ok [u].
Proof.
  destruct (Z.le_gt_cases (byteLength u) MAX_DOCUMENT_SIZE) as [Hs|Hb].
  - rewrite update_records_small by exact Hs. reflexivity.
  - rewrite update_records_big by lia.
    pose proof (totalChunks_ge_2 _ u MAX_DOCUMENT_SIZE_pos ltac:(lia)) as H2.
    pose proof (concat_chunks _ u MAX_DOCUMENT_SIZE_pos) as Hcat.
    unfold indices in *.
    destruct (Z.to_nat (totalChunks MAX_DOCUMENT_SIZE u)) as [|k] eqn:Ek; [ lia |].
    rewrite convert_part_records, Hcat. reflexivity.
Qed.

Lemma byteLength_oversized_update :
  byteLength oversized_update = MAX_DOCUMENT_SIZE + 1.
Proof.
  unfold byteLength, oversized_update. rewrite repeat_length.
  apply Z2Nat.id. unfold MAX_DOCUMENT_SIZE. lia.
Qed.

(** C5 (chunk round trip): for every payload strictly larger than the maximum
    single-record size of 15000000 bytes, the records written for it carry the
    part numbers 1, 2, ... (at least two of them), each holds at most the
    maximum size, all share the one clock, and merging them in order gives
    back exactly the payload, byte for byte. *)
Theorem chunk_round_trip (name : string) (c : Z) (update : bytes) :
  MAX_DOCUMENT_SIZE < byteLength update ->
  let recs := update_records name c update in
  MAX_DOCUMENT_SIZE = 15000000
  /\ map part recs
     = map (fun i => Some (i + 1)) (indices (totalChunks MAX_DOCUMENT_SIZE update))
  /\ 2 <= Z.of_nat (List.length recs)
  /\ Forall (fun r => byteLength (value r) <= MAX_DOCUMENT_SIZE /\ clock r = Some c) recs
  /\ List.concat (map value recs) = update
  /\ convertMongoUpdates recs = Ok [update].
Proof.
  intros Hbig recs.
  pose proof (totalChunks_ge_2 _ update MAX_DOCUMENT_SIZE_pos Hbig) as H2.
  assert (Hrecs : recs = map (part_record name c MAX_DOCUMENT_SIZE update)
                             (indices (totalChunks MAX_DOCUMENT_SIZE update)))
    by (apply update_records_big; exact Hbig).
  split; [ reflexivity |].
  split; [ rewrite Hrecs, map_map; reflexivity |].
  split.
  { rewrite Hrecs. unfold indices. rewrite !length_map, length_seq. lia. }
  split.
  { rewrite Hrecs. apply Forall_forall. intros r Hr.
    apply in_map_iff in Hr. destruct Hr as (i & <- & Hi).
    unfold indices in Hi. apply in_map_iff in Hi. destruct Hi as (n & <- & _).
    split; [| reflexivity ].
    apply chunk_at_length; [ exact MAX_DOCUMENT_SIZE_pos | lia ]. }
  split.
  { rewrite Hrecs, map_map. apply concat_chunks. exact MAX_DOCUMENT_SIZE_pos. }
  apply convert_update_records.
Qed.

Lemma chunk_round_trip_witness :
  MAX_DOCUMENT_SIZE < byteLength oversized_update
  /\ convertMongoUpdates (update_records "doc1" 0 oversized_update)
     = Ok [oversized_update].
Proof.
  assert (H : MAX_DOCUMENT_SIZE < byteLength oversized_update)
    by (rewrite byteLength_oversized_update; lia).
  split; [ exact H |].
  apply (chunk_round_trip "doc1" 0 oversized_update H).
Defined.

(** ** State Vector Cache codec *)

(** C8 (codec round trip): for every non-negative clock and every summary
    byte array -- the clock and the array length being JavaScript safe
    integers, the range in which a number holds an integer exactly --
    decoding the encoding (the clock as a variable-length unsigned integer,
    then the summary as a length-prefixed byte block) gives back exactly the
    clock and the summary bytes. *)
Theorem state_vector_codec_round_trip (clock : Z) (sv : bytes) :
  0 <= clock <= MAX_SAFE_INTEGER ->
  byteLength sv <= MAX_SAFE_INTEGER ->
  encodeStateVector clock sv = writeVarUint clock ++ writeVarUint8Array sv
  /\ decodeMongodbStateVector (encodeStateVector clock sv) = Ok (sv, clock).
Proof.
  intros Hclock Hlen. split; [ reflexivity |].
  unfold decodeMongodbStateVector, encodeStateVector.
  rewrite readVarUint_writeVarUint by exact Hclock. cbn [bind].
  rewrite <- (app_nil_r (writeVarUint8Array sv)).
  rewrite readVarUint8Array_writeVarUint8Array by exact Hlen.
  reflexivity.
Qed.

Lemma state_vector_codec_round_trip_witness :
  decodeMongodbStateVector (encodeStateVector 300 [x01; x02; x03])
  = Ok ([x01; x02; x03], 300).
Proof.
  apply (state_vector_codec_round_trip 300 [x01; x02; x03]).
  - unfold MAX_SAFE_INTEGER. lia.
  - vm_compute. discriminate.
Defined.

(** The bulk path encodes the clock -1: [writeVarUint] writes the single byte
    127 for it, which reads back as the clock 127. *)
Lemma encodeStateVector_minus_one (sv : bytes) :
  byteLength sv <= MAX_SAFE_INTEGER ->
  encodeStateVector (-1) sv = x7f :: writeVarUint8Array sv
  /\ decodeMongodbStateVector (encodeStateVector (-1) sv) = Ok (sv, 127).
Proof.
  intros Hlen. unfold encodeStateVector.
  rewrite writeVarUint_small by (unfold BITS7; lia).
  change (byte_of_Z (Z.land BITS7 (-1))) with x7f.
  split; [ reflexivity |].
  unfold decodeMongodbStateVector. cbn [app readVarUint readVarUint_loop].
  change (byte_val x7f <? BIT8) with true. cbn [bind].
  rewrite <- (app_nil_r (writeVarUint8Array sv)).
  rewrite readVarUint8Array_writeVarUint8Array by exact Hlen.
  reflexivity.
Qed.

(** ** Chunk Codec: broken part sequences *)

Lemma absorb_parts_gap (name : string) (c start n : Z) (vs : list bytes)
    (v : bytes) (post : list mongoDoc) :
  1 <= start -> n <> 0 -> n <> start + Z.of_nat (List.length vs) ->
  absorb_parts (Some c) (start - 1)
    (numbered_parts name c start vs ++ update_doc name c (Some n) v :: post)
  = Err CorruptChunkSequence.
Proof.
  revert start. induction vs as [|v0 vs IH]; intros start Hstart Hn Hgap.
  - cbn [numbered_parts app absorb_parts update_doc part clock part_truthy opt_eqb].
    rewrite Z.eqb_refl.
    destruct (Z.eqb_spec n 0); [ contradiction |]. cbn [negb andb].
    cbn [List.length Z.of_nat] in Hgap.
    destruct (Z.eqb_spec (start - 1) (n - 1)); [ lia | reflexivity ].
  - cbn [numbered_parts app absorb_parts update_doc part clock part_truthy opt_eqb].
    rewrite Z.eqb_refl.
    destruct (Z.eqb_spec start 0); [ lia |]. cbn [negb andb].
    rewrite Z.eqb_refl. cbn [negb].
    replace start with (start + 1 - 1) at 1 by lia.
    rewrite IH; [ reflexivity | lia | exact Hn |].
    cbn [List.length] in Hgap. lia.
Qed.

(** A multi-part update that begins with its part 1 and whose following
    flagged records of the same clock break the sequence 2, 3, ... (a part is
    missing or repeated) makes the merge fail. *)
Lemma convertMongoUpdates_gap_detected (name : string) (c n : Z) (v1 : bytes)
    (vs : list bytes) (v : bytes) (post : list mongoDoc) :
  n <> 0 -> n <> 2 + Z.of_nat (List.length vs) ->
  convertMongoUpdates
    (update_doc name c (Some 1) v1
       :: numbered_parts name c 2 vs ++ update_doc name c (Some n) v :: post)
  = Err CorruptChunkSequence.
Proof.
  intros Hn Hgap. unfold convertMongoUpdates.
  cbn [convert_loop update_doc part clock part_truthy opt_eqb Z.eqb Pos.eqb negb].
  change 1 with (2 - 1) at 1.
  rewrite absorb_parts_gap by (try lia; assumption). reflexivity.
Qed.

(** C4 (missing first part): the ordered records below are an unflagged
    update at clock 0 followed by the parts 2 and 3 of an update at clock 1,
    whose part 1 is missing.  The flagged records of clock 1 do not form the
    sequence 1, 2, 3, yet the merge does not fail: it returns the update of
    clock 0 alone and drops the two parts without a word. *)
Theorem convertMongoUpdates_missing_first_part :
  convertMongoUpdates
    [ update_doc "doc1" 0 None [x0a];
      update_doc "doc1" 1 (Some 2) [x0b];
      update_doc "doc1" 1 (Some 3) [x0c] ]
  = Ok [[x0a]]
  /\ sort_docs [ update_doc "doc1" 0 None [x0a];
                 update_doc "doc1" 1 (Some 2) [x0b];
                 update_doc "doc1" 1 (Some 3) [x0c] ]
     = [ update_doc "doc1" 0 None [x0a];
         update_doc "doc1" 1 (Some 2) [x0b];
         update_doc "doc1" 1 (Some 3) [x0c] ].
Proof. split; reflexivity. Qed.

(** ** Bulk Writer: the retry wrapper *)

Section RetryFacts.
Context {St A : Type}.
Variable emit : event -> St -> St.
Variable task : St -> St * result A.
Variable delay : Z.

(** After [k] failed attempts the loop is where it would be had it started in
    the state reached, with [k] attempts fewer to go. *)
Lemma retry_loop_retrying (k : nat) (s sk : St) :
  retrying emit task delay k s sk ->
  forall (rem : nat) (last : option error),
    exists last',
      retry_loop emit task delay (k + S rem) last s
      = retry_loop emit task delay (S rem) last' sk.
Proof.
  induction 1 as [s|k s sk s1 e Hrun IH Htask Hret]; intros rem last.
  - exists last. reflexivity.
  - destruct (IH (S rem) last) as [last' Heq].
    exists (Some e).
    replace (S k + S rem)%nat with (k + S (S rem))%nat by lia.
    rewrite Heq. cbn [retry_loop]. rewrite Htask, Hret. reflexivity.
Qed.

Lemma retry_succeeds (n k : nat) (s sk s' : St) (a : A) :
  retrying emit task delay k s sk -> (k < n)%nat ->
  task sk = (s', Ok a) ->
  retry_loop emit task delay n None s = (s', Ok a).
Proof.
  intros Hrun Hk Htask.
  destruct (retry_loop_retrying k s sk Hrun (n - k - 1) None) as [last' Heq].
  replace (k + S (n - k - 1))%nat with n in Heq by lia.
  rewrite Heq. cbn [retry_loop]. rewrite Htask. reflexivity.
Qed.

Lemma retry_propagates (n k : nat) (s sk s' : St) (e : error) :
  retrying emit task delay k s sk -> (k < n)%nat ->
  task sk = (s', Err e) -> retryable e = false ->
  retry_loop emit task delay n None s = (s', Err e).
Proof.
  intros Hrun Hk Htask Hret.
  destruct (retry_loop_retrying k s sk Hrun (n - k - 1) None) as [last' Heq].
  replace (k + S (n - k - 1))%nat with n in Heq by lia.
  rewrite Heq. cbn [retry_loop]. rewrite Htask, Hret. reflexivity.
Qed.

Lemma retry_gives_up (n k : nat) (s sk s' : St) (e : error) :
  retrying emit task delay k s sk -> S k = n ->
  task sk = (s', Err e) -> retryable e = true ->
  retry_loop emit task delay n None s = (emit (ConsoleError e) s', Err e).
Proof.
  intros Hrun Hk Htask Hret.
  destruct (retry_loop_retrying k s sk Hrun 0 None) as [last' Heq].
  replace (k + 1)%nat with n in Heq by lia.
  rewrite Heq. cbn [retry_loop]. rewrite Htask, Hret. reflexivity.
Qed.
End RetryFacts.

(** C7 (bounded retry): for every task run by the retry wrapper with its 3
    attempts and 1000 ms delay.  An error is retried exactly when it is a
    network error, a network timeout or a bulk-write error.  Whenever the
    first [k < 3] attempts failed with such errors (each followed by one wait
    of 1000 ms), the next attempt decides: its value is returned, an error of
    any other kind propagates at once with nothing run after it, and a
    retryable error of the third attempt is surfaced as it is, no fourth
    attempt being made. *)
Theorem retryMongoOperation_bounded_retry {St A : Type}
    (emit : event -> St -> St) (task : St -> St * result A) :
  (forall e, retryable e = true <->
             e = MongoNetworkError \/ e = MongoNetworkTimeoutError
             \/ e = MongoBulkWriteError)
  /\ (forall k s sk s' a,
        retrying emit task 1000 k s sk -> (k < 3)%nat ->
        task sk = (s', Ok a) ->
        retryMongoOperation emit task 3 1000 s = (s', Ok a))
  /\ (forall k s sk s' e,
        retrying emit task 1000 k s sk -> (k < 3)%nat ->
        task sk = (s', Err e) -> retryable e = false ->
        retryMongoOperation emit task 3 1000 s = (s', Err e))
  /\ (forall s sk s' e,
        retrying emit task 1000 2 s sk ->
        task sk = (s', Err e) -> retryable e = true ->
        retryMongoOperation emit task 3 1000 s = (emit (ConsoleError e) s', Err e)).
Proof.
  split.
  { intros e. split.
    - destruct e; cbn; intros H; try discriminate; auto.
    - intros [->|[->| ->]]; reflexivity. }
  unfold retryMongoOperation. change (Z.to_nat 3) with 3%nat.
  split; [| split ].
  - intros k s sk s' a Hrun Hk Htask. eapply retry_succeeds; eassumption.
  - intros k s sk s' e Hrun Hk Htask Hret. eapply retry_propagates; eassumption.
  - intros s sk s' e Hrun Htask Hret.
    eapply retry_gives_up; [ exact Hrun | reflexivity | exact Htask | exact Hret ].
Qed.

(** Three transient failures in a row: the third error is surfaced after two
    waits of 1000 ms and three attempts (the fourth outcome is never played). *)
Lemma retryMongoOperation_bounded_retry_witness :
  retryMongoOperation emit_script scripted_task 3 1000
    ([Err MongoNetworkError; Err MongoNetworkTimeoutError; Err MongoBulkWriteError;
      Ok 7%nat], [])
  = (([Ok 7%nat],
      [ConsoleWarn MongoNetworkError; Delay 1000;
       ConsoleWarn MongoNetworkTimeoutError; Delay 1000;
       ConsoleError MongoBulkWriteError]),
     Err MongoBulkWriteError).
Proof.
  apply (proj2 (proj2 (proj2
           (retryMongoOperation_bounded_retry emit_script scripted_task)))
           ([Err MongoNetworkError; Err MongoNetworkTimeoutError;
             Err MongoBulkWriteError; Ok 7%nat], [])
           ([Err MongoBulkWriteError; Ok 7%nat],
            [ConsoleWarn MongoNetworkError; Delay 1000;
             ConsoleWarn MongoNetworkTimeoutError; Delay 1000])
           ([Ok 7%nat],
            [ConsoleWarn MongoNetworkError; Delay 1000;
             ConsoleWarn MongoNetworkTimeoutError; Delay 1000])
           MongoBulkWriteError).
  - apply (retrying_again emit_script scripted_task 1000 1 _
             ([Err MongoNetworkTimeoutError; Err MongoBulkWriteError; Ok 7%nat],
              [ConsoleWarn MongoNetworkError; Delay 1000])
             ([Err MongoBulkWriteError; Ok 7%nat],
              [ConsoleWarn MongoNetworkError; Delay 1000])
             MongoNetworkTimeoutError).
    + apply (retrying_again emit_script scripted_task 1000 0 _
               ([Err MongoNetworkError; Err MongoNetworkTimeoutError;
                 Err MongoBulkWriteError; Ok 7%nat], [])
               ([Err MongoNetworkTimeoutError; Err MongoBulkWriteError; Ok 7%nat], [])
               MongoNetworkError).
      * apply retrying_none.
      * reflexivity.
      * reflexivity.
    + reflexivity.
    + reflexivity.
  - reflexivity.
  - reflexivity.
Defined.

(** ** Transaction Serializer *)

Lemma obj_get_set_same {V} (k : string) (v : V) (o : obj V) :
  obj_get k (obj_set k v o) = Some v.
Proof.
  induction o as [|[k' v'] o IH]; cbn.
  - now rewrite String.eqb_refl.
  - destruct (String.eqb k k') eqn:E; cbn.
    + now rewrite String.eqb_refl.
    + rewrite E. exact IH.
Qed.

Lemma obj_get_set_other {V} (k k' : string) (v : V) (o : obj V) :
  k' <> k -> obj_get k' (obj_set k v o) = obj_get k' o.
Proof.
  intros Hne. induction o as [|[k0 v0] o IH]; cbn.
  - destruct (String.eqb_spec k' k); [ contradiction | reflexivity ].
  - destruct (String.eqb_spec k k0) as [->|Hk]; cbn.
    + destruct (String.eqb_spec k' k0); [ contradiction | reflexivity ].
    + destruct (String.eqb_spec k' k0); [ reflexivity | exact IH ].
Qed.

Module SerializerFacts.
Import MongodbPersistence.

(** What [_transact] does when the tail of the chain is not rejected. *)
Lemma transact_runs {A} (name : string) (f : DB -> DB * result A) (this : t) :
  (forall e, obj_get name (tr this) <> Some (Rejected e)) ->
  exists tr1,
    obj_get name tr1 = obj_get name (obj_set name (Fulfilled tt) (tr this))
    /\ (forall other, other <> name -> obj_get other tr1 = obj_get other (tr this))
    /\ _transact name f this =
       match f (db this) with
       | (db', Ok res) =>
           ({| db := db'; console := console this; tr := tr1 |}, Fulfilled (Some res))
       | (db', Err err) =>
           ({| db := db'; console := console this ++ [ConsoleWarn err]; tr := tr1 |},
            Fulfilled None)
       end.
Proof.
  intros Hok. unfold _transact.
  destruct (obj_get name (tr this)) as [[[]|e]|] eqn:Hget.
  - exists (obj_set name (Fulfilled tt) (tr this)).
    split; [ reflexivity |]. split; [ intros; now apply obj_get_set_other |].
    rewrite Hget. destruct (f (db this)) as [db' [res|err]]; reflexivity.
  - exfalso. exact (Hok e eq_refl).
  - exists (obj_set name (Fulfilled tt) (obj_set name (Fulfilled tt) (tr this))).
    split; [ now rewrite !obj_get_set_same |].
    split; [ intros; now rewrite !obj_get_set_other |].
    rewrite obj_get_set_same.
    destruct (f (db this)) as [db' [res|err]]; reflexivity.
Qed.

(** The serializer never leaves a rejected tail behind. *)
Lemma transact_keeps_chains {A} (name : string) (f : DB -> DB * result A) (this : t) :
  chains_settled_well this -> chains_settled_well (fst (_transact name f this)).
Proof.
  intros Hok.
  destruct (transact_runs name f this (Hok name)) as (tr1 & Hsame & Hother & Heq).
  rewrite Heq. intros other e.
  assert (Htr : obj_get other tr1 <> Some (Rejected e)).
  { destruct (string_dec other name) as [->|Hne].
    - rewrite Hsame, obj_get_set_same. discriminate.
    - rewrite Hother by exact Hne. apply Hok. }
  destruct (f (db this)) as [db' [res|err]]; exact Htr.
Qed.

End SerializerFacts.

(** C6, as stated, fails: the operation below throws inside the chain of
    "doc1", and the promise handed to its caller is fulfilled with [null];
    the caller does not observe the failure. *)
Lemma transact_failure_not_reported :
  snd (MongodbPersistence._transact "doc1" failing_operation fresh) = Fulfilled None
  /\ snd (MongodbPersistence._transact "doc1" failing_operation fresh)
     <> Rejected (OtherError "boom").
Proof. split; [ reflexivity | discriminate ]. Qed.

(** C6 (amended): for every operation submitted to the serializer whose body
    fails, the promise handed to its caller is fulfilled with [null] (the
    error is not passed on), the error is recorded as a console warning, the
    store is left as the body left it, and the chain of that document still
    proceeds: the tail is fulfilled, so the next operation submitted for the
    document runs its body, on that store, and gets its own outcome. *)
Theorem transact_swallows_failure {A B} (name : string)
    (f : DB -> DB * result A) (g : DB -> DB * result B)
    (this : MongodbPersistence.t) (db' : DB) (e : error) :
  chains_settled_well this ->
  f (MongodbPersistence.db this) = (db', Err e) ->
  let this' := fst (MongodbPersistence._transact name f this) in
  snd (MongodbPersistence._transact name f this) = Fulfilled None
  /\ MongodbPersistence.console this'
     = MongodbPersistence.console this ++ [ConsoleWarn e]
  /\ MongodbPersistence.db this' = db'
  /\ obj_get name (MongodbPersistence.tr this') = Some (Fulfilled tt)
  /\ chains_settled_well this'
  /\ snd (MongodbPersistence._transact name g this')
     = match snd (g db') with
       | Ok res => Fulfilled (Some res)
       | Err _ => Fulfilled None
       end
  /\ MongodbPersistence.db (fst (MongodbPersistence._transact name g this'))
     = fst (g db').
Proof.
  intros Hok Hf this'.
  pose proof (SerializerFacts.transact_keeps_chains name f this Hok) as Hok'.
  fold this' in Hok'.
  destruct (SerializerFacts.transact_runs name f this (Hok name))
    as (tr1 & Hsame & _ & Heq).
  rewrite Hf in Heq.
  assert (Hthis' : this' = {| MongodbPersistence.db := db';
                              MongodbPersistence.console :=
                                MongodbPersistence.console this ++ [ConsoleWarn e];
                              MongodbPersistence.tr := tr1 |})
    by (unfold this'; now rewrite Heq).
  split; [ now rewrite Heq |].
  split; [ now rewrite Hthis' |].
  split; [ now rewrite Hthis' |].
  split; [ rewrite Hthis'; cbn; now rewrite Hsame, obj_get_set_same |].
  split; [ exact Hok' |].
  destruct (SerializerFacts.transact_runs name g this' (Hok' name))
    as (tr2 & _ & _ & Heq2).
  rewrite Heq2. replace (MongodbPersistence.db this') with db' by now rewrite Hthis'.
  destruct (g db') as [db2 [res|err]]; split; reflexivity.
Qed.

Lemma transact_swallows_failure_witness :
  snd (MongodbPersistence._transact "doc1" failing_operation fresh) = Fulfilled None
  /\ snd (MongodbPersistence._transact "doc1" (fun db => (db, Ok 5))
            (fst (MongodbPersistence._transact "doc1" failing_operation fresh)))
     = Fulfilled (Some 5).
Proof.
  assert (Hfresh : chains_settled_well fresh) by (intros name e; discriminate).
  pose proof (transact_swallows_failure "doc1" failing_operation
                (fun db => (db, Ok 5)) fresh [] (OtherError "boom")
                Hfresh eq_refl) as H.
  split; [ exact (proj1 H) |].
  exact (proj1 (proj2 (proj2 (proj2 (proj2 (proj2 H)))))).
Defined.

(** ** Store Adapter: filters *)

Lemma is_update_of_spec (name : string) (d : mongoDoc) :
  is_update_of name d =
  match d with
  | UpdateDoc n _ _ _ => String.eqb name n
  | _ => false
  end.
Proof.
  destruct d; unfold is_update_of, matches; cbn; [| reflexivity | reflexivity ].
  now rewrite !andb_true_r.
Qed.

Lemma matches_update_key (name : string) (c : Z) (d : mongoDoc) :
  matches (createDocumentUpdateKey name (Some c)) d =
  match d with
  | UpdateDoc n c' _ _ => String.eqb name n && (c =? c')
  | _ => false
  end.
Proof.
  destruct d; unfold matches; cbn; [| reflexivity | reflexivity ].
  now rewrite !andb_true_r.
Qed.

Lemma matches_part_key (name : string) (c p : Z) (d : mongoDoc) :
  matches (with_part (createDocumentUpdateKey name (Some c)) p) d =
  match d with
  | UpdateDoc n c' (Some p') _ => String.eqb name n && (c =? c') && (p =? p')
  | _ => false
  end.
Proof.
  destruct d as [n c' [p'|] v| |]; unfold matches; cbn;
    rewrite ?andb_true_r, ?andb_false_r; reflexivity.
Qed.

Lemma matches_range_key (name : string) (d : mongoDoc) :
  matches (with_clock_range (createDocumentUpdateKey name (Some 0)) 0 BITS32) d =
  match d with
  | UpdateDoc n c _ _ => String.eqb name n && valid_clock c
  | _ => false
  end.
Proof.
  destruct d; unfold matches; cbn; [| reflexivity | reflexivity ].
  now rewrite !andb_true_r.
Qed.

Lemma matches_sv_key (name : string) (d : mongoDoc) :
  matches (createDocumentStateVectorKey name) d =
  match d with
  | StateVectorDoc n _ => String.eqb name n
  | _ => false
  end.
Proof.
  destruct d; unfold matches; cbn; rewrite ?andb_true_r; reflexivity.
Qed.

Lemma matches_clear_filter (name : string) (from to : Z) (d : mongoDoc) :
  matches {| q_version := None; q_action := None; q_docName := Some name;
             q_clock := Some (ClockRange from to); q_part := None |} d =
  match d with
  | UpdateDoc n c _ _ => String.eqb name n && ((from <=? c) && (c <? to))
  | _ => false
  end.
Proof.
  destruct d; unfold matches; cbn; rewrite ?andb_true_r, ?andb_false_r; reflexivity.
Qed.

(** ** Store Adapter: the greatest clock *)

Lemma lastclock_cons (x : mongoDoc) (l : list mongoDoc) :
  l <> [] -> lastclock (x :: l) = lastclock l.
Proof.
  intros Hne. unfold lastclock. destruct l as [|y l]; [ contradiction |].
  reflexivity.
Qed.

Lemma insert_sorted_not_nil (d : mongoDoc) (l : list mongoDoc) :
  insert_sorted d l <> [].
Proof. destruct l as [|x r]; cbn; [| destruct (doc_leb d x) ]; discriminate. Qed.

Lemma doc_leb_true_clock (d x : mongoDoc) :
  (exists c, clock d = Some c) -> (exists c, clock x = Some c) ->
  doc_leb d x = true -> clockZ d <= clockZ x.
Proof.
  intros [cd Hd] [cx Hx]. unfold doc_leb, clockZ. rewrite Hd, Hx. cbn.
  destruct (Z.ltb_spec cd cx); [ lia |].
  destruct (Z.eqb_spec cd cx); cbn; [ lia | discriminate ].
Qed.

Lemma doc_leb_false_clock (d x : mongoDoc) :
  (exists c, clock d = Some c) -> (exists c, clock x = Some c) ->
  doc_leb d x = false -> clockZ x <= clockZ d.
Proof.
  intros [cd Hd] [cx Hx]. unfold doc_leb, clockZ. rewrite Hd, Hx. cbn.
  destruct (Z.ltb_spec cd cx); [ discriminate | lia ].
Qed.

(** Inserting into a list whose last record has the greatest clock keeps it
    so, and the last clock becomes the greater of the two. *)
Lemma insert_sorted_lastclock (d : mongoDoc) (l : list mongoDoc) :
  (exists c, clock d = Some c /\ -1 <= c) ->
  (forall y, In y l -> exists c, clock y = Some c) ->
  (forall y, In y l -> clockZ y <= lastclock l) ->
  lastclock (insert_sorted d l) = Z.max (clockZ d) (lastclock l)
  /\ (forall y, In y (insert_sorted d l) -> clockZ y <= lastclock (insert_sorted d l)).
Proof.
  intros (cd & Hcd & Hlo) Hsome Hmax.
  assert (Hd : exists c, clock d = Some c) by eauto.
  assert (Hdz : -1 <= clockZ d) by (unfold clockZ; now rewrite Hcd).
  induction l as [|x r IH].
  - cbn. unfold lastclock; cbn. fold (clockZ d). split; [ lia |].
    intros y [<-|[]]. lia.
  - cbn [insert_sorted].
    assert (Hx : exists c, clock x = Some c) by (apply Hsome; now left).
    destruct (doc_leb d x) eqn:Hleb.
    + rewrite lastclock_cons by discriminate.
      pose proof (doc_leb_true_clock d x Hd Hx Hleb) as Hdx.
      pose proof (Hmax x (or_introl eq_refl)) as Hxl.
      split; [ lia |].
      intros y [<-|Hy]; [ lia | now apply Hmax ].
    + pose proof (doc_leb_false_clock d x Hd Hx Hleb) as Hxd.
      rewrite lastclock_cons by apply insert_sorted_not_nil.
      destruct r as [|y0 r'].
      * cbn. unfold lastclock; cbn. fold (clockZ d) (clockZ x).
        split; [ lia |]. intros y [<-|[<-|[]]]; lia.
      * assert (Hr : forall y, In y (y0 :: r') -> clockZ y <= lastclock (y0 :: r')).
        { intros y Hy. rewrite <- (lastclock_cons x) by discriminate.
          apply Hmax. now right. }
        destruct (IH (fun y Hy => Hsome y (or_intror Hy)) Hr) as [IHl IHm].
        rewrite (lastclock_cons x (y0 :: r')) by discriminate.
        split; [ exact IHl |].
        intros y [<-|Hy]; [| now apply IHm ].
        rewrite IHl. pose proof (Hmax x (or_introl eq_refl)) as Hxl.
        rewrite lastclock_cons in Hxl by discriminate. lia.
Qed.

Lemma sort_docs_lastclock (l : list mongoDoc) :
  (forall y, In y l -> exists c, clock y = Some c /\ -1 <= c) ->
  lastclock (sort_docs l) = fold_right Z.max (-1) (map clockZ l)
  /\ (forall y, In y (sort_docs l) -> exists c, clock y = Some c)
  /\ (forall y, In y (sort_docs l) -> clockZ y <= lastclock (sort_docs l)).
Proof.
  induction l as [|d l IH]; intros Hall.
  - cbn. repeat split; intros y [].
  - destruct IH as (IHl & IHs & IHm); [ intros y Hy; apply Hall; now right |].
    cbn [sort_docs fold_right map]. fold (sort_docs l).
    destruct (insert_sorted_lastclock d (sort_docs l)
                (Hall d (or_introl eq_refl)) IHs IHm) as [Hl Hm].
    split; [ now rewrite Hl, IHl |].
    split; [| exact Hm ].
    intros y Hy.
    assert (Hin : In y (d :: sort_docs l)).
    { clear - Hy. induction (sort_docs l) as [|x r IHr]; cbn in Hy.
      - destruct Hy as [<-|[]]. now left.
      - destruct (doc_leb d x); [ exact Hy |].
        destruct Hy as [<-|Hy]; [ right; now left |].
        destruct (IHr Hy) as [<-|H]; [ now left | right; now right ]. }
    destruct Hin as [<-|Hin]; [| now apply IHs ].
    destruct (Hall d (or_introl eq_refl)) as (c & Hc & _). eauto.
Qed.

(** [getCurrentUpdateClock] computes the specification's [currentClock]. *)
Lemma getCurrentUpdateClock_currentClock (name : string) (db : DB) :
  getCurrentUpdateClock name db = currentClock name db.
Proof.
  unfold getCurrentUpdateClock, db_findOne, currentClock.
  set (q := with_clock_range (createDocumentUpdateKey name (Some 0)) 0 BITS32).
  assert (Hall : forall y, In y (filter (matches q) db) ->
                           exists c, clock y = Some c /\ -1 <= c).
  { intros y Hy. apply filter_In in Hy. destruct Hy as [_ Hm].
    unfold q in Hm. rewrite matches_range_key in Hm.
    destruct y as [n c p v| |]; try discriminate.
    exists c. split; [ reflexivity |].
    apply andb_prop in Hm. destruct Hm as [_ Hv]. unfold valid_clock in Hv.
    apply andb_prop in Hv. destruct Hv as [Hlo _]. apply Z.leb_le in Hlo. lia. }
  destruct (sort_docs_lastclock _ Hall) as (Hl & _ & _).
  unfold lastclock in Hl. fold (clockZ) in Hl.
  transitivity (fold_right Z.max (-1) (map clockZ (filter (matches q) db))).
  - rewrite <- Hl. destruct (last (map Some (sort_docs (filter (matches q) db))) None);
      reflexivity.
  - f_equal. unfold valid_clocks. clear. induction db as [|d db IH]; [ reflexivity |].
    cbn [filter flat_map]. unfold q at 1. rewrite matches_range_key.
    destruct d as [n c p v| |]; cbn [app]; try exact IH.
    rewrite (String.eqb_sym n name).
    destruct (String.eqb name n && valid_clock c); cbn; now rewrite IH.
Qed.

(** ** Store Adapter: upserts and deletes *)

Lemma update_first_none (q : query) (v : bytes) (db : DB) :
  (forall d, In d db -> matches q d = false) -> update_first q v db = None.
Proof.
  induction db as [|d db IH]; intros Hno; [ reflexivity |].
  cbn. rewrite (Hno d (or_introl eq_refl)).
  rewrite IH; [ reflexivity |]. intros d' Hd'. apply Hno. now right.
Qed.

(** An upsert whose locator matches no record inserts a new record. *)
Lemma db_put_fresh (q : query) (v : bytes) (db : DB) :
  (forall d, In d db -> matches q d = false) ->
  db_put q v db = db ++ [doc_of_query q v].
Proof. intros Hno. unfold db_put. now rewrite update_first_none. Qed.

(** An upsert does not change the records selected by a predicate that
    ignores values and rejects what the locator matches or inserts. *)
Lemma filter_db_put (P : mongoDoc -> bool) (q : query) (v : bytes) (db : DB) :
  (forall d, matches q d = true -> P d = false) ->
  (forall d, matches q d = true -> P (set_value d v) = false) ->
  P (doc_of_query q v) = false ->
  filter P (db_put q v db) = filter P db.
Proof.
  intros Hm Hs Hnew. unfold db_put.
  destruct (update_first q v db) as [db'|] eqn:E.
  - revert db' E. induction db as [|d db IH]; intros db' E; [ discriminate |].
    cbn in E. destruct (matches q d) eqn:Hq.
    + injection E as <-. cbn. now rewrite (Hm d Hq), (Hs d Hq).
    + destruct (update_first q v db) as [db''|]; [| discriminate ].
      injection E as <-. cbn. now rewrite (IH db'' eq_refl).
  - rewrite filter_app. cbn. rewrite Hnew. apply app_nil_r.
Qed.

Lemma set_value_matches (q : query) (d : mongoDoc) (v : bytes) :
  matches q (set_value d v) = matches q d.
Proof. destruct d; reflexivity. Qed.

(** After an upsert, the first record matching the locator holds the value. *)
Lemma head_filter_db_put (q : query) (v : bytes) (db : DB) :
  matches q (doc_of_query q v) = true ->
  option_map value (head (filter (matches q) (db_put q v db))) = Some v.
Proof.
  intros Hnew. unfold db_put.
  destruct (update_first q v db) as [db'|] eqn:E.
  - revert db' E. induction db as [|d db IH]; intros db' E; [ discriminate |].
    cbn in E. destruct (matches q d) eqn:Hq.
    + injection E as <-. cbn. rewrite set_value_matches, Hq. cbn.
      destruct d; reflexivity.
    + destruct (update_first q v db) as [db''|]; [| discriminate ].
      injection E as <-. cbn. rewrite Hq. now apply IH.
  - assert (Hno : filter (matches q) db = []).
    { clear Hnew. induction db as [|d db IH]; [ reflexivity |].
      cbn in E. destruct (matches q d) eqn:Hq; [ discriminate |].
      cbn. rewrite Hq. apply IH.
      destruct (update_first q v db); [ discriminate | reflexivity ]. }
    rewrite filter_app, Hno. cbn. rewrite Hnew. cbn.
    unfold doc_of_query.
    destruct (q_action q), (q_clock q) as [[]|], (q_version q) as [ver|];
      try reflexivity; destruct (String.eqb ver "v1_sv"); reflexivity.
Qed.

(** Writing the state vector: the record found under the state-vector key
    then holds the encoding; update records and other documents' records are
    as before. *)
Lemma writeStateVector_record (name : string) (sv : bytes) (c : Z) (db : DB) :
  state_vector_record name (writeStateVector name sv c db)
  = Some (encodeStateVector c sv).
Proof.
  unfold state_vector_record, writeStateVector, db_findOne.
  apply head_filter_db_put. rewrite matches_sv_key. cbn. apply String.eqb_refl.
Qed.

Lemma writeStateVector_updates (name : string) (sv : bytes) (c : Z) (db : DB) :
  filter is_update (writeStateVector name sv c db) = filter is_update db.
Proof.
  unfold writeStateVector. apply filter_db_put.
  - intros d Hd. rewrite matches_sv_key in Hd. destruct d; [ discriminate | | ]; reflexivity.
  - intros d Hd. rewrite matches_sv_key in Hd. destruct d; [ discriminate | | ]; reflexivity.
  - reflexivity.
Qed.

Lemma writeStateVector_others (name : string) (sv : bytes) (c : Z) (db : DB) :
  records_of_others name (writeStateVector name sv c db) = records_of_others name db.
Proof.
  unfold writeStateVector, records_of_others. apply filter_db_put.
  - intros d Hd. rewrite matches_sv_key in Hd.
    destruct d as [| n v |]; try discriminate. cbn.
    apply String.eqb_eq in Hd. subst n. now rewrite String.eqb_refl.
  - intros d Hd. rewrite matches_sv_key in Hd.
    destruct d as [| n v |]; try discriminate. cbn.
    apply String.eqb_eq in Hd. subst n. now rewrite String.eqb_refl.
  - cbn. now rewrite String.eqb_refl.
Qed.

Lemma In_update_filter (n : string) (c : Z) (p : option Z) (v : bytes) (db : DB) :
  In (UpdateDoc n c p v) db <-> In (UpdateDoc n c p v) (filter is_update db).
Proof. rewrite filter_In. cbn. tauto. Qed.

Lemma writeStateVector_In_update (name : string) (sv : bytes) (c0 : Z) (db : DB)
    (n : string) (c : Z) (p : option Z) (v : bytes) :
  In (UpdateDoc n c p v) (writeStateVector name sv c0 db) <-> In (UpdateDoc n c p v) db.
Proof. now rewrite In_update_filter, writeStateVector_updates, <- In_update_filter. Qed.

(** ** Update Log: storing an update *)

Lemma currentClock_lower (name : string) (db : DB) : -1 <= currentClock name db.
Proof.
  unfold currentClock. induction (valid_clocks name db) as [|c l IH]; cbn; lia.
Qed.

Lemma currentClock_upper (name : string) (db : DB) (c : Z) (p : option Z) (v : bytes) :
  In (UpdateDoc name c p v) db -> valid_clock c = true -> c <= currentClock name db.
Proof.
  intros Hin Hv. unfold currentClock.
  assert (Hc : In c (valid_clocks name db)).
  { unfold valid_clocks. apply in_flat_map. exists (UpdateDoc name c p v).
    split; [ exact Hin |]. rewrite String.eqb_refl, Hv. now left. }
  induction (valid_clocks name db) as [|c0 l IH]; [ destruct Hc |].
  cbn. destruct Hc as [->|Hc]; [ lia |]. specialize (IH Hc). lia.
Qed.

Lemma currentClock_below_BITS32 (name : string) (db : DB) :
  currentClock name db < BITS32.
Proof.
  unfold currentClock.
  assert (H : forall c, In c (valid_clocks name db) -> c < BITS32).
  { intros c Hc. unfold valid_clocks in Hc. apply in_flat_map in Hc.
    destruct Hc as ([n c' p v| |] & _ & Hc); try destruct Hc.
    destruct (String.eqb n name && valid_clock c') eqn:E; [| destruct Hc ].
    destruct Hc as [<-|[]]. apply andb_prop in E. destruct E as [_ E].
    unfold valid_clock in E. apply andb_prop in E. destruct E as [_ E].
    now apply Z.ltb_lt in E. }
  induction (valid_clocks name db) as [|c l IH]; cbn; [ reflexivity |].
  assert (c < BITS32) by (apply H; now left).
  assert (fold_right Z.max (-1) l < BITS32) by (apply IH; intros; apply H; now right).
  lia.
Qed.

(** The clock after the current one is free whenever it is a valid clock, or
    all the clocks of the log are valid. *)
Lemma next_clock_free (name : string) (db : DB) :
  currentClock name db + 1 < BITS32 \/ log_clocks_valid name db ->
  forall c p v, In (UpdateDoc name c p v) db -> c <> currentClock name db + 1.
Proof.
  intros Hcase c p v Hin ->.
  pose proof (currentClock_lower name db) as Hlo.
  assert (Hv : valid_clock (currentClock name db + 1) = true).
  { destruct Hcase as [Hlt|Hvalid].
    - unfold valid_clock. apply andb_true_intro.
      split; [ apply Z.leb_le | apply Z.ltb_lt ]; lia.
    - eapply Hvalid; [ exact Hin | reflexivity ]. }
  pose proof (currentClock_upper name db _ p v Hin Hv). lia.
Qed.

Lemma update_puts_small_eq (name : string) (c : Z) (u : bytes) :
  byteLength u <= MAX_DOCUMENT_SIZE ->
  update_puts name c u = [(createDocumentUpdateKey name (Some c), u)].
Proof.
  intros H. unfold update_puts.
  destruct (Z.leb_spec (byteLength u) MAX_DOCUMENT_SIZE); [ reflexivity | lia ].
Qed.

Lemma update_puts_big_eq (name : string) (c : Z) (u : bytes) :
  MAX_DOCUMENT_SIZE < byteLength u ->
  update_puts name c u =
  map (fun i => (with_part (createDocumentUpdateKey name (Some c)) (i + 1),
                 chunk_at MAX_DOCUMENT_SIZE u i))
      (indices (totalChunks MAX_DOCUMENT_SIZE u)).
Proof.
  intros H. unfold update_puts.
  destruct (Z.leb_spec (byteLength u) MAX_DOCUMENT_SIZE); [ lia | reflexivity ].
Qed.

Lemma fold_puts_parts (name : string) (c m : Z) (u : bytes) (db0 : DB) (k a : nat) :
  (forall c' p v, In (UpdateDoc name c' p v) db0 -> c' <> c) ->
  fold_left (fun acc p => db_put (fst p) (snd p) acc)
    (map (fun i => (with_part (createDocumentUpdateKey name (Some c)) (i + 1),
                    chunk_at m u i))
         (map Z.of_nat (seq a k)))
    (db0 ++ map (part_record name c m u) (map Z.of_nat (seq 0 a)))
  = db0 ++ map (part_record name c m u) (map Z.of_nat (seq 0 (a + k))).
Proof.
  intros Hfree. revert a. induction k as [|k IH]; intros a.
  - now rewrite Nat.add_0_r.
  - cbn [seq map fold_left fst snd]. rewrite db_put_fresh.
    + change (doc_of_query
                (with_part (createDocumentUpdateKey name (Some c)) (Z.of_nat a + 1))
                (chunk_at m u (Z.of_nat a)))
        with (part_record name c m u (Z.of_nat a)).
      rewrite <- app_assoc.
      replace (map (part_record name c m u) (map Z.of_nat (seq 0 a))
               ++ [part_record name c m u (Z.of_nat a)])
        with (map (part_record name c m u) (map Z.of_nat (seq 0 (S a))))
        by (now rewrite seq_S, !map_app).
      rewrite IH. f_equal. f_equal. f_equal. f_equal. lia.
    + intros d Hd. rewrite matches_part_key.
      destruct d as [n c' [p'|] v| |]; try reflexivity.
      apply in_app_or in Hd. destruct Hd as [Hd|Hd].
      * destruct (String.eqb_spec name n) as [<-|]; [| reflexivity ].
        destruct (Z.eqb_spec c c') as [<-|]; [| reflexivity ].
        exfalso. exact (Hfree _ _ _ Hd eq_refl).
      * apply in_map_iff in Hd. destruct Hd as (i & Hi & Hin).
        apply in_map_iff in Hin. destruct Hin as (j & <- & Hj).
        apply in_seq in Hj. rewrite part_record_eq in Hi.
        injection Hi as <- <- <- <-.
        destruct (Z.eqb_spec (Z.of_nat a + 1) (Z.of_nat j + 1)); [ lia |].
        apply andb_false_r.
Qed.

(** On a free clock, the puts of [storeUpdate] append the records of the
    update at the end of the collection. *)
Lemma fold_update_puts (name : string) (c : Z) (u : bytes) (db0 : DB) :
  (forall c' p v, In (UpdateDoc name c' p v) db0 -> c' <> c) ->
  fold_left (fun acc p => db_put (fst p) (snd p) acc) (update_puts name c u) db0
  = db0 ++ update_records name c u.
Proof.
  intros Hfree.
  destruct (Z.le_gt_cases (byteLength u) MAX_DOCUMENT_SIZE) as [Hs|Hb].
  - rewrite update_records_small, update_puts_small_eq by exact Hs.
    cbn [fold_left fst snd]. apply db_put_fresh.
    intros d Hd. rewrite matches_update_key.
    destruct d as [n c' p v| |]; try reflexivity.
    destruct (String.eqb_spec name n) as [<-|]; [| reflexivity ].
    destruct (Z.eqb_spec c c') as [<-|]; [| reflexivity ].
    exfalso. exact (Hfree _ _ _ Hd eq_refl).
  - rewrite update_records_big, update_puts_big_eq by lia.
    unfold indices.
    pose proof (fold_puts_parts name c MAX_DOCUMENT_SIZE u db0
                  (Z.to_nat (totalChunks MAX_DOCUMENT_SIZE u)) 0 Hfree) as H.
    cbn [seq map Nat.add] in H. rewrite app_nil_r in H. exact H.
Qed.

Section StoreFacts.
Context {Y : Engine}.

(** [storeUpdate] when the next clock is a valid clock or the log holds valid
    clocks only: the records of the update are appended, after the initial
    state vector when the log was empty. *)
Lemma storeUpdate_appends (name : string) (u : bytes) (db : DB) :
  currentClock name db + 1 < BITS32 \/ log_clocks_valid name db ->
  storeUpdate name u db =
  ((if currentClock name db =? -1
    then writeStateVector name (initialStateVector u) 0 db else db)
     ++ update_records name (currentClock name db + 1) u,
   currentClock name db + 1).
Proof.
  intros Hcase. unfold storeUpdate.
  rewrite getCurrentUpdateClock_currentClock.
  rewrite fold_update_puts; [ reflexivity |].
  intros c' p v Hin.
  apply (next_clock_free name db Hcase c' p v).
  destruct (currentClock name db =? -1); [| exact Hin ].
  now apply writeStateVector_In_update in Hin.
Qed.

End StoreFacts.

Lemma valid_clocks_app (name : string) (l1 l2 : DB) :
  valid_clocks name (l1 ++ l2) = valid_clocks name l1 ++ valid_clocks name l2.
Proof. unfold valid_clocks. apply flat_map_app. Qed.

Lemma currentClock_app (name : string) (l1 l2 : DB) :
  currentClock name (l1 ++ l2) = Z.max (currentClock name l1) (currentClock name l2).
Proof.
  unfold currentClock. rewrite valid_clocks_app.
  induction (valid_clocks name l1) as [|c l IH]; cbn.
  - pose proof (currentClock_lower name l2) as H. unfold currentClock in H. lia.
  - rewrite IH. lia.
Qed.

Lemma valid_clocks_filter (name : string) (db : DB) :
  valid_clocks name (filter is_update db) = valid_clocks name db.
Proof.
  unfold valid_clocks. induction db as [|d db IH]; [ reflexivity |].
  destruct d; cbn; now rewrite IH.
Qed.

Lemma writeStateVector_currentClock (name n : string) (sv : bytes) (c : Z) (db : DB) :
  currentClock n (writeStateVector name sv c db) = currentClock n db.
Proof.
  unfold currentClock.
  now rewrite <- valid_clocks_filter, writeStateVector_updates, valid_clocks_filter.
Qed.

(** The records written for an update are update records of the document, all
    at the given clock, and there is at least one. *)
Lemma update_records_shape (name : string) (c : Z) (u : bytes) :
  update_records name c u <> []
  /\ forall d, In d (update_records name c u) ->
               exists p v, d = UpdateDoc name c p v.
Proof.
  destruct (Z.le_gt_cases (byteLength u) MAX_DOCUMENT_SIZE) as [Hs|Hb].
  - rewrite update_records_small by exact Hs. split; [ discriminate |].
    intros d [<-|[]]. now exists None, u.
  - rewrite update_records_big by lia. split.
    + pose proof (totalChunks_ge_2 _ u MAX_DOCUMENT_SIZE_pos ltac:(lia)) as H2.
      unfold indices.
      destruct (Z.to_nat (totalChunks MAX_DOCUMENT_SIZE u)) eqn:E; [ lia | discriminate ].
    + intros d Hd. apply in_map_iff in Hd. destruct Hd as (i & <- & _).
      rewrite part_record_eq. eauto.
Qed.

Lemma currentClock_update_records (name : string) (c : Z) (u : bytes) :
  valid_clock c = true -> currentClock name (update_records name c u) = c.
Proof.
  intros Hv. destruct (update_records_shape name c u) as [Hne Hall].
  unfold currentClock, valid_clocks.
  assert (Hc : 0 <= c).
  { unfold valid_clock in Hv. apply andb_prop in Hv. destruct Hv as [Hv _].
    now apply Z.leb_le. }
  induction (update_records name c u) as [|d l IH]; [ contradiction |].
  destruct (Hall d (or_introl eq_refl)) as (p & v & ->).
  cbn [flat_map]. rewrite String.eqb_refl, Hv. cbn [andb app fold_right].
  destruct l as [|d' l'].
  - cbn. lia.
  - rewrite IH; [ lia | discriminate | intros d0 Hd0; apply Hall; now right ].
Qed.

Section ClockFacts.
Context {Y : Engine}.

Lemma storeUpdate_returns (name : string) (u : bytes) (db : DB) :
  snd (storeUpdate name u db) = currentClock name db + 1.
Proof. unfold storeUpdate. cbn. now rewrite getCurrentUpdateClock_currentClock. Qed.

Lemma storeUpdate_advances (name : string) (u : bytes) (db : DB) :
  currentClock name db + 1 < BITS32 ->
  currentClock name (fst (storeUpdate name u db)) = currentClock name db + 1.
Proof.
  intros Hlt. rewrite storeUpdate_appends by (now left). cbn [fst].
  pose proof (currentClock_lower name db) as Hlo.
  rewrite currentClock_app, currentClock_update_records.
  - destruct (currentClock name db =? -1);
      rewrite ?writeStateVector_currentClock; lia.
  - unfold valid_clock. apply andb_true_intro.
    split; [ apply Z.leb_le | apply Z.ltb_lt ]; lia.
Qed.

Lemma append_all_clocks (name : string) (us : list bytes) (db : DB) :
  currentClock name db + Z.of_nat (List.length us) <= BITS32 ->
  snd (append_all name us db)
  = map (fun i => currentClock name db + 1 + Z.of_nat i) (seq 0 (List.length us)).
Proof.
  revert db. induction us as [|u us IH]; intros db Hbound; [ reflexivity |].
  cbn [append_all].
  destruct (storeUpdate name u db) as [db1 c] eqn:Hstore.
  destruct (append_all name us db1) as [db2 cs] eqn:Hrest.
  cbn [snd List.length seq map].
  assert (Hc : c = currentClock name db + 1)
    by (rewrite <- (storeUpdate_returns name u db), Hstore; reflexivity).
  f_equal; [ lia |].
  rewrite <- seq_shift, map_map.
  destruct us as [|u' us'].
  - cbn in Hrest. now injection Hrest as _ <-.
  - assert (Hadv : currentClock name db1 = currentClock name db + 1).
    { rewrite <- (storeUpdate_advances name u db);
        [ now rewrite Hstore | cbn [List.length] in Hbound; lia ]. }
    specialize (IH db1). rewrite Hrest in IH. cbn [snd] in IH.
    rewrite IH by (rewrite Hadv; cbn [List.length] in *; lia).
    apply map_ext. intros i. lia.
Qed.

Lemma fold_update_puts_sv (name n : string) (c : Z) (u : bytes) (db : DB) :
  state_vector_record n
    (fold_left (fun acc p => db_put (fst p) (snd p) acc) (update_puts name c u) db)
  = state_vector_record n db.
Proof.
  unfold state_vector_record, db_findOne.
  assert (H : forall puts db0,
             (forall q v, In (q, v) puts ->
                          exists p, q = createDocumentUpdateKey name (Some c)
                                    \/ q = with_part (createDocumentUpdateKey name (Some c)) p) ->
             filter (matches (createDocumentStateVectorKey n))
               (fold_left (fun acc p => db_put (fst p) (snd p) acc) puts db0)
             = filter (matches (createDocumentStateVectorKey n)) db0).
  { induction puts as [|[q v] puts IH]; intros db0 Hq; [ reflexivity |].
    cbn [fold_left fst snd].
    rewrite IH by (intros q0 v0 Hin0; apply (Hq q0 v0); now right).
    destruct (Hq q v (or_introl eq_refl)) as (p & [->| ->]);
      apply filter_db_put; intros; rewrite ?matches_sv_key;
      try reflexivity;
      match goal with
      | Hm : matches _ ?d = true |- _ =>
          rewrite ?matches_update_key, ?matches_part_key in Hm;
          destruct d as [? ? [?|] ?| |]; try discriminate; reflexivity
      end. }
  rewrite H; [ reflexivity |].
  intros q v Hin. unfold update_puts in Hin.
  destruct (byteLength u <=? MAX_DOCUMENT_SIZE).
  - destruct Hin as [Hin|[]]. injection Hin as <- <-. exists 0. now left.
  - apply in_map_iff in Hin. destruct Hin as (i & Hin & _).
    injection Hin as <- <-. exists (i + 1). now right.
Qed.

End ClockFacts.

Lemma valid_clocks_db_put (name : string) (q : query) (v : bytes) (db : DB) :
  valid_clocks name [doc_of_query q v] = [] ->
  valid_clocks name (db_put q v db) = valid_clocks name db.
Proof.
  intros Hnew. unfold db_put.
  destruct (update_first q v db) as [db'|] eqn:E.
  - revert db' E. induction db as [|d db IH]; intros db' E; [ discriminate |].
    cbn in E. destruct (matches q d).
    + injection E as <-. destruct d; reflexivity.
    + destruct (update_first q v db) as [db''|]; [| discriminate ].
      injection E as <-. specialize (IH db'' eq_refl).
      unfold valid_clocks in *. cbn [flat_map]. now rewrite IH.
  - now rewrite valid_clocks_app, Hnew, app_nil_r.
Qed.

Section Saturation.
Context {Y : Engine}.

(** Once the current clock is the last valid one, a further update does not
    move it: the record written at BITS32 is outside the range queried. *)
Lemma storeUpdate_saturated (name : string) (u : bytes) (db : DB) :
  currentClock name db + 1 = BITS32 ->
  currentClock name (fst (storeUpdate name u db)) = currentClock name db.
Proof.
  intros Hsat. unfold storeUpdate. cbn [fst].
  rewrite getCurrentUpdateClock_currentClock, Hsat.
  destruct (Z.eqb_spec (currentClock name db) (-1)) as [E|_];
    [ rewrite E in Hsat; discriminate |].
  unfold currentClock. f_equal.
  assert (H : forall puts db0,
             (forall q v, In (q, v) puts -> valid_clocks name [doc_of_query q v] = []) ->
             valid_clocks name
               (fold_left (fun acc p => db_put (fst p) (snd p) acc) puts db0)
             = valid_clocks name db0).
  { induction puts as [|[q v] puts IH]; intros db0 Hq; [ reflexivity |].
    cbn [fold_left fst snd].
    rewrite IH by (intros q0 v0 Hin0; apply (Hq q0 v0); now right).
    apply valid_clocks_db_put. apply (Hq q v). now left. }
  apply H. intros q v Hin.
  assert (Hd : In (doc_of_query q v) (update_records name BITS32 u))
    by (unfold update_records; apply in_map_iff; now exists (q, v)).
  destruct (update_records_shape name BITS32 u) as [_ Hall].
  destruct (Hall _ Hd) as (p & v' & ->).
  unfold valid_clocks. cbn [flat_map]. rewrite String.eqb_refl. reflexivity.
Qed.

Lemma append_all_currentClock (name : string) (us : list bytes) (db : DB) :
  currentClock name db + Z.of_nat (List.length us) < BITS32 ->
  currentClock name (fst (append_all name us db))
  = currentClock name db + Z.of_nat (List.length us).
Proof.
  revert db. induction us as [|u us IH]; intros db Hbound.
  - cbn [append_all fst List.length Z.of_nat]. lia.
  - cbn [append_all].
    pose proof (storeUpdate_advances name u db) as Hadv.
    destruct (storeUpdate name u db) as [db1 c]. cbn [fst] in Hadv.
    specialize (IH db1).
    destruct (append_all name us db1) as [db2 cs]. cbn [fst] in *.
    cbn [List.length] in *.
    assert (Hadv' : currentClock name db1 = currentClock name db + 1)
      by (apply Hadv; lia).
    rewrite IH by (rewrite Hadv'; lia). rewrite Hadv'. lia.
Qed.

(** From the last valid clock on, every call returns BITS32. *)
Lemma append_twice_saturated (name : string) (u1 u2 : bytes) (db : DB) :
  currentClock name db + 1 = BITS32 ->
  snd (append_all name [u1; u2] db) = [BITS32; BITS32].
Proof.
  intros Hsat. cbn [append_all].
  pose proof (storeUpdate_returns name u1 db) as Hr1.
  pose proof (storeUpdate_saturated name u1 db Hsat) as Hs1.
  destruct (storeUpdate name u1 db) as [db1 c1]. cbn [fst snd] in *.
  pose proof (storeUpdate_returns name u2 db1) as Hr2.
  destruct (storeUpdate name u2 db1) as [db2 c2]. cbn [fst snd] in *.
  rewrite Hr1, Hr2, Hs1, Hsat. reflexivity.
Qed.

End Saturation.

Lemma length_many_small_updates :
  Z.of_nat (List.length many_small_updates) = BITS32.
Proof.
  unfold many_small_updates. rewrite repeat_length.
  apply Z2Nat.id. unfold BITS32. lia.
Qed.

(** C1, as stated, fails at the end of the valid clock range.  On a log whose
    last record sits at clock 4294967294 two successive calls both return
    4294967295 (the second one overwrites the record of the first), so the
    clocks returned are not strictly increasing; and such a log is reached
    from a document without update records: after 4294967295 appends
    (clocks 0 .. 4294967294) the next two appends both return 4294967295. *)
Lemma storeUpdate_clock_saturates :
  append_all (Y := countEngine) "doc1" [[x02]; [x03]] log_at_last_valid_clock
  = ([UpdateDoc "doc1" 4294967294 None [x01];
      UpdateDoc "doc1" 4294967295 None [x03]],
     [4294967295; 4294967295])
  /\ snd (append_all (Y := countEngine) "doc1" [[x02]; [x03]]
            (fst (append_all (Y := countEngine) "doc1" many_small_updates [])))
     = [4294967295; 4294967295].
Proof.
  split; [ vm_compute; reflexivity |].
  apply (append_twice_saturated (Y := countEngine)).
  rewrite append_all_currentClock; rewrite length_many_small_updates; reflexivity.
Qed.

(** C1 (amended): for every document, [storeUpdate] returns the current clock
    plus one, the current clock being the greatest valid clock of the
    document's update records, or -1; successive calls on one document return
    the consecutive clocks that follow the current one (0, 1, 2, ... for a
    document without update records: strictly increasing, no gaps) as long as
    the clocks returned do not exceed BITS32 = 4294967295; and when no update
    record exists yet (current clock -1), the state-vector record, holding the
    encoding of clock 0 and of the initial state vector derived from the
    update by the engine, is written first and the update record(s) after. *)
Theorem storeUpdate_clock_sequence {Y : Engine} (name : string) (u : bytes) (db : DB) :
  let c := currentClock name db in
  getCurrentUpdateClock name db = c
  /\ snd (storeUpdate name u db) = c + 1
  /\ (forall us,
        c + Z.of_nat (List.length us) <= BITS32 ->
        snd (append_all name us db)
        = map (fun i => c + 1 + Z.of_nat i) (seq 0 (List.length us)))
  /\ (c = -1 ->
      let db_sv := writeStateVector name (initialStateVector u) 0 db in
      fst (storeUpdate name u db)
      = fold_left (fun acc p => db_put (fst p) (snd p) acc) (update_puts name 0 u) db_sv
      /\ state_vector_record name db_sv
         = Some (encodeStateVector 0 (initialStateVector u))
      /\ fst (storeUpdate name u db) = db_sv ++ update_records name 0 u
      /\ state_vector_record name (fst (storeUpdate name u db))
         = Some (encodeStateVector 0 (initialStateVector u))).
Proof.
  intros c.
  split; [ apply getCurrentUpdateClock_currentClock |].
  split; [ apply storeUpdate_returns |].
  split; [ intros us Hbound; now apply append_all_clocks |].
  intros Hc db_sv.
  assert (Hfold : fst (storeUpdate name u db)
                  = fold_left (fun acc p => db_put (fst p) (snd p) acc)
                      (update_puts name 0 u) db_sv).
  { unfold storeUpdate. rewrite getCurrentUpdateClock_currentClock.
    fold c. rewrite Hc. reflexivity. }
  split; [ exact Hfold |].
  split; [ apply writeStateVector_record |].
  split.
  - rewrite storeUpdate_appends by (left; fold c; rewrite Hc; reflexivity).
    fold c. rewrite Hc. reflexivity.
  - rewrite Hfold, fold_update_puts_sv. apply writeStateVector_record.
Qed.

Lemma storeUpdate_clock_sequence_witness :
  snd (append_all (Y := countEngine) "doc1" [[x01]; [x02]; [x03]] []) = [0; 1; 2].
Proof.
  exact (proj1 (proj2 (proj2
           (storeUpdate_clock_sequence (Y := countEngine) "doc1" [x01] [])))
           [[x01]; [x02]; [x03]] ltac:(vm_compute; discriminate)).
Defined.

(** ** Compactor *)

Lemma filter_filter_and {A} (P Q : A -> bool) (l : list A) :
  filter P (filter Q l) = filter (fun x => P x && Q x) l.
Proof.
  induction l as [|x l IH]; [ reflexivity |].
  cbn. destruct (Q x), (P x) eqn:HP; cbn; rewrite ?HP, IH; reflexivity.
Qed.

Lemma filter_all_true {A} (P : A -> bool) (l : list A) :
  (forall x, In x l -> P x = true) -> filter P l = l.
Proof.
  induction l as [|x l IH]; intros H; [ reflexivity |].
  cbn. rewrite (H x (or_introl eq_refl)), IH; [ reflexivity |].
  intros y Hy. apply H. now right.
Qed.

Lemma filter_all_false {A} (P : A -> bool) (l : list A) :
  (forall x, In x l -> P x = false) -> filter P l = [].
Proof.
  induction l as [|x l IH]; intros H; [ reflexivity |].
  cbn. rewrite (H x (or_introl eq_refl)). apply IH.
  intros y Hy. apply H. now right.
Qed.

Lemma clearUpdatesRange_In (name : string) (from to : Z) (db : DB) (d : mongoDoc) :
  In d (clearUpdatesRange name from to db)
  <-> In d db /\ ~ in_cleared_range name from to d.
Proof.
  unfold clearUpdatesRange, db_delete. rewrite filter_In, matches_clear_filter.
  unfold in_cleared_range. split; intros [Hin H]; (split; [ exact Hin |]).
  - intros (c & p & v & -> & Hc). rewrite String.eqb_refl in H.
    destruct (Z.leb_spec from c), (Z.ltb_spec c to); cbn in H; try discriminate; lia.
  - destruct d as [n c p v| |]; try reflexivity.
    destruct (String.eqb_spec name n) as [<-|]; [| reflexivity ].
    destruct (Z.leb_spec from c), (Z.ltb_spec c to); try reflexivity.
    exfalso. apply H. exists c, p, v. split; [ reflexivity | lia ].
Qed.

Lemma clearUpdatesRange_sv (name n : string) (from to : Z) (db : DB) :
  state_vector_record n (clearUpdatesRange name from to db) = state_vector_record n db.
Proof.
  unfold state_vector_record, db_findOne, clearUpdatesRange, db_delete.
  rewrite filter_filter_and. f_equal. f_equal.
  apply filter_ext. intros d. rewrite matches_sv_key, matches_clear_filter.
  destruct d; cbn; rewrite ?andb_true_r; reflexivity.
Qed.

Lemma clearUpdatesRange_others (name : string) (from to : Z) (db : DB) :
  records_of_others name (clearUpdatesRange name from to db) = records_of_others name db.
Proof.
  unfold records_of_others, clearUpdatesRange, db_delete.
  rewrite filter_filter_and. apply filter_ext. intros d.
  rewrite matches_clear_filter.
  destruct d as [n c p v| |]; cbn; rewrite ?andb_true_r; try reflexivity.
  rewrite (String.eqb_sym n name).
  destruct (String.eqb name n); reflexivity.
Qed.

Lemma updates_of_app (name : string) (l1 l2 : DB) :
  updates_of name (l1 ++ l2) = updates_of name l1 ++ updates_of name l2.
Proof. apply filter_app. Qed.

Lemma updates_of_update_records (name : string) (c : Z) (u : bytes) :
  updates_of name (update_records name c u) = update_records name c u.
Proof.
  unfold updates_of. apply filter_all_true.
  intros d Hd. destruct (update_records_shape name c u) as [_ Hall].
  destruct (Hall d Hd) as (p & v & ->).
  rewrite is_update_of_spec. apply String.eqb_refl.
Qed.

Lemma records_of_others_update_records (name : string) (c : Z) (u : bytes) :
  records_of_others name (update_records name c u) = [].
Proof.
  unfold records_of_others.
  destruct (update_records_shape name c u) as [_ Hall].
  induction (update_records name c u) as [|d l IH]; [ reflexivity |].
  destruct (Hall d (or_introl eq_refl)) as (p & v & ->).
  cbn. rewrite String.eqb_refl. cbn. apply IH. intros; apply Hall; now right.
Qed.

Section FlushFacts.
Context {Y : Engine}.

(** The store after the first step of a flush: every record that was there,
    then the records of the consolidated update at the next clock. *)
Lemma storeUpdate_keeps_updates (name : string) (u : bytes) (db : DB) :
  log_clocks_valid name db ->
  filter is_update (fst (storeUpdate name u db))
  = filter is_update db ++ update_records name (currentClock name db + 1) u.
Proof.
  intros Hvalid. rewrite storeUpdate_appends by (now right). cbn [fst].
  rewrite filter_app. f_equal.
  - destruct (currentClock name db =? -1);
      [ apply writeStateVector_updates | reflexivity ].
  - apply filter_all_true. intros d Hd.
    destruct (update_records_shape name (currentClock name db + 1) u) as [_ Hall].
    destruct (Hall d Hd) as (p & v & ->). reflexivity.
Qed.

(** What a flush leaves of the log: the records of the consolidated update. *)
Lemma flushDocument_log (name : string) (u sv : bytes) (db : DB) :
  log_clocks_valid name db ->
  updates_of name (fst (flushDocument name u sv db))
  = update_records name (currentClock name db + 1) u.
Proof.
  intros Hvalid. unfold flushDocument.
  rewrite storeUpdate_appends by (now right).
  set (c := currentClock name db).
  set (db0 := if c =? -1 then writeStateVector name (initialStateVector u) 0 db else db).
  cbn [fst].
  unfold updates_of, clearUpdatesRange, db_delete.
  rewrite filter_filter_and.
  set (P := fun x => is_update_of name x && negb (matches _ x)).
  assert (HP : forall n c' p v,
             P (UpdateDoc n c' p v)
             = String.eqb name n && negb ((0 <=? c') && (c' <? c + 1))).
  { intros n c' p v. unfold P. rewrite is_update_of_spec, matches_clear_filter.
    destruct (String.eqb name n); reflexivity. }
  assert (Hsv : forall s k l, filter P (writeStateVector name s k l) = filter P l).
  { intros s k l. unfold writeStateVector. apply filter_db_put.
    - intros d Hd. rewrite matches_sv_key in Hd.
      destruct d; [ discriminate | | ]; reflexivity.
    - intros d Hd. rewrite matches_sv_key in Hd.
      destruct d; [ discriminate | | ]; reflexivity.
    - reflexivity. }
  rewrite Hsv, filter_app.
  assert (Hold : filter P db0 = []).
  { assert (Hdb : filter P db = []).
    { apply filter_all_false. intros d Hd.
      destruct d as [n c' p v| |]; try reflexivity.
      rewrite HP. destruct (String.eqb_spec name n) as [<-|]; [| reflexivity ].
      pose proof (Hvalid _ _ _ _ Hd eq_refl) as Hv.
      pose proof (currentClock_upper name db c' p v Hd Hv) as Hup. fold c in Hup.
      unfold valid_clock in Hv. apply andb_prop in Hv. destruct Hv as [Hlo _].
      rewrite Hlo. destruct (Z.ltb_spec c' (c + 1)); [ reflexivity | lia ]. }
    unfold db0. destruct (c =? -1); [ now rewrite Hsv | exact Hdb ]. }
  change (filter P db0 ++ filter P (update_records name (c + 1) u)
          = update_records name (c + 1) u).
  rewrite Hold. cbn [app].
  apply filter_all_true. intros d Hd.
  destruct (update_records_shape name (c + 1) u) as [_ Hall].
  destruct (Hall d Hd) as (p & v & ->).
  rewrite HP, String.eqb_refl.
  destruct (Z.ltb_spec (c + 1) (c + 1)); [ lia |]. now rewrite andb_false_r.
Qed.

End FlushFacts.

Section FlushSteps.
Context {Y : Engine}.

Lemma flushDocument_steps (name : string) (u sv : bytes) (db : DB) :
  flushDocument name u sv db
  = (clearUpdatesRange name 0 (currentClock name db + 1)
       (writeStateVector name sv (currentClock name db + 1)
          (fst (storeUpdate name u db))),
     currentClock name db + 1).
Proof.
  unfold flushDocument.
  pose proof (storeUpdate_returns name u db) as Hret.
  destruct (storeUpdate name u db) as [db1 c]. cbn [snd fst] in *. now subst c.
Qed.

Lemma flushDocument_others (name : string) (u sv : bytes) (db : DB) :
  log_clocks_valid name db ->
  records_of_others name (fst (flushDocument name u sv db)) = records_of_others name db.
Proof.
  intros Hvalid. rewrite flushDocument_steps. cbn [fst].
  rewrite clearUpdatesRange_others, writeStateVector_others.
  rewrite storeUpdate_appends by (now right). cbn [fst].
  unfold records_of_others at 1. rewrite filter_app.
  fold (records_of_others name (update_records name (currentClock name db + 1) u)).
  rewrite records_of_others_update_records, app_nil_r.
  destruct (currentClock name db =? -1);
    [ apply writeStateVector_others | reflexivity ].
Qed.

End FlushSteps.

Lemma log_clocks_valid_nil (name : string) : log_clocks_valid name [].
Proof. intros n c p v []. Qed.

Lemma totalChunks_oversized_update :
  totalChunks MAX_DOCUMENT_SIZE oversized_update = 2.
Proof. unfold totalChunks. rewrite byteLength_oversized_update. reflexivity. Qed.

Lemma update_records_oversized_length (name : string) (c : Z) :
  List.length (update_records name c oversized_update) = 2%nat.
Proof.
  rewrite update_records_big by (rewrite byteLength_oversized_update; lia).
  rewrite totalChunks_oversized_update. reflexivity.
Qed.

(** C2, as stated, fails in two ways.  A consolidated update larger than the
    maximum record size is stored as several part records, so a flush leaves
    two update records, not one.  And when a record sits beyond the valid
    clock range (here at 4294967295 = oldMaxClock), the flush writes at clock
    0 instead of oldMaxClock + 1, deletes nothing, and leaves two records. *)
Lemma flushDocument_not_one_record :
  List.length
    (updates_of "doc1"
       (fst (flushDocument (Y := countEngine) "doc1" oversized_update [x01] [])))
  = 2%nat
  /\ snd (flushDocument (Y := countEngine) "doc1" [x02] [x03] log_beyond_valid_clocks)
     = 0
  /\ updates_of "doc1"
       (fst (flushDocument (Y := countEngine) "doc1" [x02] [x03] log_beyond_valid_clocks))
     = [UpdateDoc "doc1" 4294967295 None [x01]; UpdateDoc "doc1" 0 None [x02]].
Proof.
  split.
  - rewrite flushDocument_log by apply log_clocks_valid_nil.
    apply update_records_oversized_length.
  - split; vm_compute; reflexivity.
Qed.

(** C2 (amended): given a document whose stored update records all have valid
    clocks (in [0, BITS32), hence in [0, oldMaxClock] for the current clock
    oldMaxClock), [flushDocument] stores the consolidated update at the clock
    oldMaxClock + 1 as new records appended to the collection (one record
    when it fits the maximum record size, else its parts; no existing record
    is overwritten), then writes the state-vector record holding the encoding
    of that new clock, then deletes exactly the update records of the
    document with clock >= 0 and clock < newClock, and returns newClock;
    afterwards the update records of the document are exactly the records of
    the consolidated update at newClock (a single record when it fits), and
    the records of other documents are as before. *)
Theorem flushDocument_compacts {Y : Engine} (name : string)
    (stateAsUpdate stateVector : bytes) (db : DB) :
  log_clocks_valid name db ->
  let oldMaxClock := currentClock name db in
  let newClock := oldMaxClock + 1 in
  let db1 := fst (storeUpdate name stateAsUpdate db) in
  let db2 := writeStateVector name stateVector newClock db1 in
  let db3 := clearUpdatesRange name 0 newClock db2 in
  (forall n c p v, In (UpdateDoc n c p v) db -> n = name -> 0 <= c <= oldMaxClock)
  /\ flushDocument name stateAsUpdate stateVector db = (db3, newClock)
  /\ filter is_update db1
     = filter is_update db ++ update_records name newClock stateAsUpdate
  /\ state_vector_record name db2 = Some (encodeStateVector newClock stateVector)
  /\ (forall d, In d db3 <-> In d db2 /\ ~ in_cleared_range name 0 newClock d)
  /\ updates_of name db3 = update_records name newClock stateAsUpdate
  /\ (byteLength stateAsUpdate <= MAX_DOCUMENT_SIZE ->
      updates_of name db3 = [UpdateDoc name newClock None stateAsUpdate])
  /\ state_vector_record name db3 = Some (encodeStateVector newClock stateVector)
  /\ records_of_others name db3 = records_of_others name db.
Proof.
  intros Hvalid oldMaxClock newClock db1 db2 db3.
  assert (Hsteps : flushDocument name stateAsUpdate stateVector db = (db3, newClock))
    by apply flushDocument_steps.
  assert (Hlog : updates_of name db3 = update_records name newClock stateAsUpdate).
  { pose proof (flushDocument_log name stateAsUpdate stateVector db Hvalid) as H.
    now rewrite Hsteps in H. }
  split.
  { intros n c p v Hin ->. pose proof (Hvalid _ _ _ _ Hin eq_refl) as Hv.
    pose proof (currentClock_upper name db c p v Hin Hv).
    unfold valid_clock in Hv. apply andb_prop in Hv. destruct Hv as [Hlo _].
    apply Z.leb_le in Hlo. unfold oldMaxClock. lia. }
  split; [ exact Hsteps |].
  split; [ now apply storeUpdate_keeps_updates |].
  split; [ apply writeStateVector_record |].
  split; [ intros d; apply clearUpdatesRange_In |].
  split; [ exact Hlog |].
  split; [ intros Hfit; rewrite Hlog; now apply update_records_small |].
  split.
  - unfold db3. rewrite clearUpdatesRange_sv. apply writeStateVector_record.
  - pose proof (flushDocument_others name stateAsUpdate stateVector db Hvalid) as H.
    now rewrite Hsteps in H.
Qed.

Lemma log_ABC_valid : log_clocks_valid "doc1" log_ABC.
Proof.
  intros n c p v [H|[H|[H|[H|[]]]]] _; try discriminate;
    injection H as <- <- <- <-; reflexivity.
Qed.

(** The scenario of the specification: after the updates at clocks 0, 1, 2, a
    flush leaves exactly one update record, at clock 3. *)
Lemma flushDocument_compacts_witness :
  flushDocument (Y := countEngine) "doc1" [x0a; x0b; x0c] [x03] log_ABC
  = ([StateVectorDoc "doc1" (encodeStateVector 3 [x03]);
      UpdateDoc "doc1" 3 None [x0a; x0b; x0c]], 3)
  /\ updates_of "doc1"
       (fst (flushDocument (Y := countEngine) "doc1" [x0a; x0b; x0c] [x03] log_ABC))
     = [UpdateDoc "doc1" 3 None [x0a; x0b; x0c]].
Proof.
  pose proof (flushDocument_compacts (Y := countEngine) "doc1" [x0a; x0b; x0c] [x03]
                log_ABC log_ABC_valid) as H.
  cbv zeta in H. destruct H as (_ & Hsteps & _ & _ & _ & _ & Hone & _).
  split.
  - rewrite Hsteps. vm_compute. reflexivity.
  - rewrite Hsteps. cbn [fst]. apply Hone. vm_compute. discriminate.
Defined.

(** ** The log after a flush reads back as the consolidated update *)

Lemma sort_part_records (name : string) (c m : Z) (u : bytes) (k a : nat) :
  sort_docs (map (part_record name c m u) (map Z.of_nat (seq a k)))
  = map (part_record name c m u) (map Z.of_nat (seq a k)).
Proof.
  revert a. induction k as [|k IH]; intros a; [ reflexivity |].
  cbn [seq map sort_docs fold_right]. fold (sort_docs (map (part_record name c m u)
                                                    (map Z.of_nat (seq (S a) k)))).
  rewrite IH. destruct k as [|k']; [ reflexivity |].
  cbn [seq map insert_sorted]. rewrite !part_record_eq.
  unfold doc_leb. cbn [clock part opt_ltb opt_eqb].
  rewrite Z.ltb_irrefl, Z.eqb_refl. cbn [orb andb].
  destruct (Z.ltb_spec (Z.of_nat (S a) + 1) (Z.of_nat a + 1)); [ lia | reflexivity ].
Qed.

Lemma sort_update_records (name : string) (c : Z) (u : bytes) :
  sort_docs (update_records name c u) = update_records name c u.
Proof.
  destruct (Z.le_gt_cases (byteLength u) MAX_DOCUMENT_SIZE) as [Hs|Hb].
  - now rewrite update_records_small by exact Hs.
  - rewrite update_records_big by lia. apply sort_part_records.
Qed.

Lemma getMongoUpdates_updates_of (name : string) (db : DB) :
  getMongoUpdates name db = convertMongoUpdates (sort_docs (updates_of name db)).
Proof. reflexivity. Qed.

Lemma currentClock_updates_of (name : string) (db : DB) :
  currentClock name (updates_of name db) = currentClock name db.
Proof.
  unfold currentClock. f_equal. unfold valid_clocks, updates_of.
  induction db as [|d db IH]; [ reflexivity |].
  cbn [filter flat_map]. rewrite is_update_of_spec.
  destruct d as [n c p v| |]; try exact IH.
  rewrite (String.eqb_sym name n).
  destruct (String.eqb n name) eqn:E; cbn [flat_map andb app].
  - rewrite E. cbn [andb]. now rewrite IH.
  - exact IH.
Qed.

(** ** A flush never leaves the log empty *)

Lemma db_put_In_or_set (q : query) (v : bytes) (db : DB) (d : mongoDoc) :
  In d db -> In d (db_put q v db) \/ In (set_value d v) (db_put q v db).
Proof.
  intros Hin. unfold db_put.
  destruct (update_first q v db) as [db'|] eqn:E.
  - revert db' E. induction db as [|x db IH]; intros db' E; [ destruct Hin |].
    cbn in E. destruct (matches q x).
    + injection E as <-. destruct Hin as [->|Hin]; [ right; now left | left; now right ].
    + destruct (update_first q v db) as [db''|]; [| discriminate ].
      injection E as <-. destruct Hin as [->|Hin]; [ left; now left |].
      destruct (IH Hin db'' eq_refl); [ left | right ]; now right.
  - left. apply in_or_app. now left.
Qed.

Lemma db_put_keeps_match (q0 q : query) (v : bytes) (db : DB) :
  (exists d, In d db /\ matches q0 d = true) ->
  exists d, In d (db_put q v db) /\ matches q0 d = true.
Proof.
  intros (d & Hin & Hm).
  destruct (db_put_In_or_set q v db d Hin) as [H|H].
  - now exists d.
  - exists (set_value d v). split; [ exact H |]. now rewrite set_value_matches.
Qed.

Lemma db_put_has_match (q : query) (v : bytes) (db : DB) :
  matches q (doc_of_query q v) = true ->
  exists d, In d (db_put q v db) /\ matches q d = true.
Proof.
  intros Hnew. pose proof (head_filter_db_put q v db Hnew) as H.
  destruct (filter (matches q) (db_put q v db)) as [|d l] eqn:E; [ discriminate |].
  exists d. apply filter_In. rewrite E. now left.
Qed.

Lemma fold_puts_keep_match (q0 : query) (puts : list (query * bytes)) (db : DB) :
  (exists d, In d db /\ matches q0 d = true) ->
  exists d, In d (fold_left (fun acc p => db_put (fst p) (snd p) acc) puts db)
            /\ matches q0 d = true.
Proof.
  revert db. induction puts as [|[q v] puts IH]; intros db H; [ exact H |].
  cbn [fold_left fst snd]. apply IH. now apply db_put_keeps_match.
Qed.

Lemma update_puts_leave_record (name : string) (c : Z) (u : bytes) (db : DB) :
  exists d, In d (fold_left (fun acc p => db_put (fst p) (snd p) acc)
                    (update_puts name c u) db)
            /\ matches (createDocumentUpdateKey name (Some c)) d = true.
Proof.
  destruct (Z.le_gt_cases (byteLength u) MAX_DOCUMENT_SIZE) as [Hs|Hb].
  - rewrite update_puts_small_eq by exact Hs. cbn [fold_left fst snd].
    apply db_put_has_match. rewrite matches_update_key. cbn.
    now rewrite String.eqb_refl, Z.eqb_refl.
  - rewrite update_puts_big_eq by lia.
    pose proof (totalChunks_ge_2 _ u MAX_DOCUMENT_SIZE_pos ltac:(lia)) as H2.
    unfold indices.
    destruct (Z.to_nat (totalChunks MAX_DOCUMENT_SIZE u)) as [|k] eqn:Ek; [ lia |].
    cbn [seq map fold_left fst snd]. apply fold_puts_keep_match.
    destruct (db_put_has_match
                (with_part (createDocumentUpdateKey name (Some c)) (Z.of_nat 0 + 1))
                (chunk_at MAX_DOCUMENT_SIZE u (Z.of_nat 0)) db) as (d & Hin & Hm).
    + rewrite matches_part_key. cbn. now rewrite String.eqb_refl, Z.eqb_refl.
    + exists d. split; [ exact Hin |].
      rewrite matches_part_key in Hm. rewrite matches_update_key.
      destruct d as [n c' [p'|] v| |]; try discriminate.
      apply andb_prop in Hm. destruct Hm as [Hm _]. exact Hm.
Qed.

Section NeverEmpty.
Context {Y : Engine}.

(** Whatever the store holds, after [flushDocument] the document has an update
    record at the clock returned. *)
Lemma flushDocument_leaves_record (name : string) (u sv : bytes) (db : DB) :
  exists p v,
    In (UpdateDoc name (snd (flushDocument name u sv db)) p v)
       (updates_of name (fst (flushDocument name u sv db))).
Proof.
  rewrite flushDocument_steps. cbn [fst snd].
  set (c := currentClock name db + 1).
  assert (H1 : exists d, In d (fst (storeUpdate name u db))
                         /\ matches (createDocumentUpdateKey name (Some c)) d = true).
  { unfold storeUpdate. cbn [fst]. rewrite getCurrentUpdateClock_currentClock.
    apply update_puts_leave_record. }
  destruct (db_put_keeps_match _ (createDocumentStateVectorKey name)
              (writeVarUint c ++ writeVarUint8Array sv) _ H1) as (d & Hin & Hm).
  fold (writeStateVector name sv c (fst (storeUpdate name u db))) in Hin.
  rewrite matches_update_key in Hm.
  destruct d as [n c' p v| |]; try discriminate.
  apply andb_prop in Hm. destruct Hm as [Hn Hc].
  apply String.eqb_eq in Hn. apply Z.eqb_eq in Hc. subst n c'.
  exists p, v. unfold updates_of. apply filter_In. split.
  - apply clearUpdatesRange_In. split; [ exact Hin |].
    intros (c0 & p0 & v0 & Heq & Hrange). injection Heq as <- _ _. lia.
  - rewrite is_update_of_spec. apply String.eqb_refl.
Qed.

End NeverEmpty.

(** ** State Vector Cache: reading and freshness *)

Lemma readStateVector_record (name : string) (db : DB) :
  readStateVector name db =
  match state_vector_record name db with
  | None => Ok (None, -1)
  | Some cached =>
      do (sv, clock) <- decodeMongodbStateVector cached; Ok (Some sv, clock)
  end.
Proof.
  unfold readStateVector, state_vector_record.
  destruct (db_findOne (createDocumentStateVectorKey name) false db); reflexivity.
Qed.

Lemma cache_is_current_read (name : string) (db : DB) :
  cache_is_current name db
  <-> exists sv, readStateVector name db = Ok (Some sv, currentClock name db).
Proof.
  rewrite readStateVector_record. unfold cache_is_current. split.
  - intros (cached & sv & -> & Hdec). exists sv. now rewrite Hdec.
  - intros (sv & H). destruct (state_vector_record name db) as [cached|];
      [| discriminate ].
    exists cached. destruct (decodeMongodbStateVector cached) as [[sv' c]|] eqn:E;
      [| discriminate ].
    cbn in H. injection H as -> ->. now exists sv.
Qed.

Lemma transact_result {A} (name : string) (f : DB -> DB * result A)
    (this : MongodbPersistence.t) :
  chains_settled_well this ->
  snd (MongodbPersistence._transact name f this)
  = match snd (f (MongodbPersistence.db this)) with
    | Ok res => Fulfilled (Some res)
    | Err _ => Fulfilled None
    end
  /\ MongodbPersistence.db (fst (MongodbPersistence._transact name f this))
     = fst (f (MongodbPersistence.db this)).
Proof.
  intros Hok.
  destruct (SerializerFacts.transact_runs name f this (Hok name)) as (tr1 & _ & _ & Heq).
  rewrite Heq. destruct (f (MongodbPersistence.db this)) as [db' [res|err]];
    split; reflexivity.
Qed.

Section CacheFacts.
Context {Y : Engine}.

Lemma merge_and_flush_runs (name : string) (db : DB) (updates : list bytes) :
  getMongoUpdates name db = Ok updates ->
  MongodbPersistence.merge_and_flush name db
  = (fst (flushDocument name (fst (mergeUpdates updates)) (snd (mergeUpdates updates)) db),
     Ok (snd (mergeUpdates updates))).
Proof.
  intros Hread. unfold MongodbPersistence.merge_and_flush. rewrite Hread.
  destruct (mergeUpdates updates) as [update sv]. cbn [fst snd].
  destruct (flushDocument name update sv db). reflexivity.
Qed.

Lemma flushDocument_cache (name : string) (u sv : bytes) (db : DB) :
  state_vector_record name (fst (flushDocument name u sv db))
  = Some (encodeStateVector (currentClock name db + 1) sv).
Proof.
  rewrite flushDocument_steps. cbn [fst].
  rewrite clearUpdatesRange_sv. apply writeStateVector_record.
Qed.

Lemma flushDocument_currentClock (name : string) (u sv : bytes) (db : DB) :
  log_clocks_valid name db -> currentClock name db + 1 < BITS32 ->
  currentClock name (fst (flushDocument name u sv db)) = currentClock name db + 1.
Proof.
  intros Hvalid Hlt.
  rewrite <- currentClock_updates_of, flushDocument_log by exact Hvalid.
  apply currentClock_update_records.
  pose proof (currentClock_lower name db).
  unfold valid_clock. apply andb_true_intro.
  split; [ apply Z.leb_le | apply Z.ltb_lt ]; lia.
Qed.

End CacheFacts.


(** ** Compaction twice in a row *)

Section Idempotence.
Context {Y : Engine}.

(** After a flush of a log with valid clocks, reading the log gives the
    consolidated update as its single logical update. *)
Lemma getMongoUpdates_after_flush (name : string) (u sv : bytes) (db : DB) :
  log_clocks_valid name db ->
  getMongoUpdates name (fst (flushDocument name u sv db)) = Ok [u].
Proof.
  intros Hvalid.
  rewrite getMongoUpdates_updates_of, flushDocument_log by exact Hvalid.
  rewrite sort_update_records. apply convert_update_records.
Qed.

Lemma updates_of_flush_not_nil (name : string) (u sv : bytes) (db : DB) :
  updates_of name (fst (flushDocument name u sv db)) <> [].
Proof.
  destruct (flushDocument_leaves_record name u sv db) as (p & v & Hin).
  intros E. rewrite E in Hin. destruct Hin.
Qed.

End Idempotence.

(** C9 (compaction idempotence): after a flush the update log of the document
    is never empty, whatever the store held; and for every document whose log
    holds valid clocks and can be read, with an engine for which a document
    rebuilt from its own full-state update has the same state vector,
    flushing twice in succession with no update in between computes the same
    summary both times (the one of the full log) and stores it in the
    state-vector record both times. *)
Theorem flush_twice_same_summary {Y : Engine} (name : string) (db : DB) :
  (forall u sv, updates_of name (fst (flushDocument name u sv db)) <> [])
  /\ (forall updates,
        state_update_faithful Y ->
        log_clocks_valid name db ->
        getMongoUpdates name db = Ok updates ->
        let summary := snd (mergeUpdates updates) in
        let first := MongodbPersistence.merge_and_flush name db in
        let second := MongodbPersistence.merge_and_flush name (fst first) in
        snd first = Ok summary
        /\ snd second = Ok summary
        /\ (exists c1, state_vector_record name (fst first)
                       = Some (encodeStateVector c1 summary))
        /\ (exists c2, state_vector_record name (fst second)
                       = Some (encodeStateVector c2 summary))
        /\ updates_of name (fst first) <> []
        /\ updates_of name (fst second) <> []
        /\ (forall this,
              chains_settled_well this -> MongodbPersistence.db this = db ->
              MongodbPersistence.db (fst (MongodbPersistence.flushDocument name this))
              = fst first)).
Proof.
  split; [ intros u sv; apply updates_of_flush_not_nil |].
  intros updates Hengine Hvalid Hread summary first second.
  assert (Hfirst : first = (fst (flushDocument name (fst (mergeUpdates updates))
                                   summary db), Ok summary))
    by (apply merge_and_flush_runs; exact Hread).
  assert (Hread2 : getMongoUpdates name (fst first)
                   = Ok [fst (mergeUpdates updates)]).
  { rewrite Hfirst. cbn [fst]. now apply getMongoUpdates_after_flush. }
  assert (Hsame : snd (mergeUpdates [fst (mergeUpdates updates)]) = summary).
  { unfold summary, mergeUpdates. cbn [fst snd fold_left]. apply Hengine. }
  assert (Hsecond : second
                    = (fst (flushDocument name
                              (fst (mergeUpdates [fst (mergeUpdates updates)]))
                              summary (fst first)), Ok summary)).
  { unfold second. rewrite (merge_and_flush_runs name (fst first) _ Hread2).
    now rewrite Hsame. }
  split; [ now rewrite Hfirst |].
  split; [ now rewrite Hsecond |].
  split.
  { eexists. rewrite Hfirst. cbn [fst]. apply flushDocument_cache. }
  split.
  { eexists. rewrite Hsecond. cbn [fst]. apply flushDocument_cache. }
  split; [ rewrite Hfirst; cbn [fst]; apply updates_of_flush_not_nil |].
  split; [ rewrite Hsecond; cbn [fst]; apply updates_of_flush_not_nil |].
  intros this Hok Hdb. unfold MongodbPersistence.flushDocument.
  rewrite (proj2 (transact_result name _ this Hok)), Hdb.
  fold first. now rewrite Hfirst.
Qed.

Lemma countEngine_faithful : state_update_faithful countEngine.
Proof. intros d. reflexivity. Qed.

(** The scenario, flushed twice: the summary is the same both times. *)
Lemma flush_twice_same_summary_witness :
  snd (MongodbPersistence.merge_and_flush (Y := countEngine) "doc1" log_ABC)
  = Ok [x03]
  /\ snd (MongodbPersistence.merge_and_flush (Y := countEngine) "doc1"
            (fst (MongodbPersistence.merge_and_flush (Y := countEngine) "doc1" log_ABC)))
     = Ok [x03].
Proof.
  pose proof (proj2 (flush_twice_same_summary (Y := countEngine) "doc1" log_ABC)
                [[x0a]; [x0b]; [x0c]] countEngine_faithful log_ABC_valid eq_refl) as H.
  cbv zeta in H. destruct H as (H1 & H2 & _).
  split; [ exact H1 | exact H2 ].
Defined.

(** ** Bulk Writer: batching *)

Lemma retry_on_db (f : DB -> DB) (w : world) :
  retryMongoOperation emit_world (on_db f) 3 1000 w
  = ({| w_db := f (w_db w); w_log := w_log w |}, Ok tt).
Proof. reflexivity. Qed.

Lemma db_bulkPut_app (e1 e2 : obj (query * bytes)) (db : DB) :
  db_bulkPut (e1 ++ e2) db = db_bulkPut e2 (db_bulkPut e1 db).
Proof. unfold db_bulkPut. apply fold_left_app. Qed.

(** The batches cover the entries in order: whatever the pauses, the store
    ends as after one bulk write of the whole map. *)
Lemma bulkWriteWithConcurrency_db (m : obj (query * bytes)) (limit : Z) (w : world) :
  0 < limit ->
  snd (bulkWriteWithConcurrency m limit w) = Ok tt
  /\ w_db (fst (bulkWriteWithConcurrency m limit w)) = db_bulkPut m (w_db w).
Proof.
  intros Hlimit. unfold bulkWriteWithConcurrency.
  set (step := fun (st : world * Z * result unit) (i : Z) => _).
  set (L := Z.to_nat limit).
  assert (HL : (0 < L)%nat) by (unfold L; lia).
  assert (Hinv : forall k a w0 pending,
             w_db w0 = db_bulkPut (firstn (a * L) m) (w_db w) ->
             exists w1 pending1,
               fold_left step (map (fun j => j * limit) (map Z.of_nat (seq a k)))
                 (w0, pending, Ok tt)
               = (w1, pending1, Ok tt)
               /\ w_db w1 = db_bulkPut (firstn ((a + k) * L) m) (w_db w)).
  { induction k as [|k IH]; intros a w0 pending Hw0.
    - exists w0, pending. split; [ reflexivity |]. now rewrite Nat.add_0_r.
    - cbn [seq map fold_left].
      assert (Hstep : exists w1 pending1,
                 step (w0, pending, Ok tt) (Z.of_nat a * limit) = (w1, pending1, Ok tt)
                 /\ w_db w1 = db_bulkPut (firstn (S a * L) m) (w_db w)).
      { unfold step. rewrite retry_on_db.
        assert (Hdb : db_bulkPut
                        (firstn (Z.to_nat limit) (skipn (Z.to_nat (Z.of_nat a * limit)) m))
                        (w_db w0)
                      = db_bulkPut (firstn (S a * L) m) (w_db w)).
        { rewrite Hw0, <- db_bulkPut_app. f_equal.
          replace (Z.to_nat (Z.of_nat a * limit)) with (a * L)%nat by (unfold L; nia).
          fold L. rewrite firstn_skipn_add. f_equal. lia. }
        destruct (limit <=? pending + 1); eexists; eexists;
          (split; [ reflexivity | exact Hdb ]). }
      destruct Hstep as (w1 & pending1 & -> & Hw1).
      destruct (IH (S a) w1 pending1 Hw1) as (w2 & pending2 & Hfold & Hw2).
      exists w2, pending2. split; [ exact Hfold |].
      rewrite Hw2. f_equal. f_equal. lia. }
  unfold batch_starts, indices.
  set (B := Z.to_nat ((Z.of_nat (List.length m) + limit - 1) / limit)).
  destruct (Hinv B 0%nat w 0) as (w1 & pending1 & Hfold & Hw1); [ reflexivity |].
  rewrite Hfold. cbn [fst snd]. split; [ reflexivity |].
  rewrite Hw1. f_equal. apply firstn_all2.
  set (n := Z.of_nat (List.length m)).
  assert (Hdiv : n <= (n + limit - 1) / limit * limit).
  { pose proof (Z.div_mod (n + limit - 1) limit ltac:(lia)) as Hdm.
    pose proof (Z.mod_pos_bound (n + limit - 1) limit Hlimit). nia. }
  assert (0 <= (n + limit - 1) / limit) by (apply Z.div_pos; unfold n; lia).
  unfold B, L. fold n. cbn [Nat.add]. nia.
Qed.

Section BulkFacts.
Context {Y : Engine}.

(** Both bulk operations always return 0, and the store ends as after the
    bulk write of [stateVectorMap] followed by that of [updateMap]. *)
Lemma storeUpdates_db (updatesMap : obj bytes) (w : world) :
  snd (storeUpdates updatesMap w) = Ok 0
  /\ w_db (fst (storeUpdates updatesMap w))
     = db_bulkPut (snd (ingest_maps (-1) updatesMap))
         (db_bulkPut (fst (ingest_maps (-1) updatesMap)) (w_db w)).
Proof.
  unfold storeUpdates.
  destruct (ingest_maps (-1) updatesMap) as [svMap updMap]. cbn [fst snd].
  destruct (bulkWriteWithConcurrency_db svMap 50 w ltac:(lia)) as [Hr1 Hdb1].
  destruct (bulkWriteWithConcurrency svMap 50 w) as [w1 r1]. cbn [fst snd] in *.
  destruct (bulkWriteWithConcurrency_db updMap 50 w1 ltac:(lia)) as [Hr2 Hdb2].
  destruct (bulkWriteWithConcurrency updMap 50 w1) as [w2 r2]. cbn [fst snd] in *.
  subst r1 r2. cbn [fst snd]. split; [ reflexivity |]. now rewrite Hdb2, Hdb1.
Qed.

Lemma insertUpdates_db (updatesMap : obj bytes) (w : world) :
  snd (insertUpdates updatesMap w) = Ok 0
  /\ w_db (fst (insertUpdates updatesMap w))
     = db_bulkInsert (snd (ingest_maps (-1) updatesMap))
         (db_bulkInsert (fst (ingest_maps (-1) updatesMap)) (w_db w)).
Proof.
  unfold insertUpdates.
  destruct (ingest_maps (-1) updatesMap) as [svMap updMap]. cbn [fst snd].
  rewrite !retry_on_db. cbn. split; reflexivity.
Qed.

End BulkFacts.

(** ** Bulk ingestion with distinct record identifiers *)

Lemma obj_set_fresh {V} (k : string) (v : V) (o : obj V) :
  ~ In k (map fst o) -> obj_set k v o = o ++ [(k, v)].
Proof.
  induction o as [|[k' v'] o IH]; intros Hk; [ reflexivity |].
  cbn in *. destruct (String.eqb_spec k k') as [->|_]; [ tauto |].
  rewrite IH by tauto. reflexivity.
Qed.

Lemma fold_obj_set_fresh {V} (entries acc : obj V) :
  NoDup (map fst acc ++ map fst entries) ->
  fold_left (fun m e => obj_set (fst e) (snd e) m) entries acc = acc ++ entries.
Proof.
  revert acc. induction entries as [|[k v] entries IH]; intros acc Hnd.
  - now rewrite app_nil_r.
  - cbn [fold_left fst snd map] in *.
    rewrite obj_set_fresh.
    + rewrite IH; [ now rewrite <- app_assoc |].
      rewrite map_app. cbn [map fst]. rewrite <- app_assoc. exact Hnd.
    + apply NoDup_remove_2 in Hnd. intros Hin. apply Hnd.
      apply in_or_app. now left.
Qed.

Lemma db_bulkInsert_app (entries : obj (query * bytes)) (db : DB) :
  db_bulkInsert entries db = db ++ map doc_of_entry entries.
Proof.
  unfold db_bulkInsert. revert db.
  induction entries as [|e entries IH]; intros db; cbn [fold_left map].
  - now rewrite app_nil_r.
  - rewrite IH, <- app_assoc. reflexivity.
Qed.

Lemma update_entries_puts (d : string) (u : bytes) :
  map snd (update_entries (-1) d u) = update_puts d 0 u.
Proof.
  unfold update_entries, update_puts. change (-1 + 1) with 0.
  destruct (byteLength u <=? MAX_DOCUMENT_SIZE); [ reflexivity |].
  rewrite map_map. reflexivity.
Qed.

Section IngestFacts.
Context {Y : Engine}.

Lemma ingest_entry_fresh (svMap updMap : obj (query * bytes)) (e : string * bytes) :
  ~ In (fst e) (map fst svMap) ->
  NoDup (map fst updMap ++ map fst (update_entries (-1) (fst e) (snd e))) ->
  ingest_entry (-1) (svMap, updMap) e
  = (svMap ++ [state_vector_entry (-1) e],
     updMap ++ update_entries (-1) (fst e) (snd e)).
Proof.
  intros Hsv Hupd. destruct e as [d u]. cbn [fst snd] in *.
  unfold ingest_entry, update_entries in *. change (-1 =? -1) with true. cbv iota.
  rewrite obj_set_fresh by exact Hsv. f_equal.
  destruct (byteLength u <=? MAX_DOCUMENT_SIZE).
  - apply obj_set_fresh. cbn [map fst] in Hupd.
    apply NoDup_remove_2 in Hupd. now rewrite app_nil_r in Hupd.
  - set (f := fun i : Z => (part_key d i, _)) in *.
    rewrite <- (fold_obj_set_fresh (map f (indices (totalChunks MAX_DOCUMENT_SIZE u))) updMap)
      by exact Hupd.
    generalize (indices (totalChunks MAX_DOCUMENT_SIZE u)) as l. clear.
    intros l. revert updMap. induction l as [|i l IH]; intros updMap; [ reflexivity |].
    cbn [fold_left map]. apply IH.
Qed.

(** With distinct document names and distinct record identifiers, the two
    maps are the entries of the documents, in the order of the input. *)
Lemma ingest_maps_distinct (updatesMap : obj bytes) :
  NoDup (map fst updatesMap) ->
  NoDup (record_identifiers updatesMap) ->
  ingest_maps (-1) updatesMap
  = (map (state_vector_entry (-1)) updatesMap,
     flat_map (fun e => update_entries (-1) (fst e) (snd e)) updatesMap).
Proof.
  intros Hnames Hids. unfold ingest_maps.
  assert (H : forall m svMap updMap,
             NoDup (map fst svMap ++ map fst m) ->
             NoDup (map fst updMap ++ record_identifiers m) ->
             fold_left (ingest_entry (-1)) m (svMap, updMap)
             = (svMap ++ map (state_vector_entry (-1)) m,
                updMap ++ flat_map (fun e => update_entries (-1) (fst e) (snd e)) m)).
  { induction m as [|e m IH]; intros svMap updMap Hsv Hupd.
    - cbn. now rewrite !app_nil_r.
    - cbn [fold_left map flat_map record_identifiers] in *.
      fold (record_identifiers m) in Hupd.
      rewrite ingest_entry_fresh.
      + rewrite IH.
        * now rewrite <- !app_assoc.
        * rewrite map_app. cbn [map state_vector_entry fst].
          rewrite <- app_assoc. exact Hsv.
        * rewrite map_app, <- app_assoc. exact Hupd.
      + apply NoDup_remove_2 in Hsv. intros Hin. apply Hsv.
        apply in_or_app. now left.
      + rewrite app_assoc in Hupd. now apply NoDup_app_remove_r in Hupd. }
  apply (H updatesMap [] []); assumption.
Qed.

End IngestFacts.

Lemma db_put_keeps_filter (q q' : query) (v' : bytes) (db : DB) :
  disjoint_queries q' q ->
  matches q' (doc_of_query q' v') = true ->
  filter (matches q) (db_put q' v' db) = filter (matches q) db.
Proof.
  intros Hdis Hself. apply filter_db_put.
  - exact Hdis.
  - intros d Hd. rewrite set_value_matches. now apply Hdis.
  - now apply Hdis.
Qed.

(** After a bulk write, the record found under a locator of the map holds the
    value of its entry, provided every other entry has a locator that no
    record can match together with it. *)
Lemma db_bulkPut_head (entries : obj (query * bytes)) (q : query) (v : bytes) (db : DB) :
  matches q (doc_of_query q v) = true ->
  (forall e, In e entries ->
             matches (fst (snd e)) (doc_of_entry e) = true
             /\ (snd e = (q, v) \/ disjoint_queries (fst (snd e)) q)) ->
  (exists k, In (k, (q, v)) entries)
  \/ option_map value (head (filter (matches q) db)) = Some v ->
  option_map value (head (filter (matches q) (db_bulkPut entries db))) = Some v.
Proof.
  intros Hself. unfold db_bulkPut. revert db.
  induction entries as [|e entries IH]; intros db Hall Hcase.
  - destruct Hcase as [[k []]|H]; exact H.
  - cbn [fold_left]. apply IH; [ intros e' He'; apply Hall; now right |].
    destruct (Hall e (or_introl eq_refl)) as [Hmatch [Hsame|Hdis]].
    + right. rewrite Hsame. cbn [fst snd]. now apply head_filter_db_put.
    + destruct Hcase as [[k [Hk|Hk]]|H].
      * subst e. cbn [fst snd] in Hdis. exfalso.
        specialize (Hdis _ Hself). rewrite Hself in Hdis. discriminate.
      * left. now exists k.
      * right. rewrite db_put_keeps_filter; assumption.
Qed.

Lemma NoDup_fst_functional {A B} (l : list (A * B)) (a : A) (b b' : B) :
  NoDup (map fst l) -> In (a, b) l -> In (a, b') l -> b = b'.
Proof.
  induction l as [|[a0 b0] l IH]; intros Hnd H1 H2; [ destruct H1 |].
  cbn in Hnd. inversion Hnd as [|? ? Hnotin Hnd']; subst.
  destruct H1 as [H1|H1], H2 as [H2|H2].
  - congruence.
  - injection H1 as -> ->. exfalso. apply Hnotin.
    apply in_map_iff. now exists (a, b').
  - injection H2 as -> ->. exfalso. apply Hnotin.
    apply in_map_iff. now exists (a, b).
  - now apply IH.
Qed.

Lemma matches_docName (q : query) (d : string) (r : mongoDoc) :
  q_docName q = Some d -> matches q r = true -> docName r = d.
Proof.
  intros Hq Hm. unfold matches in Hm. rewrite Hq in Hm.
  apply andb_prop in Hm. destruct Hm as [Hm _].
  apply andb_prop in Hm. destruct Hm as [Hm _].
  apply andb_prop in Hm. destruct Hm as [_ Hm]. cbn in Hm.
  symmetry. now apply String.eqb_eq.
Qed.

Lemma disjoint_by_docName (q q' : query) (d d' : string) :
  q_docName q = Some d -> q_docName q' = Some d' -> d <> d' ->
  disjoint_queries q q'.
Proof.
  intros Hq Hq' Hne r Hm.
  destruct (matches q' r) eqn:Hm'; [| reflexivity ].
  exfalso. apply Hne.
  now rewrite <- (matches_docName q d r Hq Hm), <- (matches_docName q' d' r Hq' Hm').
Qed.

Section EntryFacts.
Context {Y : Engine}.

Lemma entries_of_shape (e : string * bytes) (x : string * (query * bytes)) :
  In x (entries_of e) ->
  q_docName (fst (snd x)) = Some (fst e)
  /\ matches (fst (snd x)) (doc_of_entry x) = true
  /\ (snd x = (createDocumentStateVectorKey (fst e),
               encodeStateVector (-1) (initialStateVector (snd e)))
      \/ (byteLength (snd e) <= MAX_DOCUMENT_SIZE
          /\ snd x = (createDocumentUpdateKey (fst e) (Some 0), snd e))
      \/ (MAX_DOCUMENT_SIZE < byteLength (snd e)
          /\ exists i, snd x = (with_part (createDocumentUpdateKey (fst e) (Some 0)) (i + 1),
                                chunk_at MAX_DOCUMENT_SIZE (snd e) i))).
Proof.
  destruct e as [d u]. cbn [fst snd]. intros [<-|Hx].
  - cbn [state_vector_entry fst snd]. split; [ reflexivity |]. split.
    + unfold doc_of_entry. cbn [fst snd]. rewrite matches_sv_key. cbn.
      apply String.eqb_refl.
    + now left.
  - unfold update_entries in Hx. change (-1 + 1) with 0 in Hx.
    cbn [fst snd] in Hx.
    destruct (byteLength u <=? MAX_DOCUMENT_SIZE) eqn:E;
      [ apply Z.leb_le in E; rename E into Hs
      | apply Z.leb_gt in E; rename E into Hb ].
    + destruct Hx as [<-|[]]. cbn [fst snd]. split; [ reflexivity |]. split.
      * unfold doc_of_entry. cbn [fst snd]. rewrite matches_update_key. cbn.
        now rewrite String.eqb_refl.
      * right. left. now split.
    + apply in_map_iff in Hx. destruct Hx as (i & <- & _). cbn [fst snd].
      split; [ reflexivity |]. split.
      * unfold doc_of_entry. cbn [fst snd]. rewrite matches_part_key. cbn.
        now rewrite String.eqb_refl, Z.eqb_refl.
      * right. right. split; [ lia |]. now exists i.
Qed.

(** Two entries of one document either carry the same locator and value or
    have locators that no record matches at once. *)
Lemma entries_of_same_doc (e : string * bytes) (x x' : string * (query * bytes)) :
  In x (entries_of e) -> In x' (entries_of e) ->
  snd x' = snd x \/ disjoint_queries (fst (snd x')) (fst (snd x)).
Proof.
  intros Hx Hx'.
  destruct (entries_of_shape e x Hx) as (_ & _ & Hk).
  destruct (entries_of_shape e x' Hx') as (_ & _ & Hk').
  destruct Hk as [Hk|[[Hs Hk]|[Hb (i & Hk)]]],
           Hk' as [Hk'|[[Hs' Hk']|[Hb' (i' & Hk')]]];
    rewrite Hk, Hk'; cbn [fst snd]; try lia;
    try (left; reflexivity);
    try (right; intros r Hm;
         rewrite ?matches_sv_key, ?matches_update_key, ?matches_part_key in *;
         destruct r as [n c [p|] v| |]; try discriminate; reflexivity).
  destruct (Z.eq_dec i i') as [->|Hne]; [ now left |].
  right. intros r Hm. rewrite matches_part_key in *.
  destruct r as [n c [p|] v| |]; try discriminate.
  apply andb_prop in Hm. destruct Hm as [_ Hp]. apply Z.eqb_eq in Hp.
  destruct (Z.eqb_spec (i + 1) p); [ lia |]. apply andb_false_r.
Qed.

Lemma entries_all_of (updatesMap : obj bytes) (x : string * (query * bytes)) :
  In x (map (state_vector_entry (-1)) updatesMap
        ++ flat_map (fun e => update_entries (-1) (fst e) (snd e)) updatesMap) ->
  exists e, In e updatesMap /\ In x (entries_of e).
Proof.
  intros Hx. apply in_app_or in Hx. destruct Hx as [Hx|Hx].
  - apply in_map_iff in Hx. destruct Hx as (e & <- & He). exists e. split; [ exact He |].
    now left.
  - apply in_flat_map in Hx. destruct Hx as (e & He & Hx). exists e.
    split; [ exact He |]. now right.
Qed.

(** [storeUpdates] with distinct identifiers: under every locator of a
    document of the input, the record found holds the value of the entry. *)
Lemma storeUpdates_found (updatesMap : obj bytes) (w : world)
    (e : string * bytes) (x : string * (query * bytes)) :
  NoDup (map fst updatesMap) ->
  NoDup (record_identifiers updatesMap) ->
  In e updatesMap -> In x (entries_of e) ->
  option_map value
    (db_findOne (fst (snd x)) false (w_db (fst (storeUpdates updatesMap w))))
  = Some (snd (snd x)).
Proof.
  intros Hnames Hids He Hx.
  rewrite (proj2 (storeUpdates_db updatesMap w)).
  rewrite ingest_maps_distinct by assumption. cbn [fst snd].
  rewrite <- db_bulkPut_app. unfold db_findOne.
  destruct (entries_of_shape e x Hx) as (Hname & Hself & _).
  apply db_bulkPut_head.
  - exact Hself.
  - intros x' Hx'. apply entries_all_of in Hx'. destruct Hx' as (e' & He' & Hx').
    destruct (entries_of_shape e' x' Hx') as (Hname' & Hself' & _).
    split; [ exact Hself' |].
    destruct (string_dec (fst e') (fst e)) as [Heq|Hne].
    + assert (e' = e) as ->.
      { destruct e as [d u], e' as [d' u']. cbn [fst] in Heq. subst d'.
        f_equal. eapply NoDup_fst_functional; eassumption. }
      destruct (entries_of_same_doc e x x' Hx Hx') as [Hsame|Hdis].
      * left. rewrite Hsame. now destruct (snd x).
      * now right.
    + right. eapply disjoint_by_docName; eassumption.
  - left. exists (fst x). destruct x as [k [q v]]. cbn [fst snd].
    destruct Hx as [Hx|Hx].
    + apply in_or_app. left. apply in_map_iff. exists e. split; [ now symmetry | exact He ].
    + apply in_or_app. right. apply in_flat_map. exists e. now split.
Qed.

(** [insertUpdates] with distinct identifiers: the record of every entry of a
    document of the input is in the store. *)
Lemma insertUpdates_inserted (updatesMap : obj bytes) (w : world)
    (e : string * bytes) (x : string * (query * bytes)) :
  NoDup (map fst updatesMap) ->
  NoDup (record_identifiers updatesMap) ->
  In e updatesMap -> In x (entries_of e) ->
  In (doc_of_entry x) (w_db (fst (insertUpdates updatesMap w))).
Proof.
  intros Hnames Hids He Hx.
  rewrite (proj2 (insertUpdates_db updatesMap w)).
  rewrite ingest_maps_distinct by assumption. cbn [fst snd].
  rewrite !db_bulkInsert_app, <- app_assoc. apply in_or_app. right.
  rewrite <- map_app. apply in_map.
  destruct Hx as [<-|Hx]; apply in_or_app.
  - left. now apply in_map.
  - right. apply in_flat_map. exists e. now split.
Qed.

End EntryFacts.

(** Bulk ingestion when the record identifiers derived from the input are
    pairwise distinct: both operations return 0 whatever the store holds;
    [storeUpdates] leaves, under the state-vector key of every document, the
    encoding of clock -1 (the byte 127) and of the initial state vector, and
    under every locator of its update (clock 0, parts from 1) the value;
    [insertUpdates] inserts the same records. *)
Lemma bulk_ingestion_distinct_identifiers {Y : Engine} (updatesMap : obj bytes)
    (w : world) (d : string) (u : bytes) :
  NoDup (map fst updatesMap) ->
  NoDup (record_identifiers updatesMap) ->
  In (d, u) updatesMap ->
  snd (storeUpdates updatesMap w) = Ok 0
  /\ snd (insertUpdates updatesMap w) = Ok 0
  /\ state_vector_record d (w_db (fst (storeUpdates updatesMap w)))
     = Some (encodeStateVector (-1) (initialStateVector u))
  /\ (forall q v, In (q, v) (update_puts d 0 u) ->
        option_map value (db_findOne q false (w_db (fst (storeUpdates updatesMap w))))
        = Some v)
  /\ In (StateVectorDoc d (encodeStateVector (-1) (initialStateVector u)))
        (w_db (fst (insertUpdates updatesMap w)))
  /\ (forall r, In r (update_records d 0 u) ->
        In r (w_db (fst (insertUpdates updatesMap w))))
  /\ writeVarUint (-1) = [x7f].
Proof.
  intros Hnames Hids Hin.
  split; [ apply storeUpdates_db |].
  split; [ apply insertUpdates_db |].
  split.
  { apply (storeUpdates_found updatesMap w (d, u) (state_vector_entry (-1) (d, u)));
      try assumption. now left. }
  split.
  { intros q v Hq. rewrite <- update_entries_puts in Hq.
    apply in_map_iff in Hq. destruct Hq as (x & Hx & Hxin).
    pose proof (storeUpdates_found updatesMap w (d, u) x Hnames Hids Hin
                  (or_intror Hxin)) as H.
    now rewrite Hx in H. }
  split.
  { apply (insertUpdates_inserted updatesMap w (d, u) (state_vector_entry (-1) (d, u)));
      try assumption. now left. }
  split.
  { intros r Hr. unfold update_records in Hr. rewrite <- update_entries_puts in Hr.
    rewrite map_map in Hr. apply in_map_iff in Hr. destruct Hr as (x & <- & Hxin).
    apply (insertUpdates_inserted updatesMap w (d, u) x Hnames Hids Hin).
    now right. }
  rewrite writeVarUint_small by (unfold BITS7; lia). reflexivity.
Qed.

(** ** Bulk ingestion: colliding record identifiers *)

Section Collision.
Context {Y : Engine}.

Lemma ingest_maps_collision (big : bytes) :
  MAX_DOCUMENT_SIZE < byteLength big ->
  totalChunks MAX_DOCUMENT_SIZE big = 2 ->
  ingest_maps (-1) [("a"%string, big); ("a-part1"%string, [x00; x00])]
  = ([("a"%string,
       (createDocumentStateVectorKey "a",
        encodeStateVector (-1) (initialStateVector big)));
      ("a-part1"%string,
       (createDocumentStateVectorKey "a-part1",
        encodeStateVector (-1) (initialStateVector [x00; x00])))],
     [("a-part1"%string, (createDocumentUpdateKey "a-part1" (Some 0), [x00; x00]));
      ("a-part2"%string,
       (with_part (createDocumentUpdateKey "a" (Some 0)) 2,
        chunk_at MAX_DOCUMENT_SIZE big 1))]).
Proof.
  intros Hbig Htotal. unfold ingest_maps. cbn [fold_left].
  unfold ingest_entry at 2.
  destruct (Z.leb_spec (byteLength big) MAX_DOCUMENT_SIZE) as [Hle|_]; [ lia |].
  rewrite Htotal. change (indices 2) with [0; 1].
  change (-1 =? -1) with true. cbn [fold_left obj_set].
  change (part_key "a" 0) with "a-part1"%string.
  change (part_key "a" 1) with "a-part2"%string.
  generalize (chunk_at MAX_DOCUMENT_SIZE big 0) as c0.
  generalize (chunk_at MAX_DOCUMENT_SIZE big 1) as c1.
  generalize (encodeStateVector (-1) (initialStateVector big)) as sv0.
  intros sv0 c1 c0. reflexivity.
Qed.

Lemma collision_drops_first_part (big : bytes) (w : world) :
  MAX_DOCUMENT_SIZE < byteLength big ->
  totalChunks MAX_DOCUMENT_SIZE big = 2 ->
  w_db w = [] ->
  let lost := with_part (createDocumentUpdateKey "a" (Some 0)) 1 in
  db_find lost
    (w_db (fst (storeUpdates [("a"%string, big); ("a-part1"%string, [x00; x00])] w))) = []
  /\ db_find lost
       (w_db (fst (insertUpdates [("a"%string, big); ("a-part1"%string, [x00; x00])] w))) = []
  /\ getMongoUpdates "a"
       (w_db (fst (storeUpdates [("a"%string, big); ("a-part1"%string, [x00; x00])] w)))
     = Ok []
  /\ getMongoUpdates "a"
       (w_db (fst (insertUpdates [("a"%string, big); ("a-part1"%string, [x00; x00])] w)))
     = Ok [].
Proof.
  intros Hbig Htotal Hw lost.
  rewrite (proj2 (storeUpdates_db _ w)), (proj2 (insertUpdates_db _ w)).
  rewrite (ingest_maps_collision big Hbig Htotal), Hw. cbn [fst snd].
  generalize (chunk_at MAX_DOCUMENT_SIZE big 1) as c1.
  generalize (encodeStateVector (-1) (initialStateVector big)) as sv0.
  generalize (encodeStateVector (-1) (initialStateVector [x00; x00])) as sv1.
  intros sv1 sv0 c1. repeat split; reflexivity.
Qed.

End Collision.

(** C10 (colliding identifiers), for every engine: in the input map below the
    document "a" has an update of 15000001 bytes, which is split in two parts,
    and another document is named "a-part1".  The identifier of the first
    part of "a" in [updateMap] is "a-part1" too, so the entry of the second
    document takes its place: neither [storeUpdates] nor [insertUpdates]
    stores part 1 of the update of "a", although it is one of the records of
    that update.  Both return 0 all the same, and the log of "a" then reads
    as no update at all: its part 2 stands without a part 1 and is skipped. *)
Theorem bulk_ingestion_identifier_collision {Y : Engine} :
  let lost := with_part (createDocumentUpdateKey "a" (Some 0)) 1 in
  let stored := w_db (fst (storeUpdates colliding_updatesMap empty_world)) in
  let inserted := w_db (fst (insertUpdates colliding_updatesMap empty_world)) in
  In (part_record "a" 0 MAX_DOCUMENT_SIZE oversized_update 0)
     (update_records "a" 0 oversized_update)
  /\ matches lost (part_record "a" 0 MAX_DOCUMENT_SIZE oversized_update 0) = true
  /\ map fst (snd (ingest_maps (-1) colliding_updatesMap))
     = ["a-part1"%string; "a-part2"%string]
  /\ db_find lost stored = []
  /\ db_find lost inserted = []
  /\ snd (storeUpdates colliding_updatesMap empty_world) = Ok 0
  /\ snd (insertUpdates colliding_updatesMap empty_world) = Ok 0
  /\ getMongoUpdates "a" stored = Ok []
  /\ getMongoUpdates "a" inserted = Ok [].
Proof.
  intros lost stored inserted. subst stored inserted.
  assert (Hbig : MAX_DOCUMENT_SIZE < byteLength oversized_update)
    by (rewrite byteLength_oversized_update; lia).
  pose proof totalChunks_oversized_update as Htotal.
  pose proof (ingest_maps_collision oversized_update Hbig Htotal) as Hmaps.
  pose proof (collision_drops_first_part oversized_update
                empty_world Hbig Htotal eq_refl) as Hlost.
  cbv zeta in Hlost. destruct Hlost as (Hstore & Hinsert & Hread1 & Hread2).
  unfold colliding_updatesMap.
  split.
  { rewrite update_records_big by exact Hbig. rewrite Htotal. left. reflexivity. }
  split; [ reflexivity |].
  split; [ exact (f_equal (fun p => map fst (snd p)) Hmaps) |].
  split; [ exact Hstore |].
  split; [ exact Hinsert |].
  split; [ apply storeUpdates_db |].
  split; [ apply insertUpdates_db |].
  split; [ exact Hread1 | exact Hread2 ].
Qed.


(** * Further properties of the code *)

(** ** Chunk Codec: logs without split updates *)

(** X1: records that carry no part number (or the part number 0, which is
    falsy) are one logical update each: the merge returns their values in the
    order of the records, and the empty sequence gives the empty list. *)
Theorem convertMongoUpdates_unflagged (docs : list mongoDoc) :
  Forall (fun d => part_truthy (part d) = false) docs ->
  convertMongoUpdates docs = Ok (map value docs).
Proof.
  unfold convertMongoUpdates. induction 1 as [|d docs Hd _ IH]; [ reflexivity |].
  cbn [convert_loop map]. rewrite Hd. cbn [negb]. now rewrite IH.
Qed.

Lemma convertMongoUpdates_unflagged_witness :
  convertMongoUpdates
    [UpdateDoc "doc1" 0 None [x0a]; UpdateDoc "doc1" 1 (Some 0) [x0b];
     UpdateDoc "doc1" 2 None [x0c]]
  = Ok [[x0a]; [x0b]; [x0c]].
Proof.
  apply (convertMongoUpdates_unflagged
           [UpdateDoc "doc1" 0 None [x0a]; UpdateDoc "doc1" 1 (Some 0) [x0b];
            UpdateDoc "doc1" 2 None [x0c]]).
  repeat constructor.
Defined.


(** ** State Vector Cache codec: damaged values *)

(** Every byte that [writeVarUint] writes before the last one carries the
    continuation flag, so the reading loop cannot finish on a proper prefix. *)
Lemma readVarUint_loop_truncated (n : Z) :
  0 <= n ->
  forall num mult k,
    (k < List.length (writeVarUint n))%nat ->
    exists e, readVarUint_loop num mult (firstn k (writeVarUint n)) = Err e.
Proof.
  induction n as [n IH] using (well_founded_induction (Z.lt_wf 0)).
  intros Hn num mult k Hk.
  pose proof (Z.mod_pos_bound n 128 ltac:(lia)) as Hmod.
  destruct (Z_lt_dec BITS7 n) as [Hbig|Hsmall].
  - rewrite writeVarUint_big in * by exact Hbig.
    destruct k as [|k]; [ now eexists |].
    cbn [firstn readVarUint_loop List.length] in *.
    rewrite land_BITS7, lor_BIT8 by exact Hmod.
    rewrite byte_val_of_Z by lia.
    unfold BIT8 at 1.
    destruct (Z.ltb_spec (128 + n mod 128) 128); [ lia |].
    match goal with |- context [MAX_SAFE_INTEGER <? ?x] =>
      destruct (MAX_SAFE_INTEGER <? x) end; [ now eexists |].
    unfold BITS7 in Hbig.
    assert (0 <= n / 128) by (apply Z.div_pos; lia).
    assert (n / 128 < n) by (apply Z.div_lt; lia).
    apply IH; lia.
  - rewrite writeVarUint_small in * by lia. cbn [List.length] in Hk.
    assert (k = 0%nat) as -> by lia. now eexists.
Qed.

Lemma firstn_app_short {A} (k : nat) (a b : list A) :
  (k < List.length a)%nat -> firstn k (a ++ b) = firstn k a.
Proof.
  intros Hk. rewrite firstn_app.
  replace (k - List.length a)%nat with 0%nat by lia.
  cbn. apply app_nil_r.
Qed.

Lemma firstn_app_long {A} (k : nat) (a b : list A) :
  (List.length a <= k)%nat -> firstn k (a ++ b) = a ++ firstn (k - List.length a) b.
Proof.
  intros Hk. rewrite firstn_app. f_equal. now apply firstn_all2.
Qed.

Lemma readUint8Array_in_nil (dec : bytes) (len : Z) :
  readUint8Array_in [] dec len = readUint8Array dec len.
Proof.
  unfold readUint8Array_in, readUint8Array. cbn [List.length].
  now rewrite Nat.add_0_r, app_nil_r.
Qed.

Lemma decodeMongodbStateVector_in_nil (buf : bytes) :
  decodeMongodbStateVector_in [] buf = decodeMongodbStateVector buf.
Proof.
  unfold decodeMongodbStateVector_in, decodeMongodbStateVector,
    readVarUint8Array_in, readVarUint8Array.
  destruct (readVarUint buf) as [[clock dec]|]; [| reflexivity ]. cbn [bind].
  destruct (readVarUint dec) as [[len dec']|]; [| reflexivity ]. cbn [bind].
  now rewrite readUint8Array_in_nil.
Qed.

(** A read that succeeds on the array alone gives the same result whatever
    lies behind the array. *)
Lemma readUint8Array_in_complete (beyond dec : bytes) (len : Z) (r : bytes * bytes) :
  readUint8Array dec len = Ok r -> readUint8Array_in beyond dec len = Ok r.
Proof.
  unfold readUint8Array, readUint8Array_in. intros H.
  destruct (Z.ltb_spec (Z.of_nat (List.length dec)) len) as [|Hle]; [ discriminate |].
  injection H as <-.
  destruct (Z.ltb_spec (Z.of_nat (List.length dec + List.length beyond)) len); [ lia |].
  rewrite firstn_app.
  replace (Z.to_nat len - List.length dec)%nat with 0%nat by lia.
  cbn [firstn]. now rewrite app_nil_r.
Qed.

Lemma decodeMongodbStateVector_in_complete (beyond buf : bytes) (r : bytes * Z) :
  decodeMongodbStateVector buf = Ok r -> decodeMongodbStateVector_in beyond buf = Ok r.
Proof.
  unfold decodeMongodbStateVector_in, decodeMongodbStateVector,
    readVarUint8Array_in, readVarUint8Array.
  destruct (readVarUint buf) as [[clock dec]|]; [| discriminate ]. cbn [bind].
  destruct (readVarUint dec) as [[len dec']|]; [| discriminate ]. cbn [bind].
  destruct (readUint8Array dec' len) as [[sv rest]|] eqn:E; [| discriminate ].
  rewrite (readUint8Array_in_complete beyond dec' len _ E). exact (fun H => H).
Qed.



(** X4: the decoder reads one clock and one length-prefixed vector and then
    stops: bytes that follow a complete encoding are ignored, and the clock and
    the vector come back unchanged. *)
Theorem decodeMongodbStateVector_trailing (clock : Z) (sv extra : bytes) :
  0 <= clock <= MAX_SAFE_INTEGER ->
  byteLength sv <= MAX_SAFE_INTEGER ->
  decodeMongodbStateVector (encodeStateVector clock sv ++ extra) = Ok (sv, clock).
Proof.
  intros Hclock Hsv. unfold decodeMongodbStateVector, encodeStateVector.
  rewrite <- app_assoc.
  rewrite readVarUint_writeVarUint by exact Hclock. cbn [bind].
  rewrite readVarUint8Array_writeVarUint8Array by exact Hsv. reflexivity.
Qed.

Lemma decodeMongodbStateVector_trailing_witness :
  decodeMongodbStateVector (encodeStateVector 300 [x01; x02] ++ [xff; xff])
  = Ok ([x01; x02], 300).
Proof.
  apply (decodeMongodbStateVector_trailing 300 [x01; x02] [xff; xff]).
  - unfold MAX_SAFE_INTEGER. lia.
  - vm_compute. discriminate.
Defined.

(** ** Update Log: reading after appending *)

Lemma absorb_parts_length (c0 : option Z) (l : list mongoDoc) :
  forall cur more, absorb_parts c0 cur l = Ok more ->
                   (List.length more <= List.length l)%nat.
Proof.
  induction l as [|p rest IH]; intros cur more H; cbn in H.
  - injection H as <-. cbn. lia.
  - destruct (part_truthy (part p) && opt_eqb (clock p) c0);
      [| injection H as <-; cbn; lia ].
    destruct (part p) as [n|]; [| injection H as <-; cbn; lia ].
    destruct (negb (cur =? n - 1)); [ discriminate |].
    destruct (absorb_parts c0 n rest) as [more'|] eqn:E; [| discriminate ].
    injection H as <-. cbn. specialize (IH n more' E). lia.
Qed.

Lemma absorb_parts_app (c0 : option Z) (R : list mongoDoc) :
  starts_elsewhere c0 R ->
  forall rest cur, absorb_parts c0 cur (rest ++ R) = absorb_parts c0 cur rest.
Proof.
  intros HR. induction rest as [|p rest IH]; intros cur.
  - cbn [app]. destruct R as [|r R']; [ reflexivity |].
    cbn in *. rewrite HR, andb_false_r. reflexivity.
  - cbn [app absorb_parts].
    destruct (part_truthy (part p) && opt_eqb (clock p) c0); [| reflexivity ].
    destruct (part p) as [n|]; [| reflexivity ].
    destruct (negb (cur =? n - 1)); [ reflexivity |].
    now rewrite IH.
Qed.

(** Merging a sequence followed by records of another clock merges the two
    pieces independently. *)
Lemma convert_loop_app (R : list mongoDoc) :
  forall S skip,
    (forall d, In d S -> starts_elsewhere (clock d) R) ->
    (skip <= List.length S)%nat ->
    convert_loop skip (S ++ R)
    = do a <- convert_loop skip S; do b <- convert_loop 0 R; Ok (a ++ b).
Proof.
  induction S as [|d rest IH]; intros skip HS Hskip.
  - cbn in Hskip. assert (skip = 0%nat) as -> by lia.
    cbn [app convert_loop bind]. now destruct (convert_loop 0 R).
  - assert (HS' : forall d', In d' rest -> starts_elsewhere (clock d') R)
      by (intros d' Hd'; apply HS; now right).
    cbn [app convert_loop]. destruct skip as [|k].
    + destruct (negb (part_truthy (part d))).
      * rewrite IH by (auto; lia).
        destruct (convert_loop 0 rest), (convert_loop 0 R); reflexivity.
      * destruct (opt_eqb (part d) (Some 1)); [| apply IH; auto; lia ].
        rewrite absorb_parts_app by (apply HS; now left).
        destruct (absorb_parts (clock d) 1 rest) as [more|] eqn:E; [| reflexivity ].
        cbn [bind]. rewrite IH by (auto; eapply absorb_parts_length; eauto).
        destruct (convert_loop (List.length more) rest), (convert_loop 0 R);
          reflexivity.
    + apply IH; [ auto | cbn in Hskip; lia ].
Qed.

Lemma insert_sorted_app (d : mongoDoc) (R : list mongoDoc) :
  sorts_before d R ->
  forall s, insert_sorted d (s ++ R) = insert_sorted d s ++ R.
Proof.
  intros Hd. induction s as [|x s IH].
  - destruct R as [|r R']; [ reflexivity |]. cbn in *. now rewrite Hd.
  - cbn [app insert_sorted]. destruct (doc_leb d x); [ reflexivity |].
    now rewrite IH.
Qed.

Lemma sort_docs_app (l R : list mongoDoc) :
  sort_docs R = R ->
  (forall d, In d l -> sorts_before d R) ->
  sort_docs (l ++ R) = sort_docs l ++ R.
Proof.
  intros HR. unfold sort_docs in *. rewrite fold_right_app, HR.
  induction l as [|d l IH]; intros Hl; [ reflexivity |].
  cbn [fold_right]. rewrite IH by (intros d' Hd'; apply Hl; now right).
  apply insert_sorted_app. apply Hl. now left.
Qed.

Lemma In_insert_sorted (x d : mongoDoc) (l : list mongoDoc) :
  In x (insert_sorted d l) <-> x = d \/ In x l.
Proof.
  induction l as [|y l IH]; cbn.
  - intuition congruence.
  - destruct (doc_leb d y); cbn; [ intuition congruence |].
    rewrite IH. intuition congruence.
Qed.

Lemma In_sort_docs (x : mongoDoc) (l : list mongoDoc) :
  In x (sort_docs l) <-> In x l.
Proof.
  unfold sort_docs. induction l as [|d l IH]; cbn; [ tauto |].
  rewrite In_insert_sorted, IH. intuition congruence.
Qed.

Lemma writeStateVector_updates_of (name n : string) (sv : bytes) (c : Z) (db : DB) :
  updates_of n (writeStateVector name sv c db) = updates_of n db.
Proof.
  unfold writeStateVector, updates_of. apply filter_db_put.
  - intros d Hd. rewrite matches_sv_key in Hd. rewrite is_update_of_spec.
    destruct d; [ discriminate | | ]; reflexivity.
  - intros d Hd. rewrite matches_sv_key in Hd. rewrite is_update_of_spec.
    destruct d; [ discriminate | | ]; reflexivity.
  - reflexivity.
Qed.

(** X2: a broken part sequence is detected wherever it sits.  After records
    that merge without error and have other clocks, a split update that begins
    with its part 1, continues with the parts 2, 3, ... and is then followed
    by a flagged record of the same clock whose part number is not the next
    one (a part is missing or repeated) makes the whole merge fail with the
    'part is missing' error, whatever comes after. *)
Theorem convertMongoUpdates_broken_sequence (name : string) (c n : Z) (v1 : bytes)
    (vs : list bytes) (v : bytes) (pre post : list mongoDoc) (us : list bytes) :
  n <> 0 -> n <> 2 + Z.of_nat (List.length vs) ->
  convertMongoUpdates pre = Ok us ->
  (forall d, In d pre -> clock d <> Some c) ->
  convertMongoUpdates
    (pre ++ update_doc name c (Some 1) v1
         :: numbered_parts name c 2 vs ++ update_doc name c (Some n) v :: post)
  = Err CorruptChunkSequence.
Proof.
  intros Hn Hgap Hpre Hclock. unfold convertMongoUpdates in *.
  rewrite convert_loop_app.
  - rewrite Hpre. cbn [bind].
    pose proof (convertMongoUpdates_gap_detected name c n v1 vs v post Hn Hgap) as H.
    unfold convertMongoUpdates in H. now rewrite H.
  - intros d Hd. specialize (Hclock d Hd). cbn.
    destruct (clock d) as [c'|]; [| reflexivity ].
    cbn. apply Z.eqb_neq. congruence.
  - lia.
Qed.

Lemma convertMongoUpdates_broken_sequence_witness :
  convertMongoUpdates
    ([UpdateDoc "doc1" 4 None [x00]]
       ++ [UpdateDoc "doc1" 5 (Some 1) [x01]; UpdateDoc "doc1" 5 (Some 2) [x02];
           UpdateDoc "doc1" 5 (Some 4) [x04]; UpdateDoc "doc1" 6 None [x06]])
  = Err CorruptChunkSequence.
Proof.
  apply (convertMongoUpdates_broken_sequence "doc1" 5 4 [x01] [[x02]] [x04]
           [UpdateDoc "doc1" 4 None [x00]] [UpdateDoc "doc1" 6 None [x06]] [[x00]]).
  - discriminate.
  - discriminate.
  - reflexivity.
  - intros d [<-|[]]. discriminate.
Defined.

Section ReadAfterAppend.
Context {Y : Engine}.

Lemma getMongoUpdates_storeUpdate (name : string) (u : bytes) (db : DB)
    (us : list bytes) :
  log_clocks_valid name db ->
  getMongoUpdates name db = Ok us ->
  getMongoUpdates name (fst (storeUpdate name u db)) = Ok (us ++ [u]).
Proof.
  intros Hvalid Hread.
  rewrite getMongoUpdates_updates_of in *.
  rewrite storeUpdate_appends by (now right). cbn [fst].
  rewrite updates_of_app, updates_of_update_records.
  match goal with
  | |- context [updates_of name ?x ++ _] =>
      assert (updates_of name x = updates_of name db) as ->
        by (destruct (currentClock name db =? -1);
            [ apply writeStateVector_updates_of | reflexivity ])
  end.
  set (c := currentClock name db) in *.
  destruct (update_records_shape name (c + 1) u) as [Hne Hall].
  assert (Hold : forall d, In d (updates_of name db) ->
                           exists c' p v, d = UpdateDoc name c' p v /\ c' <= c).
  { intros d Hd. apply filter_In in Hd. destruct Hd as [Hin Hd].
    rewrite is_update_of_spec in Hd. destruct d as [n c' p v| |]; try discriminate.
    apply String.eqb_eq in Hd. subst n. exists c', p, v. split; [ reflexivity |].
    eapply currentClock_upper; [ exact Hin |]. eapply Hvalid; eauto. }
  rewrite sort_docs_app.
  - unfold convertMongoUpdates in *. rewrite convert_loop_app.
    + rewrite Hread. cbn [bind].
      change (convert_loop 0 (update_records name (c + 1) u))
        with (convertMongoUpdates (update_records name (c + 1) u)).
      now rewrite convert_update_records.
    + intros d Hd. apply (proj1 (In_sort_docs _ _)) in Hd.
      destruct (Hold d Hd) as (c' & p & v & -> & Hc').
      destruct (update_records name (c + 1) u) as [|r R]; [ exact I |].
      destruct (Hall r (or_introl eq_refl)) as (p' & v' & ->).
      cbn. apply Z.eqb_neq. lia.
    + lia.
  - apply sort_update_records.
  - intros d Hd. destruct (Hold d Hd) as (c' & p & v & -> & Hc').
    destruct (update_records name (c + 1) u) as [|r R]; [ exact I |].
    destruct (Hall r (or_introl eq_refl)) as (p' & v' & ->).
    cbn. unfold doc_leb. cbn.
    destruct (Z.ltb_spec c' (c + 1)); [ reflexivity | lia ].
Qed.

Lemma storeUpdate_keeps_valid (name : string) (u : bytes) (db : DB) :
  log_clocks_valid name db -> currentClock name db + 1 < BITS32 ->
  log_clocks_valid name (fst (storeUpdate name u db)).
Proof.
  intros Hvalid Hlt n c p v Hin Hn.
  rewrite storeUpdate_appends in Hin by (now right). cbn [fst] in Hin.
  apply in_app_or in Hin. destruct Hin as [Hin|Hin].
  - apply (Hvalid n c p v); [| exact Hn ].
    destruct (currentClock name db =? -1); [| exact Hin ].
    now apply writeStateVector_In_update in Hin.
  - destruct (update_records_shape name (currentClock name db + 1) u) as [_ Hall].
    destruct (Hall _ Hin) as (p' & v' & E). injection E as _ -> _ _.
    pose proof (currentClock_lower name db).
    unfold valid_clock. apply andb_true_intro.
    split; [ apply Z.leb_le | apply Z.ltb_lt ]; lia.
Qed.

End ReadAfterAppend.

Lemma getMongoUpdates_append_all {Y : Engine} (name : string)
    (us before : list bytes) (db : DB) :
  log_clocks_valid name db ->
  getMongoUpdates name db = Ok before ->
  currentClock name db + Z.of_nat (List.length us) < BITS32 ->
  getMongoUpdates name (fst (append_all name us db)) = Ok (before ++ us).
Proof.
  revert before db. induction us as [|u us IH]; intros before db Hvalid Hread Hbound.
  - cbn. now rewrite app_nil_r.
  - cbn [append_all].
    pose proof (getMongoUpdates_storeUpdate name u db before Hvalid Hread) as H1.
    assert (Hlt : currentClock name db + 1 < BITS32)
      by (cbn [List.length] in Hbound; lia).
    pose proof (storeUpdate_keeps_valid name u db Hvalid Hlt) as H2.
    pose proof (storeUpdate_advances name u db Hlt) as H3.
    destruct (storeUpdate name u db) as [db1 c]. cbn [fst] in *.
    specialize (IH (before ++ [u]) db1 H2 H1).
    destruct (append_all name us db1) as [db2 cs]. cbn [fst] in *.
    rewrite IH by (rewrite H3; cbn [List.length] in Hbound; lia).
    now rewrite <- app_assoc.
Qed.

Lemma append_all_keeps_valid {Y : Engine} (name : string) (us : list bytes) (db : DB) :
  log_clocks_valid name db ->
  currentClock name db + Z.of_nat (List.length us) < BITS32 ->
  log_clocks_valid name (fst (append_all name us db)).
Proof.
  revert db. induction us as [|u us IH]; intros db Hvalid Hbound; [ exact Hvalid |].
  cbn [append_all].
  assert (Hlt : currentClock name db + 1 < BITS32)
    by (cbn [List.length] in Hbound; lia).
  pose proof (storeUpdate_keeps_valid name u db Hvalid Hlt) as H2.
  pose proof (storeUpdate_advances name u db Hlt) as H3.
  destruct (storeUpdate name u db) as [db1 c]. cbn [fst] in *.
  specialize (IH db1 H2).
  destruct (append_all name us db1) as [db2 cs]. cbn [fst] in *.
  apply IH. rewrite H3. cbn [List.length] in Hbound. lia.
Qed.

(** X5: what is appended is what is read.  On a log that holds valid clocks
    only and reads back as [before], storing the updates [us] one after the
    other (small ones as one record, large ones as parts) and then reading the
    log returns [before ++ us]: every update, whole, in the order of the
    calls, as long as the clocks stay below BITS32.  The log still holds valid
    clocks only, and its current clock has advanced by the number of
    updates. *)
Theorem getMongoUpdates_after_appends {Y : Engine} (name : string)
    (us before : list bytes) (db : DB) :
  log_clocks_valid name db ->
  getMongoUpdates name db = Ok before ->
  currentClock name db + Z.of_nat (List.length us) < BITS32 ->
  let db' := fst (append_all name us db) in
  getMongoUpdates name db' = Ok (before ++ us)
  /\ log_clocks_valid name db'
  /\ currentClock name db' = currentClock name db + Z.of_nat (List.length us).
Proof.
  intros Hvalid Hread Hbound db'. subst db'.
  split; [ now apply getMongoUpdates_append_all |].
  split; [ now apply append_all_keeps_valid |].
  now apply append_all_currentClock.
Qed.

Lemma getMongoUpdates_after_appends_witness :
  let db' := fst (append_all (Y := countEngine) "doc1" [[x0d]; [x0e]] log_ABC) in
  getMongoUpdates "doc1" db' = Ok ([[x0a]; [x0b]; [x0c]] ++ [[x0d]; [x0e]])
  /\ log_clocks_valid "doc1" db'
  /\ currentClock "doc1" db' = currentClock "doc1" log_ABC + 2.
Proof.
  apply (getMongoUpdates_after_appends (Y := countEngine) "doc1" [[x0d]; [x0e]]
           [[x0a]; [x0b]; [x0c]] log_ABC).
  - exact log_ABC_valid.
  - reflexivity.
  - vm_compute. reflexivity.
Defined.

(** ** Compactor and loading *)

Lemma decode_encode (clock : Z) (sv : bytes) :
  0 <= clock <= MAX_SAFE_INTEGER ->
  byteLength sv <= MAX_SAFE_INTEGER ->
  decodeMongodbStateVector (encodeStateVector clock sv) = Ok (sv, clock).
Proof.
  intros Hclock Hsv. unfold decodeMongodbStateVector, encodeStateVector.
  rewrite readVarUint_writeVarUint by exact Hclock. cbn [bind].
  rewrite <- (app_nil_r (writeVarUint8Array sv)).
  rewrite readVarUint8Array_writeVarUint8Array by exact Hsv. reflexivity.
Qed.

Lemma next_clock_safe (name : string) (db : DB) :
  0 <= currentClock name db + 1 <= MAX_SAFE_INTEGER.
Proof.
  pose proof (currentClock_lower name db).
  pose proof (currentClock_below_BITS32 name db).
  unfold BITS32, MAX_SAFE_INTEGER in *. lia.
Qed.

Section ReadBackFacts.
Context {Y : Engine}.

Lemma readStateVector_after_flush (name : string) (u sv : bytes) (db : DB) :
  byteLength sv <= MAX_SAFE_INTEGER ->
  readStateVector name (fst (flushDocument name u sv db))
  = Ok (Some sv, currentClock name db + 1).
Proof.
  intros Hsv. rewrite readStateVector_record, flushDocument_cache.
  rewrite decode_encode by (auto using next_clock_safe). reflexivity.
Qed.

End ReadBackFacts.

(** X6: a flush reads back as what was flushed.  On a log with valid clocks
    only, after [flushDocument] the log of the document reads as the single
    update that was passed in (also when it had to be written in parts), the
    state-vector record reads as the passed vector with the new clock, and,
    when the new clock is a valid clock, the cache is current. *)
Theorem flushDocument_read_back {Y : Engine} (name : string) (u sv : bytes) (db : DB) :
  log_clocks_valid name db ->
  byteLength sv <= MAX_SAFE_INTEGER ->
  let db' := fst (flushDocument name u sv db) in
  getMongoUpdates name db' = Ok [u]
  /\ readStateVector name db' = Ok (Some sv, currentClock name db + 1)
  /\ (currentClock name db + 1 < BITS32 -> cache_is_current name db').
Proof.
  intros Hvalid Hsv db'. subst db'.
  split; [ now apply getMongoUpdates_after_flush |].
  split; [ now apply readStateVector_after_flush |].
  intros Hlt. apply cache_is_current_read. exists sv.
  rewrite flushDocument_currentClock by assumption.
  now apply readStateVector_after_flush.
Qed.

Lemma flushDocument_read_back_witness :
  let db' := fst (flushDocument (Y := countEngine) "doc1" [x0a; x0b; x0c] [x03]
                    log_ABC) in
  getMongoUpdates "doc1" db' = Ok [[x0a; x0b; x0c]]
  /\ readStateVector "doc1" db' = Ok (Some [x03], currentClock "doc1" log_ABC + 1)
  /\ (currentClock "doc1" log_ABC + 1 < BITS32 -> cache_is_current "doc1" db').
Proof.
  apply (flushDocument_read_back (Y := countEngine) "doc1" [x0a; x0b; x0c] [x03]
           log_ABC).
  - exact log_ABC_valid.
  - vm_compute. discriminate.
Defined.

(** X7: loading a document.  When the log reads as [updates], [getYDoc]
    returns the engine document built by applying them in order.  With at most
    [flushSize] updates the store is left as it is; with more, the log is
    compacted: it then reads as the one full-state update of the loaded
    document, the cache holds its state vector at the next clock, the records
    of other documents are untouched, and (for an engine that rebuilds a
    document from its full-state update) a later load gives a document with
    the same state vector. *)
Theorem getYDoc_loads {Y : Engine} (opts : Persistence.options) (name : string)
    (db : DB) (updates : list bytes) :
  getMongoUpdates name db = Ok updates ->
  let ydoc := fold_left Y_applyUpdate updates Y_Doc in
  let r := Persistence.getYDoc_body opts name db in
  snd r = Ok ydoc
  /\ (Z.of_nat (List.length updates) <= Persistence.flushSize opts -> fst r = db)
  /\ (Persistence.flushSize opts < Z.of_nat (List.length updates) ->
      log_clocks_valid name db ->
      getMongoUpdates name (fst r) = Ok [Y_encodeStateAsUpdate ydoc]
      /\ state_vector_record name (fst r)
         = Some (encodeStateVector (currentClock name db + 1)
                   (Y_encodeStateVector ydoc))
      /\ records_of_others name (fst r) = records_of_others name db
      /\ (state_update_faithful Y ->
          forall opts',
          exists ydoc',
            snd (Persistence.getYDoc_body opts' name (fst r)) = Ok ydoc'
            /\ Y_encodeStateVector ydoc' = Y_encodeStateVector ydoc)).
Proof.
  intros Hread ydoc r. subst r. unfold Persistence.getYDoc_body. rewrite Hread.
  fold ydoc. cbn [fst snd]. split; [ reflexivity |].
  split.
  - intros Hle. destruct (Z.ltb_spec (Persistence.flushSize opts)
                            (Z.of_nat (List.length updates))); [ lia | reflexivity ].
  - intros Hgt Hvalid.
    destruct (Z.ltb_spec (Persistence.flushSize opts)
                (Z.of_nat (List.length updates))); [| lia ].
    pose proof (getMongoUpdates_after_flush name (Y_encodeStateAsUpdate ydoc)
                  (Y_encodeStateVector ydoc) db Hvalid) as Hafter.
    split; [ exact Hafter |].
    split; [ apply flushDocument_cache |].
    split; [ now apply flushDocument_others |].
    intros Hfaithful opts'. rewrite Hafter. cbn [fold_left snd].
    eexists. split; [ reflexivity | apply Hfaithful ].
Qed.

Lemma getYDoc_loads_witness :
  let opts := {| Persistence.flushSize := 2; Persistence.multipleCollections := false |} in
  let r := Persistence.getYDoc_body (Y := countEngine) opts "doc1" log_ABC in
  snd r = Ok (fold_left (Y_applyUpdate (Engine := countEngine)) [[x0a]; [x0b]; [x0c]]
                (Y_Doc (Engine := countEngine)))
  /\ getMongoUpdates "doc1" (fst r) = Ok [[x0a; x0b; x0c]].
Proof.
  intros opts r.
  destruct (getYDoc_loads (Y := countEngine) opts "doc1" log_ABC
              [[x0a]; [x0b]; [x0c]] eq_refl) as (H1 & _ & H3).
  split; [ exact H1 |].
  destruct H3 as (H3 & _); [ vm_compute; reflexivity | exact log_ABC_valid |].
  exact H3.
Defined.

(** ** State Vector Cache: hits, misses and invalidation *)

Lemma readVarUint_loop_nonneg (dec : bytes) :
  forall num mult n rest,
    0 <= num -> 0 <= mult ->
    readVarUint_loop num mult dec = Ok (n, rest) -> 0 <= n.
Proof.
  induction dec as [|r dec IH]; intros num mult n rest Hnum Hmult H;
    [ discriminate |].
  cbn in H.
  assert (Hland : 0 <= Z.land (byte_val r) BITS7)
    by (apply Z.land_nonneg; right; unfold BITS7; lia).
  destruct (byte_val r <? BIT8).
  - injection H as <- _. nia.
  - destruct (MAX_SAFE_INTEGER <? num + Z.land (byte_val r) BITS7 * mult);
      [ discriminate |].
    eapply IH; [ | | exact H ]; nia.
Qed.

Lemma decodeMongodbStateVector_clock_nonneg (buf sv : bytes) (clock : Z) :
  decodeMongodbStateVector buf = Ok (sv, clock) -> 0 <= clock.
Proof.
  unfold decodeMongodbStateVector, readVarUint. intros H.
  destruct (readVarUint_loop 0 1 buf) as [[c dec]|] eqn:E; [| discriminate ].
  cbn in H. destruct (readVarUint8Array dec) as [[sv' rest]|]; [| discriminate ].
  cbn in H. injection H as _ <-.
  eapply readVarUint_loop_nonneg; [ | | exact E ]; lia.
Qed.

Lemma writeStateVector_other_record (name n : string) (sv : bytes) (c : Z) (db : DB) :
  n <> name ->
  state_vector_record n (writeStateVector name sv c db) = state_vector_record n db.
Proof.
  intros Hne. unfold state_vector_record, db_findOne, writeStateVector.
  rewrite filter_db_put; [ reflexivity | | | ].
  - intros d Hd. rewrite matches_sv_key in *.
    destruct d as [| n' v |]; try discriminate.
    apply String.eqb_eq in Hd. subst n'. now apply String.eqb_neq.
  - intros d Hd. rewrite matches_sv_key in *.
    destruct d as [| n' v |]; try discriminate.
    apply String.eqb_eq in Hd. subst n'. cbn. now apply String.eqb_neq.
  - rewrite matches_sv_key. cbn. now apply String.eqb_neq.
Qed.

(** A readable cache either is current or is not. *)
Lemma classic_cache (name : string) (db : DB) (r : option bytes * Z) :
  readStateVector name db = Ok r ->
  (exists sv, readStateVector name db = Ok (Some sv, currentClock name db))
  \/ ~ cache_is_current name db.
Proof.
  intros Hread. destruct r as [[sv|] clock].
  - destruct (Z.eq_dec clock (currentClock name db)) as [->|Hne].
    + left. now exists sv.
    + right. intros H. apply cache_is_current_read in H. destruct H as (sv' & H).
      rewrite H in Hread. injection Hread as _ E. now symmetry in E.
  - right. intros H. apply cache_is_current_read in H. destruct H as (sv' & H).
    rewrite H in Hread. discriminate.
Qed.

Section CacheCalls.
Context {Y : Engine}.

Lemma getStateVector_body_hit (name : string) (db : DB) (sv : bytes) :
  readStateVector name db = Ok (Some sv, currentClock name db) ->
  MongodbPersistence.getStateVector_body name db = (db, Ok sv).
Proof.
  intros Hread. unfold MongodbPersistence.getStateVector_body.
  rewrite Hread, getCurrentUpdateClock_currentClock, Z.eqb_refl. reflexivity.
Qed.

Lemma getStateVector_body_miss (name : string) (db : DB) (r : option bytes * Z) :
  readStateVector name db = Ok r ->
  ~ cache_is_current name db ->
  MongodbPersistence.getStateVector_body name db
  = MongodbPersistence.merge_and_flush name db.
Proof.
  intros Hread Hstale. unfold MongodbPersistence.getStateVector_body.
  rewrite Hread. destruct r as [[sv|] clock]; [| reflexivity ].
  rewrite getCurrentUpdateClock_currentClock.
  destruct (Z.eqb_spec clock (currentClock name db)) as [->|_]; [| reflexivity ].
  exfalso. apply Hstale. apply cache_is_current_read. now exists sv.
Qed.

Lemma storeUpdate_keeps_record (name : string) (u : bytes) (db : DB) :
  currentClock name db <> -1 ->
  state_vector_record name (fst (storeUpdate name u db)) = state_vector_record name db.
Proof.
  intros Hc. unfold storeUpdate. cbn [fst].
  rewrite fold_update_puts_sv, getCurrentUpdateClock_currentClock.
  destruct (Z.eqb_spec (currentClock name db) (-1)); [ contradiction | reflexivity ].
Qed.

End CacheCalls.

(** X8: asking twice.  When the cache record and the log of a document are
    readable, the clocks of the log are valid and the next clock is a valid
    one, [getStateVector] returns a state vector, leaves the cache current,
    and a second call returns the same vector without touching the store. *)
Theorem getStateVector_second_call {Y : Engine} (name : string) (db : DB)
    (r : option bytes * Z) (updates : list bytes) :
  readStateVector name db = Ok r ->
  getMongoUpdates name db = Ok updates ->
  log_clocks_valid name db ->
  currentClock name db + 1 < BITS32 ->
  byteLength (snd (mergeUpdates updates)) <= MAX_SAFE_INTEGER ->
  let first := MongodbPersistence.getStateVector_body name db in
  exists sv,
    snd first = Ok sv
    /\ cache_is_current name (fst first)
    /\ MongodbPersistence.getStateVector_body name (fst first) = (fst first, Ok sv).
Proof.
  intros Hread Hlog Hvalid Hlt Hsafe first. subst first.
  assert (Hhit : forall sv, readStateVector name db = Ok (Some sv, currentClock name db) ->
                 exists sv0,
                   snd (MongodbPersistence.getStateVector_body name db) = Ok sv0
                   /\ cache_is_current name
                        (fst (MongodbPersistence.getStateVector_body name db))
                   /\ MongodbPersistence.getStateVector_body name
                        (fst (MongodbPersistence.getStateVector_body name db))
                      = (fst (MongodbPersistence.getStateVector_body name db), Ok sv0)).
  { intros sv H. rewrite (getStateVector_body_hit name db sv H). cbn [fst snd].
    exists sv. split; [ reflexivity |].
    split; [ apply cache_is_current_read; now exists sv |].
    now apply getStateVector_body_hit. }
  destruct (classic_cache name db r Hread) as [(sv & H)|Hstale]; [ now apply (Hhit sv) |].
  rewrite (getStateVector_body_miss name db r Hread Hstale).
  rewrite (merge_and_flush_runs name db updates Hlog). cbn [fst snd].
  set (m := mergeUpdates updates) in *.
  assert (Hafter : readStateVector name (fst (flushDocument name (fst m) (snd m) db))
                   = Ok (Some (snd m), currentClock name db + 1))
    by (now apply readStateVector_after_flush).
  rewrite <- (flushDocument_currentClock name (fst m) (snd m) db Hvalid Hlt) in Hafter.
  exists (snd m). split; [ reflexivity |].
  split; [ apply cache_is_current_read; now exists (snd m) |].
  now apply getStateVector_body_hit.
Qed.

Lemma getStateVector_second_call_witness :
  let first := MongodbPersistence.getStateVector_body (Y := countEngine) "doc1" log_ABC in
  exists sv,
    snd first = Ok sv
    /\ cache_is_current "doc1" (fst first)
    /\ MongodbPersistence.getStateVector_body (Y := countEngine) "doc1" (fst first)
       = (fst first, Ok sv).
Proof.
  apply (getStateVector_second_call (Y := countEngine) "doc1" log_ABC
           (Some [x01], 0) [[x0a]; [x0b]; [x0c]]).
  - vm_compute. reflexivity.
  - vm_compute. reflexivity.
  - exact log_ABC_valid.
  - vm_compute. reflexivity.
  - vm_compute. discriminate.
Defined.

(** X9: an append makes the cache stale.  When the cache of a document is
    current and the next clock is a valid clock, [storeUpdate] leaves the
    state-vector record as it is while the current clock moves on: the cache
    is no longer current, and the next [getStateVector] merges and flushes
    instead of answering from the cache. *)
Theorem storeUpdate_invalidates_cache {Y : Engine} (name : string) (u : bytes) (db : DB) :
  cache_is_current name db ->
  currentClock name db + 1 < BITS32 ->
  let db' := fst (storeUpdate name u db) in
  state_vector_record name db' = state_vector_record name db
  /\ ~ cache_is_current name db'
  /\ MongodbPersistence.getStateVector_body name db'
     = MongodbPersistence.merge_and_flush name db'.
Proof.
  intros Hcur Hlt db'. subst db'.
  destruct Hcur as (cached & sv & Hrec & Hdec).
  pose proof (decodeMongodbStateVector_clock_nonneg _ _ _ Hdec) as Hnn.
  assert (Hkeep : state_vector_record name (fst (storeUpdate name u db))
                  = state_vector_record name db)
    by (apply storeUpdate_keeps_record; lia).
  assert (Hstale : ~ cache_is_current name (fst (storeUpdate name u db))).
  { intros (cached' & sv' & Hrec' & Hdec').
    rewrite Hkeep, Hrec in Hrec'. injection Hrec' as <-.
    rewrite storeUpdate_advances in Hdec' by exact Hlt.
    rewrite Hdec in Hdec'. injection Hdec' as _ E. lia. }
  split; [ exact Hkeep |]. split; [ exact Hstale |].
  apply (getStateVector_body_miss name _ (Some sv, currentClock name db));
    [| exact Hstale ].
  rewrite readStateVector_record, Hkeep, Hrec, Hdec. reflexivity.
Qed.

Lemma storeUpdate_invalidates_cache_witness :
  let db' := fst (storeUpdate (Y := countEngine) "doc1" [x0d] log_flushed) in
  state_vector_record "doc1" db' = state_vector_record "doc1" log_flushed
  /\ ~ cache_is_current "doc1" db'
  /\ MongodbPersistence.getStateVector_body (Y := countEngine) "doc1" db'
     = MongodbPersistence.merge_and_flush (Y := countEngine) "doc1" db'.
Proof.
  apply (storeUpdate_invalidates_cache (Y := countEngine) "doc1" [x0d] log_flushed).
  - exists (encodeStateVector 3 [x03]), [x03]. split; vm_compute; reflexivity.
  - vm_compute. reflexivity.
Defined.

(** X10: the cache record round trip.  After [writeStateVector] (clock and
    vector length within the safe integers) [readStateVector] returns the
    vector and the clock written, whatever the record held before; the
    state-vector records of the other documents and every document's log are
    as before. *)
Theorem writeStateVector_read_back (name : string) (sv : bytes) (c : Z) (db : DB) :
  0 <= c <= MAX_SAFE_INTEGER ->
  byteLength sv <= MAX_SAFE_INTEGER ->
  let db' := writeStateVector name sv c db in
  readStateVector name db' = Ok (Some sv, c)
  /\ (forall n, n <> name -> readStateVector n db' = readStateVector n db)
  /\ (forall n, getMongoUpdates n db' = getMongoUpdates n db).
Proof.
  intros Hc Hsv db'. subst db'. split; [| split ].
  - rewrite readStateVector_record, writeStateVector_record.
    now rewrite decode_encode.
  - intros n Hne. rewrite !readStateVector_record.
    now rewrite writeStateVector_other_record.
  - intros n. rewrite !getMongoUpdates_updates_of.
    now rewrite writeStateVector_updates_of.
Qed.

Lemma writeStateVector_read_back_witness :
  let db' := writeStateVector "doc1" [x07; x08] 9 log_ABC in
  readStateVector "doc1" db' = Ok (Some [x07; x08], 9)
  /\ (forall n, n <> "doc1"%string -> readStateVector n db' = readStateVector n log_ABC)
  /\ (forall n, getMongoUpdates n db' = getMongoUpdates n log_ABC).
Proof.
  apply (writeStateVector_read_back "doc1" [x07; x08] 9 log_ABC).
  - unfold MAX_SAFE_INTEGER. lia.
  - vm_compute. discriminate.
Defined.

(** ** Transaction Serializer: no chain is ever poisoned *)

Lemma transact_console {A} (name : string) (f : DB -> DB * result A)
    (this : MongodbPersistence.t) :
  chains_settled_well this ->
  MongodbPersistence.console (fst (MongodbPersistence._transact name f this))
  = MongodbPersistence.console this
    ++ match snd (f (MongodbPersistence.db this)) with
       | Ok _ => []
       | Err e => [ConsoleWarn e]
       end.
Proof.
  intros Hok.
  destruct (SerializerFacts.transact_runs name f this (Hok name)) as (tr1 & _ & _ & Heq).
  rewrite Heq. destruct (f (MongodbPersistence.db this)) as [db' [res|err]]; cbn;
    [ now rewrite app_nil_r | reflexivity ].
Qed.

(** X11: one document's chain is never poisoned.  Starting from an instance
    without a rejected chain tail (a fresh instance in particular), any
    sequence of operations submitted under one document name, failing or not,
    leaves no rejected tail: every promise handed out is fulfilled (with the
    result, or with null for a failed body), the bodies act on the store one
    after the other in the order of submission, the console gets one warning
    for each failed body, in that order, and the chain tail of every other
    document is as before. *)
Theorem submit_all_never_rejects {A} (name : string)
    (ops : list (DB -> DB * result A)) (this : MongodbPersistence.t) :
  chains_settled_well this ->
  let r := submit_all name ops this in
  chains_settled_well (fst r)
  /\ Forall (fun p => exists v, p = Fulfilled v) (snd r)
  /\ List.length (snd r) = List.length ops
  /\ MongodbPersistence.db (fst r)
     = fold_left (fun db f => fst (f db)) ops (MongodbPersistence.db this)
  /\ MongodbPersistence.console (fst r)
     = MongodbPersistence.console this ++ warnings_of ops (MongodbPersistence.db this)
  /\ (forall other, other <> name ->
        obj_get other (MongodbPersistence.tr (fst r))
        = obj_get other (MongodbPersistence.tr this)).
Proof.
  revert this. induction ops as [|f ops IH]; intros this Hok r; subst r.
  - cbn. rewrite app_nil_r. repeat split; auto.
  - cbn [submit_all].
    pose proof (SerializerFacts.transact_keeps_chains name f this Hok) as Hok1.
    destruct (SerializerFacts.transact_runs name f this (Hok name))
      as (tr1 & _ & Hother & Heq).
    destruct (transact_result name f this Hok) as [Hres Hdb].
    pose proof (transact_console name f this Hok) as Hcon.
    destruct (MongodbPersistence._transact name f this) as [this1 p] eqn:E.
    cbn [fst snd] in *.
    specialize (IH this1 Hok1). cbn zeta in IH.
    destruct (submit_all name ops this1) as [this2 ps]. cbn [fst snd] in *.
    destruct IH as (H1 & H2 & H3 & H4 & H5 & H6).
    split; [ exact H1 |].
    split.
    { constructor; [| exact H2 ]. rewrite Hres.
      destruct (snd (f (MongodbPersistence.db this))); eauto. }
    split; [ cbn; now rewrite H3 |].
    split; [ now rewrite H4, Hdb |].
    split.
    { rewrite H5, Hcon, Hdb, <- app_assoc. f_equal. cbn [warnings_of].
      destruct (f (MongodbPersistence.db this)) as [db' [res|err]]; reflexivity. }
    intros other Hne. rewrite H6 by exact Hne.
    destruct (f (MongodbPersistence.db this)) as [db' [res|err]];
      injection Heq as -> _; cbn; now apply Hother.
Qed.

Lemma submit_all_never_rejects_witness :
  let r := submit_all "doc1"
             [failing_operation; (fun db => (db, Ok 1)); failing_operation] fresh in
  chains_settled_well (fst r)
  /\ Forall (fun p => exists v, p = Fulfilled v) (snd r)
  /\ List.length (snd r) = 3%nat
  /\ MongodbPersistence.db (fst r)
     = fold_left (fun db f => fst (f db))
         [failing_operation; (fun db => (db, Ok 1)); failing_operation]
         (MongodbPersistence.db fresh)
  /\ MongodbPersistence.console (fst r)
     = MongodbPersistence.console fresh
       ++ warnings_of [failing_operation; (fun db => (db, Ok 1)); failing_operation]
            (MongodbPersistence.db fresh)
  /\ (forall other, other <> "doc1"%string ->
        obj_get other (MongodbPersistence.tr (fst r))
        = obj_get other (MongodbPersistence.tr fresh)).
Proof.
  apply (submit_all_never_rejects "doc1"
           [failing_operation; (fun db => (db, Ok 1)); failing_operation] fresh).
  intros name e. discriminate.
Defined.

(** ** Bulk Ingestion: batches and pauses *)

Lemma bulkWriteWithConcurrency_log (m : obj (query * bytes)) (limit : Z) (w : world) :
  0 < limit ->
  w_log (fst (bulkWriteWithConcurrency m limit w))
  = w_log w
    ++ repeat (Delay 100)
         (Z.to_nat ((Z.of_nat (List.length m) + limit - 1) / limit / limit)).
Proof.
  intros Hlimit. unfold bulkWriteWithConcurrency.
  set (step := fun (st : world * Z * result unit) (i : Z) => _).
  assert (Hinv : forall k a w0 p,
             0 <= p < limit ->
             exists w1 p1,
               fold_left step (map (fun j => j * limit) (map Z.of_nat (seq a k)))
                 (w0, p, Ok tt)
               = (w1, p1, Ok tt)
               /\ w_log w1
                  = w_log w0
                    ++ repeat (Delay 100) (Z.to_nat ((p + Z.of_nat k) / limit))).
  { induction k as [|k IH]; intros a w0 p Hp.
    - exists w0, p. split; [ reflexivity |].
      rewrite Z.add_0_r, Z.div_small by exact Hp. cbn. now rewrite app_nil_r.
    - cbn [seq map fold_left].
      assert (Hstep : step (w0, p, Ok tt) (Z.of_nat a * limit)
                      = if limit <=? p + 1
                        then (emit_world (Delay 100)
                                {| w_db := db_bulkPut
                                             (firstn (Z.to_nat limit)
                                                (skipn (Z.to_nat (Z.of_nat a * limit)) m))
                                             (w_db w0);
                                   w_log := w_log w0 |}, 0, Ok tt)
                        else ({| w_db := db_bulkPut
                                           (firstn (Z.to_nat limit)
                                              (skipn (Z.to_nat (Z.of_nat a * limit)) m))
                                           (w_db w0);
                                 w_log := w_log w0 |}, p + 1, Ok tt)).
      { unfold step. rewrite retry_on_db. reflexivity. }
      rewrite Hstep. clear Hstep.
      destruct (Z.leb_spec limit (p + 1)) as [Hfull|Hroom].
      + match goal with |- context [fold_left step _ (?w', 0, Ok tt)] =>
          destruct (IH (S a) w' 0 ltac:(lia)) as (w1 & p1 & Hfold & Hlog) end.
        exists w1, p1. split; [ exact Hfold |].
        rewrite Hlog. cbn [emit_world w_log]. rewrite <- app_assoc. f_equal.
        assert (p + 1 = limit) by lia.
        replace (p + Z.of_nat (S k)) with (Z.of_nat k + 1 * limit) by lia.
        rewrite Z.div_add by lia. rewrite Z.add_0_l.
        assert (0 <= Z.of_nat k / limit) by (apply Z.div_pos; lia).
        replace (Z.to_nat (Z.of_nat k / limit + 1))
          with (S (Z.to_nat (Z.of_nat k / limit))) by lia.
        reflexivity.
      + match goal with |- context [fold_left step _ (?w', p + 1, Ok tt)] =>
          destruct (IH (S a) w' (p + 1) ltac:(lia)) as (w1 & p1 & Hfold & Hlog) end.
        exists w1, p1. split; [ exact Hfold |].
        rewrite Hlog. cbn [w_log].
        replace (p + 1 + Z.of_nat k) with (p + Z.of_nat (S k)) by lia.
        reflexivity. }
  unfold batch_starts, indices.
  set (B := (Z.of_nat (List.length m) + limit - 1) / limit).
  assert (HB : 0 <= B) by (apply Z.div_pos; lia).
  destruct (Hinv (Z.to_nat B) 0%nat w 0 ltac:(lia)) as (w1 & p1 & Hfold & Hlog).
  rewrite Hfold. cbn [fst]. rewrite Hlog. rewrite Z.add_0_l, Z2Nat.id by exact HB.
  reflexivity.
Qed.

(** X12: the batched bulk write.  For a positive limit the write never fails
    in this model, the store ends as after one [bulkPut] of the whole map (the
    batches cover the entries once, in order), and the only thing observed
    beside the store is one pause of 100 ms for every [limit] batches: none
    at all when the map has fewer than [limit * limit] entries. *)
Theorem bulkWriteWithConcurrency_batches (m : obj (query * bytes)) (limit : Z)
    (w : world) :
  0 < limit ->
  let batches := (Z.of_nat (List.length m) + limit - 1) / limit in
  let r := bulkWriteWithConcurrency m limit w in
  snd r = Ok tt
  /\ w_db (fst r) = db_bulkPut m (w_db w)
  /\ w_log (fst r) = w_log w ++ repeat (Delay 100) (Z.to_nat (batches / limit))
  /\ (Z.of_nat (List.length m) <= limit * (limit - 1) -> w_log (fst r) = w_log w).
Proof.
  intros Hlimit batches r. subst r.
  destruct (bulkWriteWithConcurrency_db m limit w Hlimit) as [Hr Hdb].
  pose proof (bulkWriteWithConcurrency_log m limit w Hlimit) as Hlog.
  fold batches in Hlog.
  split; [ exact Hr |]. split; [ exact Hdb |]. split; [ exact Hlog |].
  intros Hfew. rewrite Hlog.
  assert (Hsmall : batches / limit = 0).
  { apply Z.div_small. split; [ apply Z.div_pos; lia |].
    apply Z.div_lt_upper_bound; [ lia |]. nia. }
  rewrite Hsmall. cbn. apply app_nil_r.
Qed.

Lemma bulkWriteWithConcurrency_batches_witness :
  let m := [("a"%string, (createDocumentUpdateKey "a" (Some 0), [x01]));
            ("b"%string, (createDocumentUpdateKey "b" (Some 0), [x02]));
            ("c"%string, (createDocumentUpdateKey "c" (Some 0), [x03]))] in
  let r := bulkWriteWithConcurrency m 1 empty_world in
  snd r = Ok tt
  /\ w_db (fst r) = db_bulkPut m (w_db empty_world)
  /\ w_log (fst r) = w_log empty_world ++ repeat (Delay 100) (Z.to_nat (3 / 1))
  /\ (Z.of_nat (List.length m) <= 1 * (1 - 1) -> w_log (fst r) = w_log empty_world).
Proof.
  intros m.
  apply (bulkWriteWithConcurrency_batches m 1 empty_world). lia.
Defined.

(** ** Bulk Ingestion: what a bulk insert leaves behind *)

Lemma updates_of_update_records_other (d d' : string) (c : Z) (u : bytes) :
  d <> d' -> updates_of d (update_records d' c u) = [].
Proof.
  intros Hne. unfold updates_of. apply filter_all_false. intros r Hr.
  destruct (update_records_shape d' c u) as [_ Hall].
  destruct (Hall r Hr) as (p & v & ->).
  rewrite is_update_of_spec. now apply String.eqb_neq.
Qed.

Section InsertFacts.
Context {Y : Engine}.

Lemma doc_of_entry_update_entries (d : string) (u : bytes) :
  map doc_of_entry (update_entries (-1) d u) = update_records d 0 u.
Proof.
  unfold update_records. rewrite <- update_entries_puts, map_map. reflexivity.
Qed.

Lemma insertUpdates_appends (updatesMap : obj bytes) (w : world) :
  NoDup (map fst updatesMap) ->
  NoDup (record_identifiers updatesMap) ->
  w_db (fst (insertUpdates updatesMap w)) = w_db w ++ inserted_records updatesMap.
Proof.
  intros Hnames Hids.
  destruct (insertUpdates_db updatesMap w) as [_ ->].
  rewrite ingest_maps_distinct by assumption. cbn [fst snd].
  rewrite !db_bulkInsert_app, <- app_assoc. f_equal.
  unfold inserted_records. f_equal.
  - rewrite map_map. reflexivity.
  - clear. induction updatesMap as [|[d u] m IH]; [ reflexivity |].
    cbn [flat_map fst snd]. rewrite map_app, IH, doc_of_entry_update_entries.
    reflexivity.
Qed.

Lemma updates_of_inserted_absent (m : obj bytes) (d : string) :
  ~ In d (map fst m) -> updates_of d (inserted_records m) = [].
Proof.
  intros Hno. unfold inserted_records. rewrite updates_of_app.
  assert (H1 : updates_of d
                 (map (fun e => StateVectorDoc (fst e)
                                  (encodeStateVector (-1) (initialStateVector (snd e)))) m)
               = []).
  { unfold updates_of. apply filter_all_false. intros r Hr.
    apply in_map_iff in Hr. destruct Hr as (e & <- & _). reflexivity. }
  rewrite H1. cbn [app]. clear H1.
  induction m as [|[d' u'] m IH]; [ reflexivity |].
  cbn [flat_map fst snd map] in *. rewrite updates_of_app.
  rewrite updates_of_update_records_other
    by (intros ->; apply Hno; now left).
  apply IH. intros Hin. apply Hno. now right.
Qed.

Lemma updates_of_inserted (m : obj bytes) (d : string) (u : bytes) :
  NoDup (map fst m) -> In (d, u) m ->
  updates_of d (inserted_records m) = update_records d 0 u.
Proof.
  intros Hnd Hin. unfold inserted_records. rewrite updates_of_app.
  assert (H1 : updates_of d
                 (map (fun e => StateVectorDoc (fst e)
                                  (encodeStateVector (-1) (initialStateVector (snd e)))) m)
               = []).
  { unfold updates_of. apply filter_all_false. intros r Hr.
    apply in_map_iff in Hr. destruct Hr as (e & <- & _). reflexivity. }
  rewrite H1. cbn [app]. clear H1.
  induction m as [|[d' u'] m IH]; [ destruct Hin |].
  cbn [flat_map fst snd map] in *. rewrite updates_of_app.
  inversion Hnd as [|? ? Hnotin Hnd']; subst.
  destruct Hin as [Hin|Hin].
  - injection Hin as -> ->. rewrite updates_of_update_records.
    pose proof (updates_of_inserted_absent m d Hnotin) as Habs.
    unfold inserted_records in Habs. rewrite updates_of_app in Habs.
    apply app_eq_nil in Habs. destruct Habs as [_ ->]. apply app_nil_r.
  - assert (d <> d').
    { intros ->. apply Hnotin. apply in_map_iff. now exists (d', u). }
    rewrite updates_of_update_records_other by assumption.
    now apply IH.
Qed.

Lemma sv_record_inserted (m : obj bytes) (d : string) (u : bytes) :
  NoDup (map fst m) -> In (d, u) m ->
  state_vector_record d (inserted_records m)
  = Some (encodeStateVector (-1) (initialStateVector u)).
Proof.
  intros Hnd Hin. unfold state_vector_record, db_findOne, inserted_records.
  rewrite filter_app.
  induction m as [|[d' u'] m IH]; [ destruct Hin |].
  cbn [map fst snd filter]. rewrite matches_sv_key.
  inversion Hnd as [|? ? Hnotin Hnd']; subst.
  destruct Hin as [Hin|Hin].
  - injection Hin as -> ->. now rewrite String.eqb_refl.
  - assert (Hne : d <> d').
    { intros ->. apply Hnotin. apply in_map_iff. now exists (d', u). }
    apply String.eqb_neq in Hne. rewrite Hne.
    specialize (IH Hnd' Hin).
    destruct (filter (matches (createDocumentStateVectorKey d))
                (map (fun e => StateVectorDoc (fst e)
                                 (encodeStateVector (-1) (initialStateVector (snd e)))) m))
      as [|r l] eqn:E; [| exact IH ].
    exfalso. clear - Hin E.
    assert (Hr : In (StateVectorDoc d (encodeStateVector (-1) (initialStateVector u)))
                   (filter (matches (createDocumentStateVectorKey d))
                      (map (fun e => StateVectorDoc (fst e)
                                       (encodeStateVector (-1) (initialStateVector (snd e)))) m))).
    { apply filter_In. split.
      - apply in_map_iff. now exists (d, u).
      - rewrite matches_sv_key. apply String.eqb_refl. }
    rewrite E in Hr. destruct Hr.
Qed.

End InsertFacts.

Lemma state_vector_record_app_none (d : string) (db l : DB) :
  state_vector_record d db = None ->
  state_vector_record d (db ++ l) = state_vector_record d l.
Proof.
  unfold state_vector_record, db_findOne. intros H. rewrite filter_app.
  destruct (filter (matches (createDocumentStateVectorKey d)) db);
    [ reflexivity | discriminate ].
Qed.





(** ** Retry Wrapper: any budget *)

(** X15: the retry wrapper for any number of attempts and any delay.  With
    [retries <= 0] the task is never run and the wrapper throws the undefined
    last error; otherwise, after [k < retries] attempts that failed with
    retryable errors (each followed by a warning and one wait of [delay]
    ms), a success of the next attempt is returned, an error of another kind
    propagates at once, and a retryable error of attempt number [retries] is
    logged as an error and thrown, no further attempt being made. *)
Theorem retryMongoOperation_any_budget {St A : Type}
    (emit : event -> St -> St) (task : St -> St * result A) (retries delay : Z) :
  (retries <= 0 ->
   forall s, retryMongoOperation emit task retries delay s
             = (s, Err (OtherError "undefined")))
  /\ (forall k s sk s' a,
        retrying emit task delay k s sk -> Z.of_nat k < retries ->
        task sk = (s', Ok a) ->
        retryMongoOperation emit task retries delay s = (s', Ok a))
  /\ (forall k s sk s' e,
        retrying emit task delay k s sk -> Z.of_nat k < retries ->
        task sk = (s', Err e) -> retryable e = false ->
        retryMongoOperation emit task retries delay s = (s', Err e))
  /\ (forall k s sk s' e,
        retrying emit task delay k s sk -> Z.of_nat k + 1 = retries ->
        task sk = (s', Err e) -> retryable e = true ->
        retryMongoOperation emit task retries delay s
        = (emit (ConsoleError e) s', Err e)).
Proof.
  unfold retryMongoOperation. split; [| split; [| split ] ].
  - intros Hle s. replace (Z.to_nat retries) with 0%nat by lia. reflexivity.
  - intros k s sk s' a Hrun Hk Htask.
    eapply retry_succeeds; [ exact Hrun | lia | exact Htask ].
  - intros k s sk s' e Hrun Hk Htask Hret.
    eapply retry_propagates; [ exact Hrun | lia | exact Htask | exact Hret ].
  - intros k s sk s' e Hrun Hk Htask Hret.
    eapply retry_gives_up; [ exact Hrun | lia | exact Htask | exact Hret ].
Qed.

Lemma retryMongoOperation_any_budget_witness :
  retryMongoOperation emit_script scripted_task 0 250 ([Ok 7%nat], [])
  = (([Ok 7%nat], []), Err (OtherError "undefined"))
  /\ retryMongoOperation emit_script scripted_task 2 250
       ([Err MongoNetworkError; Err MongoBulkWriteError; Ok 7%nat], [])
     = (([Ok 7%nat],
         [ConsoleWarn MongoNetworkError; Delay 250; ConsoleError MongoBulkWriteError]),
        Err MongoBulkWriteError).
Proof.
  split.
  - apply (proj1 (retryMongoOperation_any_budget emit_script scripted_task 0 250)).
    lia.
  - apply (proj2 (proj2 (proj2
             (retryMongoOperation_any_budget emit_script scripted_task 2 250)))
             1%nat
             ([Err MongoNetworkError; Err MongoBulkWriteError; Ok 7%nat], [])
             ([Err MongoBulkWriteError; Ok 7%nat],
              [ConsoleWarn MongoNetworkError; Delay 250])
             ([Ok 7%nat], [ConsoleWarn MongoNetworkError; Delay 250])
             MongoBulkWriteError).
    + apply (retrying_again emit_script scripted_task 250 0
               ([Err MongoNetworkError; Err MongoBulkWriteError; Ok 7%nat], [])
               ([Err MongoNetworkError; Err MongoBulkWriteError; Ok 7%nat], [])
               ([Err MongoBulkWriteError; Ok 7%nat], [])
               MongoNetworkError).
      * apply retrying_none.
      * reflexivity.
      * reflexivity.
    + reflexivity.
    + reflexivity.
    + reflexivity.
Defined.

(** ** Frame: what the log operations leave alone *)

Lemma fold_puts_filter (P : mongoDoc -> bool) (puts : list (query * bytes)) :
  (forall q v, In (q, v) puts ->
     (forall d, matches q d = true -> P d = false)
     /\ (forall d, matches q d = true -> P (set_value d v) = false)
     /\ P (doc_of_query q v) = false) ->
  forall db,
    filter P (fold_left (fun acc p => db_put (fst p) (snd p) acc) puts db)
    = filter P db.
Proof.
  induction puts as [|[q v] puts IH]; intros Hq db; [ reflexivity |].
  cbn [fold_left fst snd].
  rewrite IH by (intros q0 v0 Hin0; apply (Hq q0 v0); now right).
  destruct (Hq q v (or_introl eq_refl)) as (H1 & H2 & H3).
  now apply filter_db_put.
Qed.

Lemma update_puts_keys (name : string) (c : Z) (u : bytes) (q : query) (v : bytes) :
  In (q, v) (update_puts name c u) ->
  q = createDocumentUpdateKey name (Some c)
  \/ exists p, q = with_part (createDocumentUpdateKey name (Some c)) p.
Proof.
  unfold update_puts. intros Hin.
  destruct (byteLength u <=? MAX_DOCUMENT_SIZE).
  - destruct Hin as [Hin|[]]. injection Hin as <- <-. now left.
  - apply in_map_iff in Hin. destruct Hin as (i & Hin & _).
    injection Hin as <- <-. right. now exists (i + 1).
Qed.

Lemma writeStateVector_foreign (name : string) (sv : bytes) (c : Z) (db : DB) :
  filter (foreign name) (writeStateVector name sv c db) = filter (foreign name) db.
Proof.
  unfold writeStateVector. apply filter_db_put.
  - intros d Hd. rewrite matches_sv_key in Hd.
    destruct d as [| n v |]; try discriminate. cbn.
    apply String.eqb_eq in Hd. subst n. now rewrite String.eqb_refl.
  - intros d Hd. rewrite matches_sv_key in Hd.
    destruct d as [| n v |]; try discriminate. cbn.
    apply String.eqb_eq in Hd. subst n. now rewrite String.eqb_refl.
  - cbn. now rewrite String.eqb_refl.
Qed.

Section FrameFacts.
Context {Y : Engine}.

Lemma storeUpdate_foreign (name : string) (u : bytes) (db : DB) :
  filter (foreign name) (fst (storeUpdate name u db)) = filter (foreign name) db.
Proof.
  unfold storeUpdate. cbn [fst].
  rewrite fold_puts_filter.
  - destruct (getCurrentUpdateClock name db =? -1);
      [ apply writeStateVector_foreign | reflexivity ].
  - intros q v Hin. apply update_puts_keys in Hin.
    destruct Hin as [->|(p & ->)]; repeat split;
      try (intros d Hd; rewrite ?matches_update_key, ?matches_part_key in Hd;
           destruct d as [n c' [p'|] v'| |]; try discriminate; cbn;
           repeat (apply andb_prop in Hd; destruct Hd as [Hd ?]);
           apply String.eqb_eq in Hd; subst n; now rewrite String.eqb_refl);
      cbn; now rewrite String.eqb_refl.
Qed.

Lemma clearUpdatesRange_foreign (name : string) (from to : Z) (db : DB) :
  filter (foreign name) (clearUpdatesRange name from to db) = filter (foreign name) db.
Proof.
  unfold clearUpdatesRange, db_delete. rewrite filter_filter_and.
  apply filter_ext. intros d. rewrite matches_clear_filter.
  destruct d as [n c p v| |]; cbn; rewrite ?andb_true_r; try reflexivity.
  rewrite (String.eqb_sym n name).
  destruct (String.eqb name n); reflexivity.
Qed.

End FrameFacts.

(** X16: the log operations of one document leave everything else alone.
    Whatever the store holds, [storeUpdate], [flushDocument] and
    [clearUpdatesRange] on a document change neither the records of the other
    documents nor any meta record (those of the document itself included):
    these records are the same, in the same order, before and after. *)
Theorem log_operations_frame {Y : Engine} (name : string) (u sv : bytes)
    (from to : Z) (db : DB) :
  filter (foreign name) (fst (storeUpdate name u db)) = filter (foreign name) db
  /\ filter (foreign name) (fst (flushDocument name u sv db)) = filter (foreign name) db
  /\ filter (foreign name) (clearUpdatesRange name from to db) = filter (foreign name) db
  /\ filter (foreign name) (writeStateVector name sv to db) = filter (foreign name) db.
Proof.
  split; [ apply storeUpdate_foreign |].
  split; [| split; [ apply clearUpdatesRange_foreign | apply writeStateVector_foreign ] ].
  rewrite flushDocument_steps. cbn [fst].
  now rewrite clearUpdatesRange_foreign, writeStateVector_foreign, storeUpdate_foreign.
Qed.

(** ** Listing the documents *)

Lemma listed_names_spec (db : DB) (n : string) :
  In n (listed_names db) <-> exists v, In (StateVectorDoc n v) db.
Proof.
  unfold listed_names, getAllSVDocs, db_find. rewrite in_map_iff. split.
  - intros (d & Hn & Hd). apply (proj1 (In_sort_docs _ _)) in Hd.
    apply filter_In in Hd. destruct Hd as [Hin Hm].
    destruct d as [| n' v |]; try discriminate. cbn in Hn. subst n'. now exists v.
  - intros (v & Hin). exists (StateVectorDoc n v). split; [ reflexivity |].
    apply In_sort_docs. apply filter_In. split; [ exact Hin | reflexivity ].
Qed.

Lemma state_vector_record_In (n : string) (db : DB) (v : bytes) :
  state_vector_record n db = Some v -> In (StateVectorDoc n v) db.
Proof.
  unfold state_vector_record, db_findOne. intros H.
  destruct (filter (matches (createDocumentStateVectorKey n)) db) as [|d l] eqn:E;
    [ discriminate |].
  assert (Hd : In d (filter (matches (createDocumentStateVectorKey n)) db))
    by (rewrite E; now left).
  apply filter_In in Hd. destruct Hd as [Hin Hm]. rewrite matches_sv_key in Hm.
  destruct d as [| n' v' |]; try discriminate.
  apply String.eqb_eq in Hm. subst n'. cbn in H. now injection H as <-.
Qed.

Lemma db_put_keeps_listed (q : query) (v : bytes) (db : DB) (n : string) :
  (exists v0, In (StateVectorDoc n v0) db) ->
  exists v1, In (StateVectorDoc n v1) (db_put q v db).
Proof.
  intros (v0 & Hin).
  destruct (db_put_In_or_set q v db _ Hin) as [H|H]; eauto.
Qed.

Lemma fold_puts_keep_listed (puts : list (query * bytes)) (n : string) :
  forall db,
    (exists v0, In (StateVectorDoc n v0) db) ->
    exists v1, In (StateVectorDoc n v1)
                 (fold_left (fun acc p => db_put (fst p) (snd p) acc) puts db).
Proof.
  induction puts as [|[q v] puts IH]; intros db H; [ exact H |].
  cbn [fold_left fst snd]. apply IH. now apply db_put_keeps_listed.
Qed.

Section ListingFacts.
Context {Y : Engine}.

Lemma storeUpdate_keeps_listed (name : string) (u : bytes) (db : DB) (n : string) :
  In n (listed_names db) -> In n (listed_names (fst (storeUpdate name u db))).
Proof.
  rewrite !listed_names_spec. intros H. unfold storeUpdate. cbn [fst].
  apply fold_puts_keep_listed.
  destruct (getCurrentUpdateClock name db =? -1); [| exact H ].
  now apply db_put_keeps_listed.
Qed.

Lemma flushDocument_keeps_listed (name : string) (u sv : bytes) (db : DB) (n : string) :
  In n (listed_names db) -> In n (listed_names (fst (flushDocument name u sv db))).
Proof.
  intros H. apply (storeUpdate_keeps_listed name u) in H.
  rewrite listed_names_spec in *. rewrite flushDocument_steps. cbn [fst].
  apply (db_put_keeps_listed (createDocumentStateVectorKey name)
           (writeVarUint (currentClock name db + 1) ++ writeVarUint8Array sv)) in H.
  destruct H as (v1 & Hin). exists v1.
  apply clearUpdatesRange_In. split; [ exact Hin |].
  intros (c & p & v & E & _). discriminate.
Qed.

End ListingFacts.

(** X17: which documents are listed.  In the single-collection mode
    [getAllDocNames] returns the names of the state-vector records and leaves
    the store alone (with [multipleCollections] it returns the adapter's
    collection names).  A document whose log has no record at a valid clock
    is listed once an update is stored for it, a flushed document is listed,
    and neither [storeUpdate] nor [flushDocument], on whatever document, ever
    removes a name from the list. *)
Theorem getAllDocNames_lists {Y : Engine} (opts : Persistence.options)
    (collectionNames : list string) (name : string) (u sv : bytes) (db : DB) :
  Persistence.getAllDocNames_body opts collectionNames db
  = (db, Ok (if Persistence.multipleCollections opts then collectionNames
             else listed_names db))
  /\ (forall n, In n (listed_names db) <-> exists v, In (StateVectorDoc n v) db)
  /\ (currentClock name db = -1 ->
      In name (listed_names (fst (storeUpdate name u db))))
  /\ In name (listed_names (fst (flushDocument name u sv db)))
  /\ (forall n, In n (listed_names db) ->
        In n (listed_names (fst (storeUpdate name u db)))
        /\ In n (listed_names (fst (flushDocument name u sv db)))).
Proof.
  split.
  { unfold Persistence.getAllDocNames_body.
    now destruct (Persistence.multipleCollections opts). }
  split; [ apply listed_names_spec |].
  split.
  { intros Hempty. apply listed_names_spec.
    exists (encodeStateVector 0 (initialStateVector u)).
    apply state_vector_record_In. unfold storeUpdate. cbn [fst].
    rewrite fold_update_puts_sv, getCurrentUpdateClock_currentClock, Hempty.
    cbn. apply writeStateVector_record. }
  split.
  { apply listed_names_spec. eexists. apply state_vector_record_In.
    apply flushDocument_cache. }
  intros n Hn. split;
    [ now apply storeUpdate_keeps_listed | now apply flushDocument_keeps_listed ].
Qed.

Lemma getAllDocNames_lists_witness :
  In "doc9"%string
    (listed_names (fst (storeUpdate (Y := countEngine) "doc9" [x01] log_ABC))).
Proof.
  apply (proj1 (proj2 (proj2
           (getAllDocNames_lists (Y := countEngine) Persistence.default_options []
              "doc9" [x01] [x01] log_ABC)))).
  reflexivity.
Defined.

Lemma map_result_ok {A B} (f : A -> result B) (l : list A) :
  (forall x, In x l -> exists y, f x = Ok y) ->
  exists ys, map_result f l = Ok ys /\ Forall2 (fun x y => f x = Ok y) l ys.
Proof.
  induction l as [|x l IH]; intros H.
  - exists []. split; [ reflexivity | constructor ].
  - destruct (H x (or_introl eq_refl)) as [y Hy].
    destruct IH as (ys & Hys & Hall); [ intros x' Hx'; apply H; now right |].
    exists (y :: ys). cbn. rewrite Hy. cbn. rewrite Hys. cbn.
    split; [ reflexivity | now constructor ].
Qed.

Lemma map_result_err {A B} (f : A -> result B) (l : list A) (x : A) (e : error) :
  In x l -> f x = Err e -> exists e', map_result f l = Err e'.
Proof.
  induction l as [|x0 l IH]; intros Hin Hx; [ destruct Hin |].
  cbn. destruct (f x0) as [y|e0] eqn:E; [| now exists e0 ].
  cbn. destruct Hin as [->|Hin]; [ congruence |].
  destruct (IH Hin Hx) as [e' ->]. now exists e'.
Qed.

Lemma getAllSVDocs_In (db : DB) (d : mongoDoc) :
  In d (getAllSVDocs db) <-> exists n v, d = StateVectorDoc n v /\ In d db.
Proof.
  unfold getAllSVDocs, db_find. rewrite In_sort_docs, filter_In. split.
  - intros [Hin Hm]. destruct d as [| n v |]; try discriminate. now exists n, v.
  - intros (n & v & -> & Hin). split; [ exact Hin | reflexivity ].
Qed.

(** X18: the listing of all state vectors is all or nothing.  The operation
    never changes the store.  When the value of every state-vector record
    decodes, it returns one entry per record, in the order of the scan, with
    the record's name and the decoded vector and clock; when one record does
    not decode, the whole transaction body throws, and the caller of
    [getAllDocStateVectors] gets null for all documents. *)
Theorem getAllDocStateVectors_all_or_nothing (db : DB) :
  fst (Persistence.getAllDocStateVectors_body db) = db
  /\ ((forall n v, In (StateVectorDoc n v) db ->
         exists sv c, decodeMongodbStateVector v = Ok (sv, c)) ->
      exists l,
        snd (Persistence.getAllDocStateVectors_body db) = Ok l
        /\ Forall2 (fun d x => decodeMongodbStateVector (value d) = Ok (snd (fst x), snd x)
                               /\ fst (fst x) = docName d)
             (getAllSVDocs db) l)
  /\ (forall n v e,
        In (StateVectorDoc n v) db -> decodeMongodbStateVector v = Err e ->
        (exists e', snd (Persistence.getAllDocStateVectors_body db) = Err e')
        /\ forall this,
             chains_settled_well this -> MongodbPersistence.db this = db ->
             snd (Persistence.getAllDocStateVectors this) = Fulfilled None).
Proof.
  split; [ reflexivity |]. split.
  - intros Hall. unfold Persistence.getAllDocStateVectors_body. cbn [snd].
    destruct (map_result_ok
                (fun doc => do (sv, clock) <- decodeMongodbStateVector (value doc);
                            Ok (docName doc, sv, clock))
                (getAllSVDocs db)) as (l & Hl & Hf).
    { intros d Hd. apply getAllSVDocs_In in Hd. destruct Hd as (n & v & -> & Hin).
      destruct (Hall n v Hin) as (sv & c & Hdec). cbn [value docName].
      rewrite Hdec. cbn. eauto. }
    exists l. split; [ exact Hl |].
    clear Hl. induction Hf as [|d x ds xs Hdx _ IH]; constructor; [| exact IH ].
    destruct (decodeMongodbStateVector (value d)) as [[sv c]|]; [| discriminate ].
    cbn in Hdx. injection Hdx as <-. split; reflexivity.
  - intros n v e Hin Hdec.
    assert (Herr : exists e', snd (Persistence.getAllDocStateVectors_body db) = Err e').
    { unfold Persistence.getAllDocStateVectors_body. cbn [snd].
      apply (map_result_err _ _ (StateVectorDoc n v) e).
      - apply getAllSVDocs_In. now exists n, v.
      - cbn [value]. now rewrite Hdec. }
    split; [ exact Herr |].
    intros this Hok Hdb. unfold Persistence.getAllDocStateVectors.
    destruct (transact_result "global" Persistence.getAllDocStateVectors_body this Hok)
      as [-> _].
    rewrite Hdb. destruct Herr as [e' ->]. reflexivity.
Qed.

Lemma getAllDocStateVectors_all_or_nothing_witness :
  (exists e', snd (Persistence.getAllDocStateVectors_body
                     (log_ABC ++ [StateVectorDoc "doc2" [x80]])) = Err e')
  /\ forall this,
       chains_settled_well this ->
       MongodbPersistence.db this = log_ABC ++ [StateVectorDoc "doc2" [x80]] ->
       snd (Persistence.getAllDocStateVectors this) = Fulfilled None.
Proof.
  apply (proj2 (proj2 (getAllDocStateVectors_all_or_nothing
                         (log_ABC ++ [StateVectorDoc "doc2" [x80]])))
           "doc2"%string [x80] UnexpectedEndOfArray).
  - apply in_or_app. right. now left.
  - reflexivity.
Defined.

(** ** Documents that were never stored *)

Lemma db_put_app_match (q : query) (v : bytes) (db rest : DB) (d0 : mongoDoc) :
  (forall d, In d db -> matches q d = false) ->
  matches q d0 = true ->
  db_put q v (db ++ d0 :: rest) = db ++ set_value d0 v :: rest.
Proof.
  intros Hno Hd0. unfold db_put.
  assert (H : update_first q v (db ++ d0 :: rest) = Some (db ++ set_value d0 v :: rest)).
  { induction db as [|d db IH]; cbn.
    - now rewrite Hd0.
    - rewrite (Hno d (or_introl eq_refl)).
      rewrite IH by (intros d' Hd'; apply Hno; now right). reflexivity. }
  now rewrite H.
Qed.

Lemma filter_nil_all_false {A} (P : A -> bool) (l : list A) :
  filter P l = [] -> forall x, In x l -> P x = false.
Proof.
  intros H x Hin. destruct (P x) eqn:E; [| reflexivity ].
  assert (Hx : In x (filter P l)) by (apply filter_In; now split).
  rewrite H in Hx. destruct Hx.
Qed.

Lemma state_vector_record_none (n : string) (db : DB) :
  state_vector_record n db = None ->
  forall d, In d db -> matches (createDocumentStateVectorKey n) d = false.
Proof.
  unfold state_vector_record, db_findOne. intros H.
  apply filter_nil_all_false.
  destruct (filter (matches (createDocumentStateVectorKey n)) db);
    [ reflexivity | discriminate ].
Qed.

Section UnknownDocument.
Context {Y : Engine}.

Lemma flushDocument_unknown (name : string) (u sv : bytes) (db : DB) :
  updates_of name db = [] ->
  state_vector_record name db = None ->
  fst (flushDocument name u sv db)
  = db ++ StateVectorDoc name (encodeStateVector 0 sv) :: update_records name 0 u.
Proof.
  intros Hlog Hsv.
  assert (Hvalid : log_clocks_valid name db).
  { intros n c p v Hin ->.
    assert (Hx : In (UpdateDoc name c p v) (updates_of name db)).
    { apply filter_In. split; [ exact Hin |].
      rewrite is_update_of_spec. apply String.eqb_refl. }
    rewrite Hlog in Hx. destruct Hx. }
  assert (Hclock : currentClock name db = -1)
    by (rewrite <- currentClock_updates_of, Hlog; reflexivity).
  rewrite flushDocument_steps. cbn [fst].
  rewrite storeUpdate_appends by (now right). cbn [fst].
  rewrite Hclock. change (-1 + 1) with 0. change (-1 =? -1) with true. cbn iota.
  pose proof (state_vector_record_none name db Hsv) as Hno.
  unfold writeStateVector at 2. rewrite db_put_fresh by exact Hno.
  unfold writeStateVector. rewrite <- app_assoc. cbn [app].
  rewrite db_put_app_match;
    [| exact Hno | rewrite matches_sv_key; cbn; apply String.eqb_refl ].
  unfold clearUpdatesRange, db_delete. apply filter_all_true.
  intros d _. rewrite matches_clear_filter.
  destruct d as [n c p v| |]; try reflexivity.
  assert (E : (0 <=? c) && (c <? 0) = false)
    by (destruct (Z.leb_spec 0 c), (Z.ltb_spec c 0); try reflexivity; lia).
  now rewrite E, andb_false_r.
Qed.

End UnknownDocument.

(** X19: asking for the state vector of a document that was never stored
    creates it.  When the store holds neither an update record nor a
    state-vector record of the document, [getStateVector] returns the state
    vector of the empty engine document and appends two records to the store:
    a state-vector record stamped with the clock 0 and the full-state update
    of the empty document at the clock 0.  [getYDoc] (flush size not
    negative) returns the empty document and leaves the store as it is. *)
Theorem getStateVector_unknown_document {Y : Engine} (opts : Persistence.options)
    (name : string) (db : DB) :
  updates_of name db = [] ->
  state_vector_record name db = None ->
  MongodbPersistence.getStateVector_body name db
  = (db ++ StateVectorDoc name (encodeStateVector 0 (Y_encodeStateVector Y_Doc))
        :: update_records name 0 (Y_encodeStateAsUpdate Y_Doc),
     Ok (Y_encodeStateVector Y_Doc))
  /\ (0 <= Persistence.flushSize opts ->
      Persistence.getYDoc_body opts name db = (db, Ok Y_Doc)).
Proof.
  intros Hlog Hsv.
  assert (Hread : getMongoUpdates name db = Ok [])
    by (rewrite getMongoUpdates_updates_of, Hlog; reflexivity).
  split.
  - unfold MongodbPersistence.getStateVector_body.
    rewrite readStateVector_record, Hsv.
    rewrite (merge_and_flush_runs name db [] Hread).
    unfold mergeUpdates. cbn [fold_left fst snd].
    now rewrite flushDocument_unknown.
  - intros Hsize. unfold Persistence.getYDoc_body. rewrite Hread.
    cbn [fold_left List.length Z.of_nat].
    destruct (Z.ltb_spec (Persistence.flushSize opts) 0); [ lia | reflexivity ].
Qed.

Lemma getStateVector_unknown_document_witness :
  MongodbPersistence.getStateVector_body (Y := countEngine) "doc9" log_ABC
  = (log_ABC
       ++ StateVectorDoc "doc9"
            (encodeStateVector 0
               (Y_encodeStateVector (Engine := countEngine) (Y_Doc (Engine := countEngine))))
       :: update_records "doc9" 0
            (Y_encodeStateAsUpdate (Engine := countEngine) (Y_Doc (Engine := countEngine))),
     Ok (Y_encodeStateVector (Engine := countEngine) (Y_Doc (Engine := countEngine)))).
Proof.
  apply (proj1 (getStateVector_unknown_document (Y := countEngine)
                  Persistence.default_options "doc9" log_ABC eq_refl eq_refl)).
Defined.

(** ** Logs that cannot be read *)

Lemma transact_fails_quietly {A} (name : string) (f : DB -> DB * result A)
    (this : MongodbPersistence.t) (e : error) :
  chains_settled_well this ->
  f (MongodbPersistence.db this) = (MongodbPersistence.db this, Err e) ->
  failed_quietly e this (MongodbPersistence._transact name f this).
Proof.
  intros Hok Hf.
  destruct (SerializerFacts.transact_runs name f this (Hok name)) as (tr1 & _ & _ & Heq).
  rewrite Heq, Hf. repeat split.
Qed.

(** X20: a log that cannot be read blocks the document without damaging it.
    When reading the log of a document fails (a part of a split update is
    missing, say), [getYDoc], [flushDocument] and, unless the cache is
    current, [getStateVector] hand null to their caller, write one warning to
    the console and leave the store exactly as it was. *)
Theorem unreadable_log_fails_quietly {Y : Engine} (opts : Persistence.options)
    (name : string) (this : MongodbPersistence.t) (e : error) :
  chains_settled_well this ->
  getMongoUpdates name (MongodbPersistence.db this) = Err e ->
  failed_quietly e this (Persistence.getYDoc opts name this)
  /\ failed_quietly e this (MongodbPersistence.flushDocument name this)
  /\ (forall r,
        readStateVector name (MongodbPersistence.db this) = Ok r ->
        ~ cache_is_current name (MongodbPersistence.db this) ->
        failed_quietly e this (MongodbPersistence.getStateVector name this)).
Proof.
  intros Hok Hread.
  assert (Hmerge : MongodbPersistence.merge_and_flush name (MongodbPersistence.db this)
                   = (MongodbPersistence.db this, Err e))
    by (unfold MongodbPersistence.merge_and_flush; now rewrite Hread).
  split; [| split ].
  - apply transact_fails_quietly; [ exact Hok |].
    unfold Persistence.getYDoc_body. now rewrite Hread.
  - apply transact_fails_quietly; [ exact Hok |]. now rewrite Hmerge.
  - intros r Hsv Hstale. apply transact_fails_quietly; [ exact Hok |].
    now rewrite (getStateVector_body_miss name _ r Hsv Hstale).
Qed.

Lemma unreadable_log_fails_quietly_witness :
  let this := {| MongodbPersistence.db := log_with_gap;
                 MongodbPersistence.console := [];
                 MongodbPersistence.tr := [] |} in
  failed_quietly CorruptChunkSequence this
    (Persistence.getYDoc (Y := countEngine) Persistence.default_options "doc1" this)
  /\ failed_quietly CorruptChunkSequence this
       (MongodbPersistence.flushDocument (Y := countEngine) "doc1" this)
  /\ (forall r,
        readStateVector "doc1" (MongodbPersistence.db this) = Ok r ->
        ~ cache_is_current "doc1" (MongodbPersistence.db this) ->
        failed_quietly CorruptChunkSequence this
          (MongodbPersistence.getStateVector (Y := countEngine) "doc1" this)).
Proof.
  intros this.
  apply (unreadable_log_fails_quietly (Y := countEngine) Persistence.default_options
           "doc1" this CorruptChunkSequence).
  - intros name e. discriminate.
  - reflexivity.
Defined.

(** ** Storing, then loading *)

Section StoreLoad.
Context {Y : Engine}.

Lemma class_storeUpdate_db (name : string) (u : bytes) (this : MongodbPersistence.t) :
  chains_settled_well this ->
  chains_settled_well (fst (MongodbPersistence.storeUpdate name u this))
  /\ MongodbPersistence.db (fst (MongodbPersistence.storeUpdate name u this))
     = fst (storeUpdate name u (MongodbPersistence.db this)).
Proof.
  intros Hok. unfold MongodbPersistence.storeUpdate. split.
  - now apply SerializerFacts.transact_keeps_chains.
  - match goal with |- context [MongodbPersistence._transact name ?f this] =>
      destruct (transact_result name f this Hok) as [_ ->] end.
    now destruct (storeUpdate name u (MongodbPersistence.db this)).
Qed.

Lemma store_all_db (name : string) (us : list bytes) (this : MongodbPersistence.t) :
  chains_settled_well this ->
  chains_settled_well (store_all name us this)
  /\ MongodbPersistence.db (store_all name us this)
     = fst (append_all name us (MongodbPersistence.db this)).
Proof.
  revert this. induction us as [|u us IH]; intros this Hok; [ now split |].
  change (store_all name (u :: us) this)
    with (store_all name us (fst (MongodbPersistence.storeUpdate name u this))).
  destruct (class_storeUpdate_db name u this Hok) as [Hok1 Hdb].
  destruct (IH _ Hok1) as [H1 H2].
  split; [ exact H1 |]. rewrite H2, Hdb. cbn [append_all].
  destruct (storeUpdate name u (MongodbPersistence.db this)) as [db1 c]. cbn [fst].
  now destruct (append_all name us db1).
Qed.

End StoreLoad.

(** X21: what was stored is what is loaded.  On an instance without a
    rejected chain whose log of the document holds valid clocks only and
    reads as [before], after [storeUpdate] was called for the updates [us]
    (clocks staying below BITS32), [getYDoc] hands out the engine document
    obtained by applying [before] and then [us], in the order of the calls,
    whatever the flush size. *)
Theorem store_then_load {Y : Engine} (opts : Persistence.options) (name : string)
    (us before : list bytes) (this : MongodbPersistence.t) :
  chains_settled_well this ->
  log_clocks_valid name (MongodbPersistence.db this) ->
  getMongoUpdates name (MongodbPersistence.db this) = Ok before ->
  currentClock name (MongodbPersistence.db this) + Z.of_nat (List.length us) < BITS32 ->
  snd (Persistence.getYDoc opts name (store_all name us this))
  = Fulfilled (Some (fold_left Y_applyUpdate (before ++ us) Y_Doc)).
Proof.
  intros Hok Hvalid Hread Hbound.
  destruct (store_all_db name us this Hok) as [Hok' Hdb].
  unfold Persistence.getYDoc.
  destruct (transact_result name (Persistence.getYDoc_body opts name)
              (store_all name us this) Hok') as [-> _].
  rewrite Hdb. unfold Persistence.getYDoc_body.
  rewrite (getMongoUpdates_append_all name us before _ Hvalid Hread Hbound).
  reflexivity.
Qed.

Lemma store_then_load_witness :
  snd (Persistence.getYDoc (Y := countEngine) Persistence.default_options "doc1"
         (store_all (Y := countEngine) "doc1" [[x0a]; [x0b]] fresh))
  = Fulfilled (Some (fold_left (Y_applyUpdate (Engine := countEngine))
                       ([] ++ [[x0a]; [x0b]]) (Y_Doc (Engine := countEngine)))).
Proof.
  apply (store_then_load (Y := countEngine) Persistence.default_options "doc1"
           [[x0a]; [x0b]] [] fresh).
  - intros name e. discriminate.
  - intros n c p v [].
  - reflexivity.
  - vm_compute. reflexivity.
Defined.

(** ** State Vector Cache: when the answer is fresh *)

Lemma readStateVector_Some (name : string) (db : DB) (sv : bytes) (stamp : Z) :
  readStateVector name db = Ok (Some sv, stamp)
  <-> exists cached, state_vector_record name db = Some cached
                     /\ decodeMongodbStateVector cached = Ok (sv, stamp).
Proof.
  rewrite readStateVector_record. split.
  - destruct (state_vector_record name db) as [cached|]; [| discriminate ].
    intros H. exists cached. split; [ reflexivity |].
    destruct (decodeMongodbStateVector cached) as [[sv' c]|]; [| discriminate ].
    cbn in H. now injection H as -> ->.
  - intros (cached & -> & ->). reflexivity.
Qed.

Lemma updates_of_nil_of_clock (name : string) (db : DB) :
  log_clocks_valid name db -> currentClock name db = -1 -> updates_of name db = [].
Proof.
  intros Hvalid Hc. unfold updates_of. apply filter_all_false. intros d Hd.
  rewrite is_update_of_spec. destruct d as [n c p v| |]; try reflexivity.
  destruct (String.eqb_spec name n) as [<-|]; [| reflexivity ].
  pose proof (Hvalid _ _ _ _ Hd eq_refl) as Hv.
  pose proof (currentClock_upper name db c p v Hd Hv) as Hup.
  unfold valid_clock in Hv. apply andb_prop in Hv. destruct Hv as [Hv _].
  apply Z.leb_le in Hv. lia.
Qed.

Section Soundness.
Context {Y : Engine}.

Lemma storeUpdate_first_record (name : string) (u : bytes) (db : DB) :
  currentClock name db = -1 ->
  state_vector_record name (fst (storeUpdate name u db))
  = Some (encodeStateVector 0 (initialStateVector u)).
Proof.
  intros Hc. unfold storeUpdate. cbn [fst].
  rewrite fold_update_puts_sv, getCurrentUpdateClock_currentClock, Hc.
  cbn. apply writeStateVector_record.
Qed.

Lemma cache_sound_none (name : string) (db : DB) :
  state_vector_record name db = None -> cache_sound name db.
Proof.
  intros Hnone sv stamp Hread. apply readStateVector_Some in Hread.
  destruct Hread as (cached & Hrec & _). congruence.
Qed.

Lemma cache_sound_storeUpdate (name : string) (u : bytes) (db : DB)
    (updates : list bytes) :
  cache_sound name db ->
  log_clocks_valid name db ->
  getMongoUpdates name db = Ok updates ->
  currentClock name db + 1 < BITS32 ->
  byteLength (initialStateVector u) <= MAX_SAFE_INTEGER ->
  cache_sound name (fst (storeUpdate name u db)).
Proof.
  intros Hsound Hvalid Hlog Hlt Hsafe sv stamp Hread.
  pose proof (storeUpdate_advances name u db Hlt) as Hadv.
  pose proof (getMongoUpdates_storeUpdate name u db updates Hvalid Hlog) as Hlog'.
  apply readStateVector_Some in Hread. destruct Hread as (cached & Hrec & Hdec).
  rewrite Hadv.
  destruct (Z.eq_dec (currentClock name db) (-1)) as [Hc|Hc].
  - rewrite (storeUpdate_first_record name u db Hc) in Hrec. injection Hrec as <-.
    rewrite decode_encode in Hdec
      by (try exact Hsafe; unfold MAX_SAFE_INTEGER; lia).
    injection Hdec as <- <-. rewrite Hc. split; [ lia |]. intros _.
    exists (updates ++ [u]). split; [ exact Hlog' |].
    assert (updates = []) as ->.
    { rewrite getMongoUpdates_updates_of in Hlog.
      rewrite (updates_of_nil_of_clock name db Hvalid Hc) in Hlog.
      now injection Hlog as <-. }
    reflexivity.
  - rewrite storeUpdate_keeps_record in Hrec by exact Hc.
    assert (Hread : readStateVector name db = Ok (Some sv, stamp))
      by (apply readStateVector_Some; now exists cached).
    destruct (Hsound sv stamp Hread) as [Hle _]. split; lia.
Qed.

Lemma cache_sound_flush (name : string) (db : DB) (updates : list bytes) :
  state_update_faithful Y ->
  log_clocks_valid name db ->
  getMongoUpdates name db = Ok updates ->
  currentClock name db + 1 < BITS32 ->
  byteLength (snd (mergeUpdates updates)) <= MAX_SAFE_INTEGER ->
  cache_sound name
    (fst (flushDocument name (fst (mergeUpdates updates)) (snd (mergeUpdates updates)) db)).
Proof.
  intros Hfaithful Hvalid Hlog Hlt Hsafe sv stamp Hread.
  set (m := mergeUpdates updates) in *.
  rewrite (readStateVector_after_flush name (fst m) (snd m) db Hsafe) in Hread.
  injection Hread as <- <-.
  rewrite (flushDocument_currentClock name (fst m) (snd m) db Hvalid Hlt).
  split; [ lia |]. intros _. exists [fst m].
  split; [ now apply getMongoUpdates_after_flush |].
  subst m. unfold mergeUpdates. cbn [fst snd fold_left].
  symmetry. apply Hfaithful.
Qed.

Lemma getStateVector_body_fresh (name : string) (db db' : DB) (updates : list bytes)
    (sv : bytes) :
  cache_sound name db ->
  getMongoUpdates name db = Ok updates ->
  MongodbPersistence.getStateVector_body name db = (db', Ok sv) ->
  sv = snd (mergeUpdates updates).
Proof.
  intros Hsound Hlog Hbody.
  destruct (readStateVector name db) as [r|e] eqn:Hread.
  - destruct (classic_cache name db r Hread) as [(sv0 & Hhit)|Hstale].
    + rewrite (getStateVector_body_hit name db sv0 Hhit) in Hbody.
      injection Hbody as _ <-.
      destruct (Hsound sv0 _ Hhit) as [_ Hfresh].
      destruct (Hfresh eq_refl) as (updates' & Hlog' & ->).
      rewrite Hlog in Hlog'. now injection Hlog' as <-.
    + rewrite (getStateVector_body_miss name db r Hread Hstale) in Hbody.
      rewrite (merge_and_flush_runs name db updates Hlog) in Hbody.
      now injection Hbody as _ <-.
  - unfold MongodbPersistence.getStateVector_body in Hbody.
    rewrite Hread in Hbody. discriminate.
Qed.

Lemma getStateVector_body_keeps_sound (name : string) (db : DB) (updates : list bytes) :
  state_update_faithful Y ->
  cache_sound name db ->
  log_clocks_valid name db ->
  getMongoUpdates name db = Ok updates ->
  currentClock name db + 1 < BITS32 ->
  byteLength (snd (mergeUpdates updates)) <= MAX_SAFE_INTEGER ->
  cache_sound name (fst (MongodbPersistence.getStateVector_body name db)).
Proof.
  intros Hfaithful Hsound Hvalid Hlog Hlt Hsafe.
  destruct (readStateVector name db) as [r|e] eqn:Hread.
  - destruct (classic_cache name db r Hread) as [(sv0 & Hhit)|Hstale].
    + now rewrite (getStateVector_body_hit name db sv0 Hhit).
    + rewrite (getStateVector_body_miss name db r Hread Hstale).
      rewrite (merge_and_flush_runs name db updates Hlog). cbn [fst].
      now apply cache_sound_flush.
  - unfold MongodbPersistence.getStateVector_body. now rewrite Hread.
Qed.

Lemma append_all_keeps_record (name : string) (us : list bytes) (db : DB) :
  0 <= currentClock name db ->
  currentClock name db + Z.of_nat (List.length us) < BITS32 ->
  state_vector_record name (fst (append_all name us db)) = state_vector_record name db.
Proof.
  revert db. induction us as [|u us IH]; intros db Hc Hbound; [ reflexivity |].
  cbn [append_all].
  assert (Hlt : currentClock name db + 1 < BITS32)
    by (cbn [List.length] in Hbound; lia).
  pose proof (storeUpdate_advances name u db Hlt) as Hadv.
  pose proof (storeUpdate_keeps_record name u db ltac:(lia)) as Hkeep.
  destruct (storeUpdate name u db) as [db1 c]. cbn [fst] in *.
  specialize (IH db1).
  destruct (append_all name us db1) as [db2 cs]. cbn [fst] in *.
  rewrite IH, Hkeep; [ reflexivity | lia | cbn [List.length] in Hbound; lia ].
Qed.

End Soundness.

Section StaleHit.
Context {Y : Engine}.

(** After a bulk insert of one small update into an empty store, the document
    has one update record at clock 0 and a state-vector record that reads
    with the clock 127. *)
Lemma insertUpdates_single (name : string) (u0 : bytes) :
  byteLength u0 <= MAX_DOCUMENT_SIZE ->
  byteLength (initialStateVector u0) <= MAX_SAFE_INTEGER ->
  let db1 := w_db (fst (insertUpdates [(name, u0)] empty_world)) in
  log_clocks_valid name db1
  /\ getMongoUpdates name db1 = Ok [u0]
  /\ currentClock name db1 = 0
  /\ state_vector_record name db1
     = Some (encodeStateVector (-1) (initialStateVector u0)).
Proof.
  intros Hsmall Hsafe db1. subst db1.
  assert (Hnames : NoDup (map fst [(name, u0)]))
    by (repeat constructor; intros []).
  assert (Hids : NoDup (record_identifiers [(name, u0)])).
  { unfold record_identifiers, update_entries. cbn [flat_map fst snd].
    destruct (Z.leb_spec (byteLength u0) MAX_DOCUMENT_SIZE); [| lia ].
    repeat constructor; intros []. }
  rewrite (insertUpdates_appends [(name, u0)] empty_world Hnames Hids).
  cbn [empty_world w_db app].
  assert (Hupd : updates_of name (inserted_records [(name, u0)])
                 = update_records name 0 u0)
    by (apply updates_of_inserted; [ exact Hnames | now left ]).
  split.
  { intros n c p v Hin ->.
    assert (Hx : In (UpdateDoc name c p v) (updates_of name (inserted_records [(name, u0)]))).
    { apply filter_In. split; [ exact Hin |].
      rewrite is_update_of_spec. apply String.eqb_refl. }
    rewrite Hupd in Hx.
    destruct (update_records_shape name 0 u0) as [_ Hall].
    destruct (Hall _ Hx) as (p' & v' & E). now injection E as -> _ _. }
  split.
  { rewrite getMongoUpdates_updates_of, Hupd, sort_update_records.
    apply convert_update_records. }
  split.
  { rewrite <- currentClock_updates_of, Hupd.
    now apply currentClock_update_records. }
  apply sv_record_inserted; [ exact Hnames | now left ].
Qed.

(** The stale hit: a document brought in by [insertUpdates] and followed by
    127 calls of [storeUpdate] has the current clock 127, which is the clock
    its state-vector record reads with; [getStateVector] answers from the
    record, with the state vector of the first update alone, and changes
    nothing, while the log holds 128 updates. *)
Lemma stale_hit_after_bulk_insert (name : string) (u0 : bytes) (us : list bytes) :
  byteLength u0 <= MAX_DOCUMENT_SIZE ->
  byteLength (initialStateVector u0) <= MAX_SAFE_INTEGER ->
  List.length us = 127%nat ->
  let db := imported_then_appended name u0 us in
  getMongoUpdates name db = Ok (u0 :: us)
  /\ currentClock name db = 127
  /\ readStateVector name db = Ok (Some (initialStateVector u0), 127)
  /\ cache_is_current name db
  /\ MongodbPersistence.getStateVector_body name db
     = (db, Ok (initialStateVector u0)).
Proof.
  intros Hsmall Hsafe Hlen db. subst db. unfold imported_then_appended.
  destruct (insertUpdates_single name u0 Hsmall Hsafe) as (Hvalid & Hlog & Hc & Hrec).
  cbv zeta in *.
  set (db1 := w_db (fst (insertUpdates [(name, u0)] empty_world))) in *.
  assert (Hbound : currentClock name db1 + Z.of_nat (List.length us) < BITS32)
    by (rewrite Hc, Hlen; reflexivity).
  pose proof (getMongoUpdates_append_all name us [u0] db1 Hvalid Hlog Hbound) as Hlog2.
  pose proof (append_all_currentClock name us db1 Hbound) as Hc2.
  rewrite Hc, Hlen in Hc2. change (0 + Z.of_nat 127) with 127 in Hc2.
  pose proof (append_all_keeps_record name us db1 ltac:(lia) Hbound) as Hrec2.
  rewrite Hrec in Hrec2.
  assert (Hread : readStateVector name (fst (append_all name us db1))
                  = Ok (Some (initialStateVector u0), 127)).
  { apply readStateVector_Some.
    exists (encodeStateVector (-1) (initialStateVector u0)).
    split; [ exact Hrec2 |].
    now destruct (encodeStateVector_minus_one (initialStateVector u0) Hsafe). }
  split; [ exact Hlog2 |]. split; [ exact Hc2 |]. split; [ exact Hread |].
  rewrite <- Hc2 in Hread.
  split; [ apply cache_is_current_read; eauto |].
  now apply getStateVector_body_hit.
Qed.

End StaleHit.

(** C3 (cache rule, amended).  [getStateVector] returns the cached state
    vector, leaving the store untouched, exactly when a state-vector record
    exists, decodes, and the clock stored in it equals the current clock of
    the update log.  When the cache is read and is not in that state (no
    record, or another clock), it runs the merge-and-flush of the document,
    which merges all the updates of the log, flushes the document with the
    merged update and state vector, and returns that freshly computed state
    vector; after it the record is stamped with the new current clock.  When
    the record does not decode, or the log cannot be read on a miss, the body
    throws and the store is as before.  The serializer hands the caller the
    vector (or null after a throw, with one warning) and leaves the store as
    the body left it.  The vector returned is the state vector of the whole
    log whenever the record is sound, which it is when there is none, and
    stays under [storeUpdate], under the merge-and-flush and under
    [getStateVector] itself. *)
Theorem getStateVector_cache_rule {Y : Engine} (name : string) (db : DB) :
  let body := MongodbPersistence.getStateVector_body name db in
  (cache_is_current name db
   <-> exists sv, readStateVector name db = Ok (Some sv, currentClock name db))
  /\ (forall sv,
        readStateVector name db = Ok (Some sv, currentClock name db) ->
        body = (db, Ok sv))
  /\ (forall r,
        readStateVector name db = Ok r -> ~ cache_is_current name db ->
        body = MongodbPersistence.merge_and_flush name db)
  /\ (forall e, readStateVector name db = Err e -> body = (db, Err e))
  /\ (forall e,
        getMongoUpdates name db = Err e ->
        MongodbPersistence.merge_and_flush name db = (db, Err e))
  /\ (forall updates,
        getMongoUpdates name db = Ok updates ->
        let merged := mergeUpdates updates in
        MongodbPersistence.merge_and_flush name db
        = (fst (flushDocument name (fst merged) (snd merged) db), Ok (snd merged))
        /\ merged = (Y_encodeStateAsUpdate (fold_left Y_applyUpdate updates Y_Doc),
                     Y_encodeStateVector (fold_left Y_applyUpdate updates Y_Doc))
        /\ state_vector_record name (fst (MongodbPersistence.merge_and_flush name db))
           = Some (encodeStateVector (currentClock name db + 1) (snd merged))
        /\ (log_clocks_valid name db -> currentClock name db + 1 < BITS32 ->
            currentClock name (fst (MongodbPersistence.merge_and_flush name db))
            = currentClock name db + 1)
        /\ (currentClock name db + 1 < BITS32 ->
            fst (MongodbPersistence.merge_and_flush name db) <> db)
        /\ (forall sv db',
              cache_sound name db -> body = (db', Ok sv) ->
              sv = Y_encodeStateVector (fold_left Y_applyUpdate updates Y_Doc))
        /\ (state_update_faithful Y -> cache_sound name db ->
            log_clocks_valid name db -> currentClock name db + 1 < BITS32 ->
            byteLength (snd merged) <= MAX_SAFE_INTEGER ->
            cache_sound name (fst body)
            /\ cache_sound name (fst (MongodbPersistence.merge_and_flush name db)))
        /\ (forall u,
              cache_sound name db -> log_clocks_valid name db ->
              currentClock name db + 1 < BITS32 ->
              byteLength (initialStateVector u) <= MAX_SAFE_INTEGER ->
              cache_sound name (fst (storeUpdate name u db))))
  /\ (state_vector_record name db = None -> cache_sound name db)
  /\ (forall this,
        chains_settled_well this -> MongodbPersistence.db this = db ->
        let r := MongodbPersistence.getStateVector name this in
        snd r = match snd body with
                | Ok sv => Fulfilled (Some sv)
                | Err _ => Fulfilled None
                end
        /\ MongodbPersistence.db (fst r) = fst body
        /\ MongodbPersistence.console (fst r)
           = MongodbPersistence.console this
             ++ match snd body with
                | Ok _ => []
                | Err e => [ConsoleWarn e]
                end).
Proof.
  intros body. subst body.
  split; [ apply cache_is_current_read |].
  split; [ intros sv; apply getStateVector_body_hit |].
  split; [ intros r; apply getStateVector_body_miss |].
  split.
  { intros e Hread. unfold MongodbPersistence.getStateVector_body.
    now rewrite Hread. }
  split.
  { intros e Hlog. unfold MongodbPersistence.merge_and_flush. now rewrite Hlog. }
  split.
  { intros updates Hlog merged.
    pose proof (merge_and_flush_runs name db updates Hlog) as Hrun.
    fold merged in Hrun. rewrite Hrun. cbn [fst].
    split; [ reflexivity |]. split; [ reflexivity |].
    split; [ apply flushDocument_cache |].
    split; [ intros Hvalid Hlt; now apply flushDocument_currentClock |].
    split.
    { intros Hlt Heq.
      destruct (flushDocument_leaves_record name (fst merged) (snd merged) db)
        as (p & v & Hin).
      unfold updates_of in Hin. apply filter_In in Hin. destruct Hin as [Hin _].
      rewrite Heq in Hin. rewrite flushDocument_steps in Hin. cbn [snd] in Hin.
      exact (next_clock_free name db (or_introl Hlt) _ p v Hin eq_refl). }
    split.
    { intros sv db' Hsound Hbody.
      exact (getStateVector_body_fresh name db db' updates sv Hsound Hlog Hbody). }
    split.
    { intros Hfaithful Hsound Hvalid Hlt Hsafe. split.
      - now apply (getStateVector_body_keeps_sound name db updates).
      - now apply cache_sound_flush. }
    intros u Hsound Hvalid Hlt Hsafe.
    now apply (cache_sound_storeUpdate name u db updates). }
  split; [ apply cache_sound_none |].
  intros this Hok Hdb r. subst r db. unfold MongodbPersistence.getStateVector.
  destruct (transact_result name (MongodbPersistence.getStateVector_body name)
              this Hok) as [Hres Hstore].
  split; [ exact Hres |]. split; [ exact Hstore |].
  apply transact_console. exact Hok.
Qed.

(** The scenario of the specification at the level of the class: on the log
    with the updates A, B, C the cache is stale, the call merges, flushes and
    hands out the merged vector, and the store is the flushed one; on the
    flushed store the call answers from the cache; on a store whose record
    does not decode the body throws. *)
Lemma getStateVector_cache_rule_witness :
  let this := {| MongodbPersistence.db := log_ABC;
                 MongodbPersistence.console := [];
                 MongodbPersistence.tr := [] |} in
  let r := MongodbPersistence.getStateVector (Y := countEngine) "doc1" this in
  (snd r = Fulfilled (Some [x03])
   /\ MongodbPersistence.db (fst r) = log_flushed
   /\ MongodbPersistence.console (fst r) = [])
  /\ MongodbPersistence.getStateVector_body (Y := countEngine) "doc1" log_flushed
     = (log_flushed, Ok [x03])
  /\ MongodbPersistence.getStateVector_body (Y := countEngine) "doc1"
       log_with_damaged_cache
     = (log_with_damaged_cache, Err UnexpectedEndOfArray).
Proof.
  intros this r. split; [| split ].
  - apply (proj2 (proj2 (proj2 (proj2 (proj2 (proj2 (proj2
             (getStateVector_cache_rule (Y := countEngine) "doc1" log_ABC)))))))
             this).
    + intros name e. discriminate.
    + reflexivity.
  - apply (proj1 (proj2 (getStateVector_cache_rule (Y := countEngine) "doc1" log_flushed))).
    vm_compute. reflexivity.
  - apply (proj1 (proj2 (proj2 (proj2
             (getStateVector_cache_rule (Y := countEngine) "doc1"
                log_with_damaged_cache))))).
    vm_compute. reflexivity.
Defined.

(** C3, as stated, fails in two ways.  A state-vector record that does not
    decode is neither answered from nor replaced: the call throws, the caller
    gets null, and the store is unchanged, although a merge-and-flush would
    have produced a state vector.  And a record whose clock equals the current
    clock need not hold the state vector of the log: a document brought in by
    [insertUpdates] (its record reads with the clock 127) and followed by 127
    updates is answered from the record, with the state vector of the first
    update, while the log holds 128 updates; here this is shown for 128
    updates without content and the counting engine, and then for every
    engine and all updates. *)
Lemma getStateVector_cache_rule_fails :
  (MongodbPersistence.getStateVector_body (Y := countEngine) "doc1"
     log_with_damaged_cache
   = (log_with_damaged_cache, Err UnexpectedEndOfArray)
   /\ snd (MongodbPersistence.merge_and_flush (Y := countEngine) "doc1"
             log_with_damaged_cache) = Ok [x02]
   /\ snd (MongodbPersistence.getStateVector (Y := countEngine) "doc1"
             {| MongodbPersistence.db := log_with_damaged_cache;
                MongodbPersistence.console := [];
                MongodbPersistence.tr := [] |}) = Fulfilled None)
  /\ (let db := imported_then_appended (Y := countEngine) "doc1" [x00; x00]
                  empty_updates_127 in
      MongodbPersistence.getStateVector_body (Y := countEngine) "doc1" db
      = (db, Ok [x02])
      /\ getMongoUpdates "doc1" db = Ok ([x00; x00] :: empty_updates_127)
      /\ snd (mergeUpdates (Y := countEngine) ([x00; x00] :: empty_updates_127))
         = [x00])
  /\ (forall (Y : Engine) (name : string) (u0 : bytes) (us : list bytes),
        byteLength u0 <= MAX_DOCUMENT_SIZE ->
        byteLength (initialStateVector u0) <= MAX_SAFE_INTEGER ->
        List.length us = 127%nat ->
        let db := imported_then_appended name u0 us in
        MongodbPersistence.getStateVector_body name db
        = (db, Ok (Y_encodeStateVector (Y_applyUpdate Y_Doc u0)))
        /\ getMongoUpdates name db = Ok (u0 :: us)).
Proof.
  split; [| split ].
  - split; [ vm_compute; reflexivity |].
    split; vm_compute; reflexivity.
  - intros db.
    destruct (stale_hit_after_bulk_insert (Y := countEngine) "doc1" [x00; x00]
                empty_updates_127)
      as (Hlog & _ & _ & _ & Hbody);
      [ vm_compute; discriminate | vm_compute; discriminate | reflexivity |].
    split; [ exact Hbody |]. split; [ exact Hlog |].
    vm_compute. reflexivity.
  - intros Y name u0 us Hsmall Hsafe Hlen db.
    destruct (stale_hit_after_bulk_insert name u0 us Hsmall Hsafe Hlen)
      as (Hlog & _ & _ & _ & Hbody).
    split; [ exact Hbody | exact Hlog ].
Qed.
